(** * supadb: the thread synchronisation script, embedded and verified

    The development follows [scripts/bulk-create-threads.ts] (the revision
    that walks [data/<job>/<group>/members.json]).  The script talks to
    three outside parties: the YouTube Data API, an image CDN and a Supabase
    project (relational tables [threads], [tags], [thread_tags] plus a
    storage bucket).  The script itself is embedded function by function as
    a state-passing program over a [World]; the outside parties are modelled
    just far enough to answer the calls the script makes.

    After it come the single-file revision of the same script and the two
    generators of derived files, [master.json] and [jobs.json] /
    [groups.json]. *)

From stdpp Require Import base option list strings gmap pretty sorting.
From Stdlib Require Import Lia.

#[local] Set Warnings "-clear-no-such-hyp".

Open Scope string_scope.
Open Scope nat_scope.
Open Scope list_scope.

(** ** Rows and tables *)

(** Primary keys are uuid strings in the source; they are opaque there, so
    they are naturals here and printed in decimal when a path is built. *)
Definition Key := nat.

Record Thread := mkThread {
  name : string;
  youtube_id : string;
  youtube_title : string;
  avatar_path : string;
}.

(** What the project's database schema enforces is not part of the script,
    so it is a parameter of the store. *)
Record Schema := mkSchema {
  threads_youtube_id_unique : bool;
  tags_name_unique : bool;
  thread_tags_unique : bool;
}.

Record Db := mkDb {
  threads : gmap Key Thread;
  tags : gmap Key string;
  thread_tags : list (Key * Key);
  bucket : gmap string string;
  next_key : Key;
}.

(** ** The catalog on disk *)

Record Member := mkMember {
  m_name : string;
  m_youtube_id : string;
  m_options : option (list string);
}.

Record Metadata := mkMetadata {
  job : string;
  group : string;
}.

Record MembersJson := mkMembersJson {
  metadata : Metadata;
  members : list (option Member);
}.

(** A group directory holds [members.json] or not ([None]); the file may
    fail to parse ([Some None]). *)
Inductive GroupEntry :=
  | GFile
  | GDir (members_json : option (option MembersJson)).

Inductive JobEntry :=
  | JFile
  | JDir (entries : list (string * GroupEntry)).

Definition DataDir := list (string * JobEntry).

(** ** The YouTube API and the CDN *)

Record Channel := mkChannel {
  ch_id : string;
  ch_handle : string;
  ch_title : string;
  ch_high : option string;
  ch_medium : option string;
  ch_default : option string;
}.

Record ChannelInfo := mkChannelInfo {
  channelId : string;
  title : string;
  thumbnailUrl : string;
}.

(** Everything the script only reads: the API's channels, the images the
    CDN serves, the database schema and the [data/] directory. *)
Record Outside := mkOutside {
  youtube : list Channel;
  cdn : gmap string string;
  schema : Schema;
  data_dir : DataDir;
}.

(** ** Calls, replies and the world *)

Inductive Call :=
  | YtChannelsById (id : string)
  | YtChannelsForHandle (handle : string)
  | HttpGet (url : string)
  | TagsSelectByName (n : string)
  | TagsInsert (n : string)
  | ThreadTagsInsert (rows : list (Key * Key))
  | ThreadTagsSelect (thread : Key)
  | ThreadTagsDelete (thread : Key)
  | ThreadsSelectByYoutubeId (yid : string)
  | ThreadsSelectById (k : Key)
  | ThreadsUpdateName (k : Key) (n : string)
  | ThreadsUpdateTitle (k : Key) (t : string)
  | ThreadsUpdateAvatar (k : Key) (p : string)
  | ThreadsInsert (n yid t : string)
  | ThreadsDelete (k : Key)
  | StorageUpload (path : string).

(** What the caller gets to see: an error object; no data ([.single()] that
    did not find exactly one row, or a write that returns nothing); a row
    with its key; or some other body. *)
Inductive Reply :=
  | Err
  | Null
  | Row (k : Key)
  | Body.

(** The trace of a run: the [Processing] line [createThread] prints for
    each member, and every remote call with its reply. *)
Inductive Event :=
  | Processing (n yid : string)
  | Ev (c : Call) (r : Reply).

(** The calls that insert, update, delete or upload. *)
Definition is_write (c : Call) : bool :=
  match c with
  | TagsInsert _ | ThreadTagsInsert _ | ThreadTagsDelete _
  | ThreadsUpdateName _ _ | ThreadsUpdateTitle _ _ | ThreadsUpdateAvatar _ _
  | ThreadsInsert _ _ _ | ThreadsDelete _ | StorageUpload _ => true
  | _ => false
  end.

Definition mutation (e : Event) : bool :=
  match e with
  | Ev c _ => is_write c
  | Processing _ _ => false
  end.

(** The network decides, call by call, whether the call goes through.  A
    concurrent client may also create a tag right before a call is served.
    When the schedule is used up every call goes through. *)
Inductive Net :=
  | Respond
  | Unreachable
  | RaceTag (n : string).

(** What a run threads along: the remote database, what the network will
    do to the coming calls, the trace so far and the clock ([Date.now()]). *)
Record World := mkWorld {
  db : Db;
  net : list Net;
  trace : list Event;
  clock : nat;
}.

Definition M (A : Type) : Type := World → A * World.

Definition ret {A} (a : A) : M A := λ w, (a, w).

Definition bind {A B} (m : M A) (k : A → M B) : M B :=
  λ w, let '(a, w1) := m w in k a w1.

Notation "'let*' x ':=' m 'in' k" := (bind m (λ x, k))
  (at level 10, x name, m at level 100, k at level 200).
Notation "m ';;;' k" := (bind m (λ _, k))
  (at level 100, k at level 200, right associativity).

Definition emit (e : Event) : M unit :=
  λ w, (tt, mkWorld (db w) (net w) (trace w ++ [e]) (clock w)).

Definition now : M nat := λ w, (clock w, w).

Definition sleep (ms : nat) : M unit :=
  λ w, (tt, mkWorld (db w) (net w) (trace w) (clock w + ms)).

(** ** The store's side of each call *)

(** [.single()]: the row when exactly one row matches, no data otherwise. *)
Definition single {A} (l : list A) : option A :=
  match l with
  | [x] => Some x
  | _ => None
  end.

(** The rows matched by [.eq("youtube_id", yid)], [.eq("name", n)] and
    [.eq("thread_id", k)]. *)
Definition threads_with (yid : string) (d : Db) : list (Key * Thread) :=
  filter (λ kr, youtube_id kr.2 = yid) (map_to_list (threads d)).

Definition tags_named (n : string) (d : Db) : list (Key * string) :=
  filter (λ kn, kn.2 = n) (map_to_list (tags d)).

Definition tags_of (k : Key) (d : Db) : list (Key * Key) :=
  filter (λ tt, tt.1 = k) (thread_tags d).

(** Another client creates the tag [n] unless it exists. *)
Definition race_tag (n : string) (d : Db) : Db :=
  match tags_named n d with
  | [] => mkDb (threads d) (<[next_key d := n]> (tags d)) (thread_tags d)
               (bucket d) (S (next_key d))
  | _ => d
  end.

(** How each kind of result shows in the trace. *)
Definition key_reply (o : option Key) : Reply :=
  match o with
  | Some k => Row k
  | None => Null
  end.

Definition inserted_reply (o : option Key) : Reply :=
  match o with
  | Some k => Row k
  | None => Err
  end.

Definition write_reply (ok : bool) : Reply := if ok then Null else Err.

Definition some_reply {A} (o : option A) : Reply :=
  match o with
  | Some _ => Body
  | None => Null
  end.

(** One remote call: the network is consulted, the store (or API) answers,
    and the call is logged with what the caller saw. *)
Definition serve {A} (c : Call) (down : A) (seen : A → Reply)
    (run : Db → A * Db) : M A := λ w,
  match net w with
  | Unreachable :: rest =>
      (down, mkWorld (db w) rest (trace w ++ [Ev c Err]) (clock w))
  | RaceTag n :: rest =>
      let '(a, d) := run (race_tag n (db w)) in
      (a, mkWorld d rest (trace w ++ [Ev c (seen a)]) (clock w))
  | Respond :: rest =>
      let '(a, d) := run (db w) in
      (a, mkWorld d rest (trace w ++ [Ev c (seen a)]) (clock w))
  | [] =>
      let '(a, d) := run (db w) in
      (a, mkWorld d [] (trace w ++ [Ev c (seen a)]) (clock w))
  end.

(** A call that leaves the database as it is. *)
Definition read {A} (f : Db → A) : Db → A * Db := λ d, (f d, d).

Section Engine.

Variable out : Outside.

(** [supabase.from("tags").select("id").eq("name", n).single()] *)
Definition tags_select_by_name (n : string) : M (option Key) :=
  serve (TagsSelectByName n) None key_reply
    (read (λ d, fst <$> single (tags_named n d))).

(** [supabase.from("tags").insert({ name }).select("id").single()] *)
Definition tags_insert (n : string) : M (option Key) :=
  serve (TagsInsert n) None inserted_reply
    (λ d,
      if tags_name_unique (schema out) && bool_decide (tags_named n d ≠ [])
      then (None, d)
      else (Some (next_key d),
            mkDb (threads d) (<[next_key d := n]> (tags d)) (thread_tags d)
                 (bucket d) (S (next_key d)))).

(** [supabase.from("thread_tags").insert(rows)]; the reply is the absence
    of an error. *)
Definition thread_tags_insert (rows : list (Key * Key)) : M bool :=
  serve (ThreadTagsInsert rows) false write_reply
    (λ d,
      if thread_tags_unique (schema out)
         && negb (bool_decide (NoDup (thread_tags d ++ rows)))
      then (false, d)
      else (true, mkDb (threads d) (tags d) (thread_tags d ++ rows)
                       (bucket d) (next_key d))).

(** [supabase.from("thread_tags").select("tag_id, tags(name)").eq("thread_id", k)];
    the joined [tags] object is null when the tag row is gone. *)
Definition thread_tags_select (k : Key) : M (option (list (option string))) :=
  serve (ThreadTagsSelect k) None some_reply
    (read (λ d, Some ((λ tt, tags d !! tt.2) <$> tags_of k d))).

(** [supabase.from("thread_tags").delete().eq("thread_id", k)] *)
Definition thread_tags_delete (k : Key) : M bool :=
  serve (ThreadTagsDelete k) false write_reply
    (λ d, (true, mkDb (threads d) (tags d)
                      (filter (λ tt, tt.1 ≠ k) (thread_tags d))
                      (bucket d) (next_key d))).

(** [supabase.from("threads").select("id, youtube_id").eq("youtube_id", yid).single()] *)
Definition threads_select_by_youtube_id (yid : string) : M (option Key) :=
  serve (ThreadsSelectByYoutubeId yid) None key_reply
    (read (λ d, fst <$> single (threads_with yid d))).

(** [supabase.from("threads").select("name, youtube_title").eq("id", k).single()] *)
Definition threads_select_by_id (k : Key) : M (option (string * string)) :=
  serve (ThreadsSelectById k) None some_reply
    (read (λ d, (λ r, (name r, youtube_title r)) <$> threads d !! k)).

(** [.update(...).eq("id", k)]: no error when no row matches. *)
Definition threads_update (c : Call) (k : Key) (f : Thread → Thread) : M bool :=
  serve c false write_reply
    (λ d, (true, mkDb (alter f k (threads d)) (tags d) (thread_tags d)
                      (bucket d) (next_key d))).

(** [supabase.from("threads").update({ name }).eq("id", k)] *)
Definition threads_update_name (k : Key) (n : string) : M bool :=
  threads_update (ThreadsUpdateName k n) k
    (λ r, mkThread n (youtube_id r) (youtube_title r) (avatar_path r)).

(** [supabase.from("threads").update({ youtube_title }).eq("id", k)] *)
Definition threads_update_title (k : Key) (t : string) : M bool :=
  threads_update (ThreadsUpdateTitle k t) k
    (λ r, mkThread (name r) (youtube_id r) t (avatar_path r)).

(** [supabase.from("threads").update({ avatar_path }).eq("id", k)] *)
Definition threads_update_avatar (k : Key) (p : string) : M bool :=
  threads_update (ThreadsUpdateAvatar k p) k
    (λ r, mkThread (name r) (youtube_id r) (youtube_title r) p).

(** [supabase.from("threads").insert({...}).select("id").single()] *)
Definition threads_insert (n yid t : string) : M (option Key) :=
  serve (ThreadsInsert n yid t) None inserted_reply
    (λ d,
      if threads_youtube_id_unique (schema out)
         && bool_decide (threads_with yid d ≠ [])
      then (None, d)
      else (Some (next_key d),
            mkDb (<[next_key d := mkThread n yid t ""]> (threads d)) (tags d)
                 (thread_tags d) (bucket d) (S (next_key d)))).

(** [supabase.from("threads").delete().eq("id", k)] *)
Definition threads_delete (k : Key) : M bool :=
  serve (ThreadsDelete k) false write_reply
    (λ d, (true, mkDb (delete k (threads d)) (tags d) (thread_tags d)
                      (bucket d) (next_key d))).

(** [supabase.storage.from("threads").upload(path, blob, { upsert: false })] *)
Definition storage_upload (path blob : string) : M bool :=
  serve (StorageUpload path) false write_reply
    (λ d,
      match bucket d !! path with
      | Some _ => (false, d)
      | None => (true, mkDb (threads d) (tags d) (thread_tags d)
                            (<[path := blob]> (bucket d)) (next_key d))
      end).

(** [fetch] of the channels endpoint: [None] when the request throws or the
    response is not ok, otherwise the [items] of the body. *)
Definition yt_fetch (c : Call) (hit : Channel → Prop)
    `{∀ ch, Decision (hit ch)} : M (option (list Channel)) :=
  serve c None some_reply (read (λ _, Some (filter hit (youtube out)))).

(** [fetch(url)] of an image: [None] on an exception or a non-ok status. *)
Definition http_get (url : string) : M (option string) :=
  serve (HttpGet url) None some_reply (read (λ _, cdn out !! url)).

(** ** The script *)

(** JavaScript's [a || b] on optional strings: the empty string is falsy. *)
Definition truthy (o : option string) : option string :=
  match o with
  | Some "" => None
  | _ => o
  end.

Definition or_else (a b : option string) : option string :=
  match truthy a with
  | Some u => Some u
  | None => b
  end.

Definition pick_channel (items : option (list Channel)) : option ChannelInfo :=
  match items with
  | None => None
  | Some l =>
      match head l with
      | None => None
      | Some channel =>
          match truthy (or_else (ch_high channel)
                          (or_else (ch_medium channel) (ch_default channel))) with
          | None => None
          | Some url => Some (mkChannelInfo (ch_id channel) (ch_title channel) url)
          end
      end
  end.

Definition getChannelInfo (youtubeId : string) : M (option ChannelInfo) :=
  if String.prefix "UC" youtubeId then
    let* data := yt_fetch (YtChannelsById youtubeId)
                   (λ ch, ch_id ch = youtubeId) in
    ret (pick_channel data)
  else if String.prefix "@" youtubeId then
    let handle := String.substring 1 (String.length youtubeId - 1) youtubeId in
    let* data := yt_fetch (YtChannelsForHandle handle)
                   (λ ch, ch_handle ch = handle) in
    ret (pick_channel data)
  else ret None.

Definition downloadImage (url : string) : M (option string) := http_get url.

Definition getOrCreateTag (tagName : string) : M (option Key) :=
  let* existingTag := tags_select_by_name tagName in
  match existingTag with
  | Some id => ret (Some id)
  | None => tags_insert tagName
  end.

(** The [for] loop of [associateTagsWithThread]: [None] is the early
    [return false]. *)
Fixpoint collectTagIds (tagNames : list string) (tagIds : list Key)
    : M (option (list Key)) :=
  match tagNames with
  | [] => ret (Some tagIds)
  | tagName :: rest =>
      let* tagId := getOrCreateTag tagName in
      match tagId with
      | None => ret None
      | Some id => collectTagIds rest (tagIds ++ [id])
      end
  end.

Definition associateTagsWithThread (threadId : Key) (tagNames : list string)
    : M bool :=
  match tagNames with
  | [] => ret true
  | _ =>
      let* tagIds := collectTagIds tagNames [] in
      match tagIds with
      | None => ret false
      | Some ids => thread_tags_insert ((λ tagId, (threadId, tagId)) <$> ids)
      end
  end.

Definition nonempty (s : string) : bool :=
  match s with
  | "" => false
  | _ => true
  end.

(** The tag names a record asks for: job, group, then the member's options. *)
Definition expectedTagNames (member : Member) (meta : Metadata) : list string :=
  (if nonempty (job meta) then [job meta] else [])
  ++ (if nonempty (group meta) then [group meta] else [])
  ++ default [] (m_options member).

(** [currentThreadTags?.map(tt => tt.tags?.name).filter(Boolean) || []] *)
Definition currentTagNames (data : option (list (option string))) : list string :=
  match data with
  | None => []
  | Some rows => omap truthy rows
  end.

Definition includes (l : list string) (x : string) : bool :=
  bool_decide (x ∈ l).

Definition tagsMatch (expected current : list string) : bool :=
  bool_decide (length expected = length current)
  && forallb (includes current) expected.

Definition avatarPath (id : Key) (timestamp : nat) : string :=
  pretty id +:+ "/avatar/" +:+ pretty timestamp +:+ ".jpg".

(** The branch of [createThread] taken when the probe found a thread. *)
Definition syncExisting (member : Member) (meta : Metadata)
    (channelInfo : ChannelInfo) (id : Key) : M bool :=
  let* currentThread := threads_select_by_id id in
  match currentThread with
  | None => ret false
  | Some (cur_name, cur_title) =>
      let* ok1 :=
        if bool_decide (cur_name ≠ m_name member)
        then threads_update_name id (m_name member)
        else ret true in
      if negb ok1 then ret false else
      let* ok2 :=
        if bool_decide (cur_title ≠ title channelInfo)
        then threads_update_title id (title channelInfo)
        else ret true in
      if negb ok2 then ret false else
      let expected := expectedTagNames member meta in
      let* currentThreadTags := thread_tags_select id in
      let current := currentTagNames currentThreadTags in
      if tagsMatch expected current then ret true else
      let* deleted := thread_tags_delete id in
      if negb deleted then ret false else
      match expected with
      | [] => ret true
      | _ => associateTagsWithThread id expected
      end
  end.

(** The rest of [createThread], taken when the probe returned no data. *)
Definition createNew (member : Member) (meta : Metadata)
    (channelInfo : ChannelInfo) : M bool :=
  let* imageBlob := downloadImage (thumbnailUrl channelInfo) in
  match imageBlob with
  | None => ret false
  | Some blob =>
      let* thread := threads_insert (m_name member) (channelId channelInfo)
                       (title channelInfo) in
      match thread with
      | None => ret false
      | Some id =>
          let* timestamp := now in
          let path := avatarPath id timestamp in
          let* uploaded := storage_upload path blob in
          if negb uploaded then
            threads_delete id ;;; ret false
          else
          let* updated := threads_update_avatar id path in
          if negb updated then ret false else
          let tagNames := expectedTagNames member meta in
          match tagNames with
          | [] => ret true
          | _ => associateTagsWithThread id tagNames
          end
      end
  end.

Definition createThread (member : Member) (meta : Metadata) : M bool :=
  emit (Processing (m_name member) (m_youtube_id member)) ;;;
  if negb (nonempty (m_youtube_id member)) then ret true else
  let* channelInfo := getChannelInfo (m_youtube_id member) in
  match channelInfo with
  | None => ret false
  | Some info =>
      let* existingThread := threads_select_by_youtube_id (channelId info) in
      match existingThread with
      | Some id => syncExisting member meta info id
      | None => createNew member meta info
      end
  end.

Record GroupProcessResult := mkResult {
  jobName : string;
  groupName : string;
  success : nat;
  skipped : nat;
  failed : nat;
  total : nat;
}.

Definition EXCLUDED_FILES : list string :=
  ["schema.json"; "members.template.json"; "jobs.json"; "master.json"].

(** [Array.prototype.sort] without a comparator, on names. *)
Fixpoint insert_sorted (x : string) (l : list string) : list string :=
  match l with
  | [] => [x]
  | y :: l' => if String.leb x y then x :: l else y :: insert_sorted x l'
  end.

Definition sort_names (l : list string) : list string :=
  foldr insert_sorted [] l.

(** [stat.isDirectory() && !basename.startsWith(".")]; a path that cannot
    be stat'ed is no directory. *)
Definition isValidDirectory (basename : string) (isDirectory : bool) : bool :=
  isDirectory && negb (String.prefix "." basename).

Definition is_job_dir (e : JobEntry) : bool :=
  match e with
  | JDir _ => true
  | JFile => false
  end.

Definition is_group_dir (e : GroupEntry) : bool :=
  match e with
  | GDir _ => true
  | GFile => false
  end.

Definition has_members_json (e : GroupEntry) : bool :=
  match e with
  | GDir (Some _) => true
  | _ => false
  end.

Definition getJobDirectories : list string :=
  sort_names
    (omap (λ e : string * JobEntry,
             if bool_decide (e.1 ∈ EXCLUDED_FILES) then None
             else if isValidDirectory e.1 (is_job_dir e.2) then Some e.1
             else None)
          (data_dir out)).

Definition assoc {A} (k : string) (l : list (string * A)) : option A :=
  (λ ie, ie.2.2) <$> list_find (λ e, e.1 = k) l.

Definition getGroupDirectories (jobName : string) : list string :=
  match assoc jobName (data_dir out) with
  | Some (JDir entries) =>
      sort_names
        (omap (λ e : string * GroupEntry,
                 if bool_decide (e.1 = "groups.json") then None
                 else if isValidDirectory e.1 (is_group_dir e.2)
                 then (if has_members_json e.2 then Some e.1 else None)
                 else None)
              entries)
  | _ => []
  end.

Definition readMembersJson (jobName groupName : string) : option MembersJson :=
  match assoc jobName (data_dir out) with
  | Some (JDir entries) =>
      match assoc groupName entries with
      | Some (GDir (Some (Some membersJson))) => Some membersJson
      | _ => None
      end
  | _ => None
  end.

Definition bump_success (r : GroupProcessResult) : GroupProcessResult :=
  mkResult (jobName r) (groupName r) (S (success r)) (skipped r) (failed r) (total r).

Definition bump_skipped (r : GroupProcessResult) : GroupProcessResult :=
  mkResult (jobName r) (groupName r) (success r) (S (skipped r)) (failed r) (total r).

Definition bump_failed (r : GroupProcessResult) : GroupProcessResult :=
  mkResult (jobName r) (groupName r) (success r) (skipped r) (S (failed r)) (total r).

(** One turn of the [for] loop of [processGroup]. *)
Definition processMember (meta : Metadata) (entry : option Member)
    (result : GroupProcessResult) : M GroupProcessResult :=
  match entry with
  | None => ret result
  | Some member =>
      let* ok := createThread member meta in
      let* result' :=
        if ok then
          if negb (nonempty (m_youtube_id member)) then ret (bump_skipped result)
          else
            let* existingThread :=
              threads_select_by_youtube_id (m_youtube_id member) in
            match existingThread with
            | Some _ => ret (bump_skipped result)
            | None => ret (bump_success result)
            end
        else ret (bump_failed result) in
      sleep 100 ;;; ret result'
  end.

Fixpoint processMembers (meta : Metadata) (l : list (option Member))
    (result : GroupProcessResult) : M GroupProcessResult :=
  match l with
  | [] => ret result
  | entry :: rest =>
      let* result' := processMember meta entry result in
      processMembers meta rest result'
  end.

Definition processGroup (jobName groupName : string) : M GroupProcessResult :=
  let result := mkResult jobName groupName 0 0 0 0 in
  match readMembersJson jobName groupName with
  | None => ret result
  | Some membersJson =>
      processMembers (metadata membersJson) (members membersJson)
        (mkResult jobName groupName 0 0 0 (length (members membersJson)))
  end.

Fixpoint processGroups (jobName : string) (groupNames : list string)
    (allResults : list GroupProcessResult) : M (list GroupProcessResult) :=
  match groupNames with
  | [] => ret allResults
  | groupName :: rest =>
      let* result := processGroup jobName groupName in
      processGroups jobName rest (allResults ++ [result])
  end.

Fixpoint processJobs (jobNames : list string)
    (allResults : list GroupProcessResult) : M (list GroupProcessResult) :=
  match jobNames with
  | [] => ret allResults
  | jobName :: rest =>
      let* allResults' :=
        processGroups jobName (getGroupDirectories jobName) allResults in
      processJobs rest allResults'
  end.

Record Totals := mkTotals {
  totalSuccess : nat;
  totalSkipped : nat;
  totalFailed : nat;
  totalMembers : nat;
}.

Definition sum_of (f : GroupProcessResult → nat) (l : list GroupProcessResult) : nat :=
  foldl (λ sum r, sum + f r) 0 l.

Definition overall (allResults : list GroupProcessResult) : Totals :=
  mkTotals (sum_of success allResults) (sum_of skipped allResults)
           (sum_of failed allResults) (sum_of total allResults).

(** [main] with the exit code of the process: [process.exit(1)] when some
    member failed, a plain return (code 0) otherwise.  The totals are the
    ones printed in the overall summary, absent when there was no job. *)
Definition main : M (nat * option Totals) :=
  match getJobDirectories with
  | [] => ret (0, None)
  | jobNames =>
      let* allResults := processJobs jobNames [] in
      let t := overall allResults in
      if bool_decide (0 < totalFailed t) then ret (1, Some t)
      else ret (0, Some t)
  end.

End Engine.

(** * The single-file revision

    The earlier revision of [scripts/bulk-create-threads.ts] takes the path
    of one [members.json] on the command line.  Its helpers and the two
    branches of its [createThread] are, line for line, those of the batch
    revision (the metadata field is called [groups] there); what differs is
    the missing test for an empty [youtube_id] and [main]. *)

Module SingleFile.

(** What [fs.existsSync], [fs.readFileSync] and [JSON.parse] make of the
    path given on the command line. *)
Inductive File :=
  | Missing
  | Unparsable
  | Parsed (data : MembersJson).

Record Counts := mkCounts {
  successCount : nat;
  skipCount : nat;
  failCount : nat;
}.

Section Script.

Variable out : Outside.

Definition createThread (member : Member) (meta : Metadata) : M bool :=
  emit (Processing (m_name member) (m_youtube_id member)) ;;;
  let* channelInfo := getChannelInfo out (m_youtube_id member) in
  match channelInfo with
  | None => ret false
  | Some info =>
      let* existingThread := threads_select_by_youtube_id (channelId info) in
      match existingThread with
      | Some id => syncExisting out member meta info id
      | None => createNew out member meta info
      end
  end.

(** The [for] loop of [main].  Reading [member.name] of a null entry
    throws; the rejection reaches [main().catch], hence [None]. *)
Fixpoint processMembers (meta : Metadata) (l : list (option Member))
    (counts : Counts) : M (option Counts) :=
  match l with
  | [] => ret (Some counts)
  | None :: _ => ret None
  | Some member :: rest =>
      let* result := createThread member meta in
      let* counts' :=
        if result then
          let* existingThread :=
            threads_select_by_youtube_id (m_youtube_id member) in
          match existingThread with
          | Some _ => ret (mkCounts (successCount counts) (S (skipCount counts))
                             (failCount counts))
          | None => ret (mkCounts (S (successCount counts)) (skipCount counts)
                           (failCount counts))
          end
        else ret (mkCounts (successCount counts) (skipCount counts)
                    (S (failCount counts))) in
      sleep 100 ;;; processMembers meta rest counts'
  end.

(** [main] with the exit code of the process and the counters of the
    summary, when it gets that far. *)
Definition main (args : list string) (files : string → File)
    : M (nat * option Counts) :=
  match args with
  | [] => ret (1, None)
  | dataFilePath :: _ =>
      match files dataFilePath with
      | Missing => ret (1, None)
      | Unparsable => ret (1, None)
      | Parsed data =>
          let* counts := processMembers (metadata data) (members data)
                           (mkCounts 0 0 0) in
          match counts with
          | None => ret (1, None)
          | Some c =>
              if bool_decide (0 < failCount c) then ret (1, Some c)
              else ret (0, Some c)
          end
      end
  end.

End Script.

End SingleFile.

(** * The generator of [master.json]

    The script flattens every [members.json] of the catalog into one list.
    Its directory walk ([isValidDirectory], [getJobDirectories],
    [getGroupDirectories], [readMembersJson]) is the text of the
    synchronisation script, so the definitions above serve both. *)

Module Master.

Record MasterMember := mkMasterMember {
  mm_job : string;
  mm_group : string;
  mm_name : string;
  mm_youtube_id : string;
  mm_options : option (list string);
}.

Record MasterJson := mkMasterJson {
  mj_members : list MasterMember;
}.

(** One turn of the loop of [convertToMasterMembers]: the [options] key is
    set only for a non-empty array. *)
Definition masterMember (meta : Metadata) (member : Member) : MasterMember :=
  mkMasterMember (job meta) (group meta) (m_name member) (m_youtube_id member)
    (match m_options member with
     | Some (o :: os) => Some (o :: os)
     | _ => None
     end).

(** Reading [member.name] of a null entry throws: [None]. *)
Definition convertToMasterMembers (membersJson : MembersJson)
    : option (list MasterMember) :=
  mapM (fmap (masterMember (metadata membersJson))) (members membersJson).

(** What the summary prints besides the number of members. *)
Record Summary := mkSummary {
  processedGroups : nat;
  totalGroups : nat;
}.

Section Generator.

Variable out : Outside.

(** The inner loop of [main] over the groups of one job. *)
Fixpoint collectGroups (jobName : string) (groupNames : list string)
    (allMembers : list MasterMember) (processed : nat)
    : option (list MasterMember * nat) :=
  match groupNames with
  | [] => Some (allMembers, processed)
  | groupName :: rest =>
      match readMembersJson out jobName groupName with
      | None => collectGroups jobName rest allMembers processed
      | Some membersJson =>
          masterMembers ← convertToMasterMembers membersJson;
          collectGroups jobName rest (allMembers ++ masterMembers) (S processed)
      end
  end.

(** The outer loop over the jobs. *)
Fixpoint collectJobs (jobNames : list string)
    (allMembers : list MasterMember) (s : Summary)
    : option (list MasterMember * Summary) :=
  match jobNames with
  | [] => Some (allMembers, s)
  | jobName :: rest =>
      let groupNames := getGroupDirectories out jobName in
      '(allMembers', processed) ←
        collectGroups jobName groupNames allMembers (processedGroups s);
      collectJobs rest allMembers'
        (mkSummary processed (totalGroups s + length groupNames))
  end.

(** [main]: the content written to [data/master.json] and the summary (none
    when there is no job directory); [None] when the script dies of the
    exception before it writes anything. *)
Definition main : option (MasterJson * option Summary) :=
  match getJobDirectories out with
  | [] => Some (mkMasterJson [], None)
  | jobNames =>
      '(allMembers, s) ← collectJobs jobNames [] (mkSummary 0 0);
      Some (mkMasterJson allMembers, Some s)
  end.

End Generator.

End Master.

(** * The generator of [jobs.json] and [groups.json]

    [scripts/update-metadata.ts] walks [data/] like the other scripts (its
    [EXCLUDED_FILES] is shorter), writes [data/jobs.json] and, for each job
    with a group, [data/<job>/groups.json].  It reads what it wrote in
    earlier runs, so the directory is a state here; file names within one
    directory are unique, so directories are finite maps. *)

Module UpdateMetadata.

Record GroupMetadata := mkGroupMetadata {
  g_name : string;
  g_source : option string;
}.

Record GroupsJson := mkGroupsJson {
  groups : list GroupMetadata;
}.

(** [JobMetadata] has the single field [name]. *)
Record JobsJson := mkJobsJson {
  jobs : list string;
}.

(** The fields of [members.json] this script reads: [metadata.group] and
    [metadata.source]. *)
Record MembersJson := mkMembersJson {
  md_group : string;
  md_source : option string;
}.

(** An entry of a job directory: a file with what parsing it as a
    [GroupsJson] gives ([None] when [JSON.parse] throws), or a directory,
    with its [members.json] as in the synchronisation script. *)
Inductive GroupEntry :=
  | GFile (parsed : option GroupsJson)
  | GDir (members_json : option (option MembersJson)).

Inductive JobEntry :=
  | JFile (parsed : option JobsJson)
  | JDir (entries : gmap string GroupEntry).

Abbreviation DataDir := (gmap string JobEntry).

Definition EXCLUDED_FILES : list string :=
  ["schema.json"; "members.template.json"; "jobs.json"].

Definition is_job_dir (e : JobEntry) : bool :=
  match e with
  | JDir _ => true
  | JFile _ => false
  end.

Definition is_group_dir (e : GroupEntry) : bool :=
  match e with
  | GDir _ => true
  | GFile _ => false
  end.

Definition has_members_json (e : GroupEntry) : bool :=
  match e with
  | GDir (Some _) => true
  | _ => false
  end.

Definition getJobDirectories (data : DataDir) : list string :=
  sort_names
    (omap (λ e : string * JobEntry,
             if bool_decide (e.1 ∈ EXCLUDED_FILES) then None
             else if isValidDirectory e.1 (is_job_dir e.2) then Some e.1
             else None)
          (map_to_list data)).

Definition getGroupDirectories (data : DataDir) (jobName : string)
    : list string :=
  match data !! jobName with
  | Some (JDir entries) =>
      sort_names
        (omap (λ e : string * GroupEntry,
                 if bool_decide (e.1 = "groups.json") then None
                 else if isValidDirectory e.1 (is_group_dir e.2)
                 then (if has_members_json e.2 then Some e.1 else None)
                 else None)
              (map_to_list entries))
  | _ => []
  end.

Definition readMembersJson (data : DataDir) (jobName groupName : string)
    : option MembersJson :=
  match data !! jobName with
  | Some (JDir entries) =>
      match entries !! groupName with
      | Some (GDir (Some (Some membersJson))) => Some membersJson
      | _ => None
      end
  | _ => None
  end.

Definition generateJobsJson (jobNames : list string) : JobsJson :=
  mkJobsJson jobNames.

(** [null] when the file does not exist or cannot be read and parsed (a
    directory of that name cannot be read). *)
Definition readExistingGroupsJson (data : DataDir) (jobName : string)
    : option GroupsJson :=
  match data !! jobName with
  | Some (JDir entries) =>
      match entries !! "groups.json" with
      | Some (GFile parsed) => parsed
      | _ => None
      end
  | _ => None
  end.

(** [new Map()] filled by [set(group.name, group)] in order. *)
Definition existingGroupsMap (existingGroupsJson : option GroupsJson)
    : gmap string GroupMetadata :=
  match existingGroupsJson with
  | Some existing => foldl (λ m group, <[g_name group := group]> m) ∅
                       (groups existing)
  | None => ∅
  end.

(** One turn of the loop over [groupNames]: the entry pushed and the name
    added to [processedGroupNames]. *)
Definition groupEntry (data : DataDir) (jobName : string)
    (existing : gmap string GroupMetadata) (groupName : string)
    : GroupMetadata :=
  match readMembersJson data jobName groupName with
  | None => mkGroupMetadata groupName None
  | Some membersJson =>
      let groupDisplayName :=
        if nonempty (md_group membersJson) then md_group membersJson
        else groupName in
      let existingGroup := existing !! groupDisplayName in
      mkGroupMetadata groupDisplayName
        (or_else (md_source membersJson)
           (or_else (existingGroup ≫= g_source) None))
  end.

Definition generateGroupsJson (data : DataDir) (jobName : string)
    (groupNames : list string) : GroupsJson :=
  let existingGroupsJson := readExistingGroupsJson data jobName in
  let existing := existingGroupsMap existingGroupsJson in
  let '(groups, processedGroupNames) :=
    foldl (λ (acc : list GroupMetadata * gset string) groupName,
             let entry := groupEntry data jobName existing groupName in
             (acc.1 ++ [entry], {[ g_name entry ]} ∪ acc.2))
          ([], ∅) groupNames in
  mkGroupsJson
    (groups
     ++ match existingGroupsJson with
        | Some existingJson =>
            filter (λ existingGroup, g_name existingGroup ∉ processedGroupNames)
                   (UpdateMetadata.groups existingJson)
        | None => []
        end).

(** [writeJsonFile] on [data/jobs.json] and on [data/<job>/groups.json]:
    the file then parses to what was written.  Writing to a path that is a
    directory throws, and nothing catches it: [None]. *)
Definition writeJobsJson (data : DataDir) (content : JobsJson)
    : option DataDir :=
  match data !! "jobs.json" with
  | Some (JDir _) => None
  | _ => Some (<["jobs.json" := JFile (Some content)]> data)
  end.

Definition writeGroupsJson (data : DataDir) (jobName : string)
    (content : GroupsJson) : option DataDir :=
  match data !! jobName with
  | Some (JDir entries) =>
      match entries !! "groups.json" with
      | Some (GDir _) => None
      | _ => Some (<[jobName :=
                       JDir (<["groups.json" := GFile (Some content)]> entries)]>
                     data)
      end
  | _ => None
  end.

(** The loop of [main] over the jobs. *)
Fixpoint writeAllGroups (jobNames : list string) (data : DataDir)
    : option DataDir :=
  match jobNames with
  | [] => Some data
  | jobName :: rest =>
      match getGroupDirectories data jobName with
      | [] => writeAllGroups rest data
      | groupNames =>
          data' ← writeGroupsJson data jobName
                    (generateGroupsJson data jobName groupNames);
          writeAllGroups rest data'
      end
  end.

(** [main]: the directory it leaves behind. *)
Definition main (data : DataDir) : option DataDir :=
  match getJobDirectories data with
  | [] => Some data
  | jobNames =>
      data' ← writeJobsJson data (generateJobsJson jobNames);
      writeAllGroups jobNames data'
  end.

End UpdateMetadata.

(** * The vocabulary of the properties *)

(** Every event a computation appends to the trace satisfies [P]. *)
Definition emits {A} (P : Event → Prop) (m : M A) : Prop :=
  ∀ w a w', m w = (a, w') → ∃ evs, trace w' = trace w ++ evs ∧ Forall P evs.

(** The events logged between two worlds of one run. *)
Definition new_events (w w' : World) : list Event :=
  drop (length (trace w)) (trace w').

(** A class of events is given by the calls it admits; [Processing] lines
    are handled where they are printed. *)
Definition calls (Q : Call → Prop) (e : Event) : Prop :=
  match e with
  | Ev c _ => Q c
  | Processing _ _ => False
  end.

(** An entry of a [members] array that is not a hole. *)
Definition defined (entry : option Member) : bool :=
  match entry with
  | Some _ => true
  | None => false
  end.


(** The members a group result accounts for. *)
Definition counted (r : GroupProcessResult) : nat :=
  success r + skipped r + failed r.

(** The [Processing] lines among some events, in order. *)
Definition started (evs : list Event) : list (string * string) :=
  omap (λ e, match e with
             | Processing n yid => Some (n, yid)
             | Ev _ _ => None
             end) evs.

(** The [Processing] lines a list of entries calls for: one per member,
    none for a hole. *)
Definition announced (l : list (option Member)) : list (string * string) :=
  (λ m, (m_name m, m_youtube_id m)) <$> omap id l.

(** The members [main] visits, in the order it visits them. *)
Definition catalog_members (out : Outside) : list (option Member) :=
  j ← getJobDirectories out;
  g ← getGroupDirectories out j;
  match readMembersJson out j g with
  | Some membersJson => members membersJson
  | None => []
  end.

(** The calls whose error (or missing data) [createThread] tests: every
    write, the API fetch, the image download and the read of a thread by
    key. *)
Definition checked (c : Call) : bool :=
  is_write c
  || match c with
     | YtChannelsById _ | YtChannelsForHandle _ | HttpGet _
     | ThreadsSelectById _ => true
     | _ => false
     end.

(** An error reply to a checked call. *)
Definition checked_error (e : Event) : Prop :=
  match e with
  | Ev c Err => checked c = true
  | _ => False
  end.

(** A computation that yields [d] whenever it logs a checked error. *)
Definition fails_to {A} (d : A) (m : M A) : Prop :=
  ∀ w a w', m w = (a, w') →
    ∃ evs, trace w' = trace w ++ evs ∧ (Exists checked_error evs → a = d).

(** Classes of calls used to describe what a part of the script may log. *)
Definition not_upload (c : Call) : Prop :=
  match c with
  | StorageUpload _ => False
  | _ => True
  end.

(** The rows [thread_tags_select] returns for a thread: for each association
    the name of its tag, if the tag row exists. *)
Definition joined (k : Key) (d : Db) : list (option string) :=
  (λ tt, tags d !! tt.2) <$> tags_of k d.

(** The names of the tags a thread is associated with. *)
Definition tag_names (k : Key) (d : Db) : list string := omap id (joined k d).

(** What [getChannelInfo] returns when the API answers. *)
Definition resolve (out : Outside) (youtubeId : string) : option ChannelInfo :=
  if String.prefix "UC" youtubeId then
    pick_channel (Some (filter (λ ch, ch_id ch = youtubeId) (youtube out)))
  else if String.prefix "@" youtubeId then
    let handle := String.substring 1 (String.length youtubeId - 1) youtubeId in
    pick_channel (Some (filter (λ ch, ch_handle ch = handle) (youtube out)))
  else None.

(** Keys already in use lie below the next key the store hands out. *)
Definition tags_fresh (d : Db) : Prop :=
  ∀ k, is_Some (tags d !! k) → k < next_key d.

Definition links_fresh (d : Db) : Prop :=
  ∀ tt, tt ∈ thread_tags d → tt.1 < next_key d.

(** Every tag of the store has a name. *)
Definition no_blank_tag (d : Db) : Prop :=
  ∀ k, tags d !! k ≠ Some "".

(** An event that is no insert, update, delete or upload. *)
Definition is_read (e : Event) : Prop := mutation e = false.

(** Nothing is scheduled on the network: every call goes through and no
    other client interferes. *)
Definition quiet (w : World) : Prop := net w = [].

Definition on_threads (c : Call) : Prop :=
  match c with
  | ThreadsSelectById _ | ThreadsUpdateName _ _ | ThreadsUpdateTitle _ _ => True
  | _ => False
  end.

(** The store once the links of thread [k] have been deleted. *)
Definition unlinked (k : Key) (d : Db) : Db :=
  mkDb (threads d) (tags d) (filter (λ tt, tt.1 ≠ k) (thread_tags d))
       (bucket d) (next_key d).

(** A catalog entry the store already agrees with: a hole, a member
    without YouTube id, or a member whose channel resolves, with exactly one
    thread row for the canonical channel id, carrying the member's name, the
    channel's title and, in some order, the expected tag names. *)
Definition settled (out : Outside) (d : Db) (meta : Metadata)
    (entry : option Member) : Prop :=
  match entry with
  | None => True
  | Some member =>
      m_youtube_id member = ""
      ∨ ∃ info k r,
          resolve out (m_youtube_id member) = Some info
          ∧ threads_with (channelId info) d = [(k, r)]
          ∧ name r = m_name member
          ∧ youtube_title r = title info
          ∧ currentTagNames (Some (joined k d)) ≡ₚ expectedTagNames member meta
  end.

(** Every entry of every [members.json] of the catalog is settled. *)
Definition catalog_settled (out : Outside) (d : Db) : Prop :=
  Forall (λ je : string * JobEntry,
    match je.2 with
    | JDir entries =>
        Forall (λ ge : string * GroupEntry,
          match ge.2 with
          | GDir (Some (Some membersJson)) =>
              Forall (settled out d (metadata membersJson)) (members membersJson)
          | _ => True
          end) entries
    | JFile => True
    end) (data_dir out).

Definition tag_write (c : Call) : Prop :=
  match c with
  | TagsInsert _ | ThreadTagsInsert _ | ThreadTagsDelete _ => True
  | _ => False
  end.

(** No two thread rows carry the same channel id. *)
Definition unique_channel_ids (d : Db) : Prop :=
  ∀ k1 k2 r1 r2,
    threads d !! k1 = Some r1 → threads d !! k2 = Some r2 →
    youtube_id r1 = youtube_id r2 → k1 = k2.

(** No thread row carries the channel id [yid]. *)
Definition no_thread_for (yid : string) (d : Db) : Prop :=
  ∀ k r, threads d !! k = Some r → youtube_id r ≠ yid.

(** A computation that keeps a property of the database. *)
Definition preserves {A} (I : Db → Prop) (m : M A) : Prop :=
  ∀ w a w', I (db w) → m w = (a, w') → I (db w').

Definition not_insert (c : Call) : Prop :=
  match c with
  | ThreadsInsert _ _ _ => False
  | _ => True
  end.

Definition not_probe (c : Call) : Prop :=
  match c with
  | ThreadsSelectByYoutubeId _ => False
  | _ => True
  end.

(** ** Further vocabulary: listings, traces and invariants *)

(** The order [Array.prototype.sort] leaves names in. *)
Definition name_le (a b : string) : Prop := String.leb a b = true.

(** The thumbnails of a channel that are present and not empty, best first. *)
Definition thumbnails (ch : Channel) : list string :=
  filter (λ url, url ≠ "") (omap id [ch_high ch; ch_medium ch; ch_default ch]).



Definition tag_call (c : Call) : Prop :=
  match c with
  | TagsSelectByName _ | TagsInsert _ | ThreadTagsInsert _ => True
  | _ => False
  end.

(** The calls only the creation branch of [createThread] makes. *)
Definition creation_call (c : Call) : Prop :=
  match c with
  | HttpGet _ | ThreadsInsert _ _ _ | ThreadsDelete _ | StorageUpload _
  | ThreadsUpdateAvatar _ _ => True
  | _ => False
  end.

(** The row [syncExisting] leaves behind when every call is served. *)
Definition synced (member : Member) (info : ChannelInfo) (r : Thread) : Thread :=
  mkThread (m_name member) (youtube_id r) (title info) (avatar_path r).

(** A thread table that differs from [m0] at most in the name and the title
    of row [k]. *)
Definition patched (k : Key) (m0 : gmap Key Thread) (d : Db) : Prop :=
  (∀ k', k' ≠ k → threads d !! k' = m0 !! k')
  ∧ youtube_id <$> threads d !! k = youtube_id <$> m0 !! k
  ∧ avatar_path <$> threads d !! k = avatar_path <$> m0 !! k.

(** Row [id] is the one [createNew] inserted for the record. *)
Definition row_of (member : Member) (info : ChannelInfo) (id : Key) (d : Db)
    : Prop :=
  ∃ r, threads d !! id = Some r
       ∧ name r = m_name member ∧ youtube_id r = channelId info
       ∧ youtube_title r = title info.

(** A property of the database that only looks at the thread rows and the
    storage bucket. *)
Definition blind_to_tags (I : Db → Prop) : Prop :=
  ∀ d tg tt nk, I d → I (mkDb (threads d) tg tt (bucket d) nk).

(** The groups [main] visits, in the order it visits them. *)
Definition catalog_groups (out : Outside) : list (string * string) :=
  j ← getJobDirectories out; g ← getGroupDirectories out j; [(j, g)].

(** The entries of one group's [members.json]; none when it cannot be read. *)
Definition group_entries (out : Outside) (j g : string) : list (option Member) :=
  match readMembersJson out j g with
  | Some membersJson => members membersJson
  | None => []
  end.

(** No call of the schedule is lost (other clients may create tags). *)
Definition answered (w : World) : Prop := Unreachable ∉ net w.

(** A computation that keeps a property of the world. *)
Definition keeps {A} (J : World → Prop) (m : M A) : Prop :=
  ∀ w a w', J w → m w = (a, w') → J w'.

(** The invariant of a run on which no call is lost. *)
Definition one_row_per_channel (w : World) : Prop :=
  answered w ∧ unique_channel_ids (db w).

(** Nothing is scheduled on the network and the clock reads [t]. *)
Definition calm (t : nat) (w : World) : Prop := net w = [] ∧ clock w = t.

(** The tags and the stored objects of [d0] are still there, as they were. *)
Definition keeps_tags_and_objects (d0 d : Db) : Prop :=
  tags_fresh d
  ∧ (∀ k x, tags d0 !! k = Some x → tags d !! k = Some x)
  ∧ (∀ p b, bucket d0 !! p = Some b → bucket d !! p = Some b).

(** The links of every thread but [k] are those of [l0], in order. *)
Definition other_links (k : Key) (l0 : list (Key * Key)) (d : Db) : Prop :=
  filter (λ tt : Key * Key, tt.1 ≠ k) (thread_tags d)
  = filter (λ tt : Key * Key, tt.1 ≠ k) l0.

(** The counters of the batch revision as the single-file revision keeps
    them, and the number of members a counter triple accounts for. *)
Definition counts_of (r : GroupProcessResult) : SingleFile.Counts :=
  SingleFile.mkCounts (success r) (skipped r) (failed r).

Definition handled (c : SingleFile.Counts) : nat :=
  SingleFile.successCount c + SingleFile.skipCount c + SingleFile.failCount c.

(** The name and id of each entry of [master.json]. *)
Definition listed (l : list Master.MasterMember) : list (string * string) :=
  (λ mm, (Master.mm_name mm, Master.mm_youtube_id mm)) <$> l.

Section MetadataVocabulary.

Import UpdateMetadata.

(** The name under which a group directory is listed: [metadata.group] of
    its [members.json], or the directory name when that is empty or the
    file cannot be read. *)
Definition displayName (data : DataDir) (jobName groupName : string) : string :=
  match readMembersJson data jobName groupName with
  | Some membersJson =>
      if nonempty (md_group membersJson) then md_group membersJson
      else groupName
  | None => groupName
  end.

(** The [source] of the last entry called [n] of an existing [groups.json]. *)
Definition recorded_source (existing : list GroupMetadata) (n : string)
    : option string :=
  last (filter (λ e, g_name e = n) existing) ≫= g_source.

(** The entry a group directory is listed with: its [source] is the one of
    its [members.json]; failing that, the one recorded last under its name
    in the existing file; else null. *)
Definition listing (data : DataDir) (jobName : string)
    (existing : list GroupMetadata) (groupName : string) : GroupMetadata :=
  mkGroupMetadata (displayName data jobName groupName)
    (match readMembersJson data jobName groupName with
     | None => None
     | Some membersJson =>
         match truthy (md_source membersJson) with
         | Some s => Some s
         | None => truthy (recorded_source existing
                             (displayName data jobName groupName))
         end
     end).

(** The entries of the [groups.json] found in a job directory. *)
Definition existing_groups (data : DataDir) (jobName : string)
    : list GroupMetadata :=
  default [] (groups <$> readExistingGroupsJson data jobName).

(** The names of the entries a listing keeps, sorted. *)
Definition visible {A} (keep : string → A → bool) (m : gmap string A)
    : list string :=
  sort_names (omap (λ e : string * A, if keep e.1 e.2 then Some e.1 else None)
                (map_to_list m)).

Definition keep_job (n : string) (e : JobEntry) : bool :=
  negb (bool_decide (n ∈ EXCLUDED_FILES)) && isValidDirectory n (is_job_dir e).

Definition keep_group (n : string) (e : GroupEntry) : bool :=
  negb (bool_decide (n = "groups.json"))
  && isValidDirectory n (is_group_dir e) && has_members_json e.

(** The entry of job [j] once [main] is through with it: [groups.json] is
    (re)written when the job has a group directory, nothing else changes. *)
Definition written (d : DataDir) (j : string) : option JobEntry :=
  match d !! j with
  | Some (JDir entries) =>
      match getGroupDirectories d j with
      | [] => Some (JDir entries)
      | groupNames =>
          Some (JDir (<["groups.json" :=
                          GFile (Some (generateGroupsJson d j groupNames))]>
                        entries))
      end
  | e => e
  end.

(** No two group directories of a job go by the same display name. *)
Definition distinct_display_names (data : DataDir) : Prop :=
  ∀ j, j ∈ getJobDirectories data →
    NoDup (displayName data j <$> getGroupDirectories data j).

End MetadataVocabulary.

(** Closes a goal with a hypothesis that places a value in a list of values
    it differs from. *)
Ltac not_listed :=
  repeat match goal with
         | H : list_elem_of _ _ |- _ => inversion H; subst; clear H
         | H : _ ∈ _ |- _ => inversion H; subst; clear H
         end.

(** ** Concrete data for the closed examples *)

Module Demo.

Definition alpha : Channel :=
  mkChannel "UCalpha" "alpha" "Alpha Channel" (Some "https://img/alpha") None None.

Definition images : gmap string string := {[ "https://img/alpha" := "JPEG" ]}.

Definition creators : Metadata := mkMetadata "Creators" "Alpha".

Definition by_id : Member := mkMember "Alpha" "UCalpha" (Some ["2023"]).
Definition by_handle : Member := mkMember "Alpha" "@alpha" (Some ["2023"]).
Definition no_channel : Member := mkMember "Offline" "" None.
Definition unknown : Member := mkMember "Ghost" "UCghost" None.
Definition repeated : Member := mkMember "Alpha" "UCalpha" (Some ["Alpha"]).

Definition catalog (l : list (option Member)) : DataDir :=
  [("jobs.json", JFile);
   ("Creators", JDir [("groups.json", GFile);
                      ("Alpha", GDir (Some (Some (mkMembersJson creators l))))])].

Definition lax : Schema := mkSchema false false false.
Definition strict : Schema := mkSchema true true true.

Definition outside (s : Schema) (l : list (option Member)) : Outside :=
  mkOutside [alpha] images s (catalog l).

Definition empty_db : Db := mkDb ∅ ∅ [] ∅ 1.

(** One thread for the channel, tagged as [by_id] asks, links stored in
    another order. *)
Definition synced_db : Db :=
  mkDb {[ 1 := mkThread "Alpha" "UCalpha" "Alpha Channel" "1/avatar/7.jpg" ]}
       (<[2 := "Creators"]> (<[3 := "Alpha"]> {[ 4 := "2023" ]}))
       [(1, 3); (1, 2); (1, 4)]
       {[ "1/avatar/7.jpg" := "JPEG" ]} 5.

(** The same thread carrying an extra tag ["Old"] instead of ["2023"]. *)
Definition stale_db : Db :=
  mkDb {[ 1 := mkThread "Alpha" "UCalpha" "Alpha Channel" "1/avatar/7.jpg" ]}
       (<[2 := "Creators"]> (<[3 := "Alpha"]> {[ 4 := "Old" ]}))
       [(1, 2); (1, 3); (1, 4)]
       {[ "1/avatar/7.jpg" := "JPEG" ]} 5.

(** The thread tagged with ["Old"] only. *)
Definition old_db : Db :=
  mkDb {[ 1 := mkThread "Alpha" "UCalpha" "Alpha Channel" "1/avatar/7.jpg" ]}
       {[ 2 := "Old" ]} [(1, 2)] {[ "1/avatar/7.jpg" := "JPEG" ]} 3.

(** The thread tagged as [by_id] asks, plus a tag without a name. *)
Definition blank_db : Db :=
  mkDb {[ 1 := mkThread "Alpha" "UCalpha" "Alpha Channel" "1/avatar/7.jpg" ]}
       (<[2 := "Creators"]> (<[3 := "Alpha"]> (<[4 := "2023"]> {[ 5 := "" ]})))
       [(1, 2); (1, 3); (1, 4); (1, 5)]
       {[ "1/avatar/7.jpg" := "JPEG" ]} 6.

Definition world (d : Db) (n : list Net) : World := mkWorld d n [] 1000.


Definition odd : Member := mkMember "Odd" "alpha" None.

(** A record with an empty string among its options. *)
Definition blank_option : Member := mkMember "Alpha" "UCalpha" (Some [""]).

(** The thread tagged with ["Creators"] and ["Alpha"], once each. *)
Definition two_tags_db : Db :=
  mkDb {[ 1 := mkThread "Alpha" "UCalpha" "Alpha Channel" "1/avatar/7.jpg" ]}
       (<[2 := "Creators"]> {[ 3 := "Alpha" ]})
       [(1, 2); (1, 3)]
       {[ "1/avatar/7.jpg" := "JPEG" ]} 4.

(** A data directory as the metadata script sees it: a job with two group
    directories, a directory without [members.json], and a [groups.json]
    that records a source for [Alpha] and a group that has no directory. *)
Definition metadata_job (listed : UpdateMetadata.GroupsJson)
    : UpdateMetadata.JobEntry :=
  UpdateMetadata.JDir
    (<["alpha" := UpdateMetadata.GDir
                    (Some (Some (UpdateMetadata.mkMembersJson "Alpha" None)))]>
       (<["beta" := UpdateMetadata.GDir
                      (Some (Some (UpdateMetadata.mkMembersJson ""
                                     (Some "https://beta"))))]>
          (<["draft" := UpdateMetadata.GDir None]>
             {[ "groups.json" := UpdateMetadata.GFile (Some listed) ]}))).

Definition metadata_dir : UpdateMetadata.DataDir :=
  {[ "Creators" :=
       metadata_job
         (UpdateMetadata.mkGroupsJson
            [UpdateMetadata.mkGroupMetadata "Alpha" (Some "https://alpha");
             UpdateMetadata.mkGroupMetadata "Gamma" None]) ]}.

(** The [groups.json] the metadata script generates for it. *)
Definition metadata_groups : UpdateMetadata.GroupsJson :=
  UpdateMetadata.mkGroupsJson
    [UpdateMetadata.mkGroupMetadata "Alpha" (Some "https://alpha");
     UpdateMetadata.mkGroupMetadata "beta" (Some "https://beta");
     UpdateMetadata.mkGroupMetadata "Gamma" None].

End Demo.

(** * Properties *)

(** ** The monad and one remote call *)

Lemma bind_inv {A B} (m : M A) (k : A → M B) w b w' :
  bind m k w = (b, w') → ∃ a w1, m w = (a, w1) ∧ k a w1 = (b, w').
Proof. unfold bind. destruct (m w) as [a w1]. eauto. Qed.

(** What one call does, whatever the network: exactly one event is logged;
    either the call was lost and the store is untouched, or it was served on
    the store as it was (possibly after a concurrent tag creation). *)
Lemma serve_inv {A} c (down : A) seen run w a w' :
  serve c down seen run w = (a, w') →
  ∃ r, trace w' = trace w ++ [Ev c r] ∧ clock w' = clock w
       ∧ net w' = tail (net w)
       ∧ ((r = Err ∧ a = down ∧ db w' = db w)
          ∨ (∃ d0, (d0 = db w ∨ ∃ n, d0 = race_tag n (db w))
                   ∧ run d0 = (a, db w') ∧ r = seen a)).
Proof.
  unfold serve. intros E.
  destruct (net w) as [|[| |n] rest].
  - destruct (run (db w)) as [a0 d] eqn:R. simplify_eq. eexists. simpl.
    repeat split. right. exists (db w). eauto.
  - destruct (run (db w)) as [a0 d] eqn:R. simplify_eq. eexists. simpl.
    repeat split. right. exists (db w). eauto.
  - simplify_eq. eexists. simpl. repeat split. left. eauto.
  - destruct (run (race_tag n (db w))) as [a0 d] eqn:R. simplify_eq.
    eexists. simpl. repeat split. right. exists (race_tag n (db w)). eauto.
Qed.

(** With nothing scheduled on the network the call is simply served. *)
Lemma serve_quiet {A} c (down : A) seen run d tr t :
  serve c down seen run (mkWorld d [] tr t)
  = (fst (run d), mkWorld (snd (run d)) [] (tr ++ [Ev c (seen (fst (run d)))]) t).
Proof. unfold serve. simpl. by destruct (run d). Qed.

(** ** C5: the no-op test on tags *)

Lemma includes_true l x : includes l x = true ↔ x ∈ l.
Proof. unfold includes. by rewrite bool_decide_eq_true. Qed.

Lemma tagsMatch_true expected current :
  tagsMatch expected current = true
  ↔ length expected = length current ∧ ∀ x, x ∈ expected → x ∈ current.
Proof.
  unfold tagsMatch. rewrite andb_true_iff, bool_decide_eq_true.
  rewrite forallb_forall. setoid_rewrite includes_true.
  setoid_rewrite <- list_elem_of_In. done.
Qed.

Lemma tagsMatch_Permutation expected current :
  expected ≡ₚ current → tagsMatch expected current = true.
Proof.
  intros HP. apply tagsMatch_true. split.
  - by rewrite HP.
  - intros x. by rewrite HP.
Qed.

Lemma tagsMatch_NoDup expected current :
  NoDup expected → tagsMatch expected current = true → expected ≡ₚ current.
Proof.
  intros ND [HL HI]%tagsMatch_true.
  apply submseteq_length_Permutation; [|lia].
  by apply NoDup_submseteq.
Qed.

(** ** What a computation logs *)

Lemma new_events_app w w' evs :
  trace w' = trace w ++ evs → new_events w w' = evs.
Proof. unfold new_events. intros ->. by rewrite drop_app_length. Qed.

Lemma emits_ret {A} P (a : A) : emits P (ret a).
Proof.
  intros w a' w' E. unfold ret in E. simplify_eq. exists [].
  by rewrite app_nil_r.
Qed.

Lemma emits_bind {A B} P (m : M A) (k : A → M B) :
  emits P m → (∀ a, emits P (k a)) → emits P (bind m k).
Proof.
  intros Hm Hk w b w' (a & w1 & E1 & E2)%bind_inv.
  destruct (Hm _ _ _ E1) as (ev1 & T1 & F1).
  destruct (Hk a _ _ _ E2) as (ev2 & T2 & F2).
  exists (ev1 ++ ev2). rewrite T2, T1, app_assoc. split; [done|].
  by apply Forall_app.
Qed.

Lemma emits_serve {A} (P : Event → Prop) c (down : A) seen run :
  (∀ r, P (Ev c r)) → emits P (serve c down seen run).
Proof.
  intros HP w a w' (r & T & _)%serve_inv. exists [Ev c r]. split; [done|].
  by constructor.
Qed.

Lemma emits_emit (P : Event → Prop) e : P e → emits P (emit e).
Proof.
  intros HP w a w' E. unfold emit in E. simplify_eq. exists [e]. split; [done|].
  by constructor.
Qed.

Lemma emits_now P : emits P now.
Proof.
  intros w a w' E. unfold now in E. simplify_eq. exists [].
  by rewrite app_nil_r.
Qed.

Lemma emits_call {A} (Q : Call → Prop) c (down : A) seen run :
  Q c → emits (calls Q) (serve c down seen run).
Proof. intros HQ. by apply emits_serve. Qed.

Section Logged.

Variable out : Outside.
Variable Q : Call → Prop.

Lemma emits_getOrCreateTag n :
  Q (TagsSelectByName n) → Q (TagsInsert n) →
  emits (calls Q) (getOrCreateTag out n).
Proof.
  intros H1 H2. unfold getOrCreateTag, tags_select_by_name, tags_insert.
  apply emits_bind; [by apply emits_call|]. intros [k|]; [apply emits_ret|].
  by apply emits_call.
Qed.

Hypothesis tag_calls : ∀ n, Q (TagsSelectByName n) ∧ Q (TagsInsert n).
Hypothesis link_calls : ∀ rows, Q (ThreadTagsInsert rows).

Lemma emits_collectTagIds names ids :
  emits (calls Q) (collectTagIds out names ids).
Proof.
  revert ids. induction names as [|n names IH]; intros ids; simpl.
  - apply emits_ret.
  - apply emits_bind; [apply emits_getOrCreateTag; apply tag_calls|].
    intros [k|]; [apply IH|apply emits_ret].
Qed.

Lemma emits_associateTagsWithThread k names :
  emits (calls Q) (associateTagsWithThread out k names).
Proof.
  unfold associateTagsWithThread. destruct names as [|n names].
  - apply emits_ret.
  - apply emits_bind; [apply emits_collectTagIds|].
    intros [ids|]; [|apply emits_ret].
    unfold thread_tags_insert. by apply emits_call.
Qed.

Hypothesis sync_calls : ∀ k s,
  Q (ThreadsSelectById k) ∧ Q (ThreadsUpdateName k s) ∧ Q (ThreadsUpdateTitle k s)
  ∧ Q (ThreadTagsSelect k) ∧ Q (ThreadTagsDelete k).

Lemma emits_syncExisting member meta info k :
  emits (calls Q) (syncExisting out member meta info k).
Proof.
  unfold syncExisting, threads_select_by_id, threads_update_name,
    threads_update_title, threads_update, thread_tags_select, thread_tags_delete.
  apply emits_bind; [apply emits_call; apply sync_calls; exact ""|].
  intros [[cn ct]|]; [|apply emits_ret].
  apply emits_bind.
  { case_bool_decide; [apply emits_call; apply sync_calls|apply emits_ret]. }
  intros [|]; simpl; [|apply emits_ret].
  apply emits_bind.
  { case_bool_decide; [apply emits_call; apply sync_calls|apply emits_ret]. }
  intros [|]; simpl; [|apply emits_ret].
  apply emits_bind; [apply emits_call; apply sync_calls; exact ""|].
  intros data. destruct (tagsMatch _ _); [apply emits_ret|].
  apply emits_bind; [apply emits_call; apply sync_calls; exact ""|].
  intros [|]; simpl; [|apply emits_ret].
  destruct (expectedTagNames member meta) eqn:E; [apply emits_ret|].
  rewrite <- E. apply emits_associateTagsWithThread.
Qed.

Hypothesis create_calls : ∀ k s1 s2 s3,
  Q (HttpGet s1) ∧ Q (ThreadsInsert s1 s2 s3) ∧ Q (StorageUpload s1)
  ∧ Q (ThreadsDelete k) ∧ Q (ThreadsUpdateAvatar k s1).

Lemma emits_createNew member meta info :
  emits (calls Q) (createNew out member meta info).
Proof.
  unfold createNew, downloadImage, http_get, threads_insert, storage_upload,
    threads_delete, threads_update_avatar, threads_update.
  apply emits_bind; [apply emits_call; apply (create_calls 0 _ "" "")|].
  intros [blob|]; [|apply emits_ret].
  apply emits_bind; [apply emits_call; apply (create_calls 0)|].
  intros [id|]; [|apply emits_ret].
  apply emits_bind; [apply emits_now|]. intros ts.
  apply emits_bind; [apply emits_call; apply (create_calls 0 _ "" "")|].
  intros [|]; simpl.
  - apply emits_bind; [apply emits_call; apply (create_calls _ _ "" "")|].
    intros [|]; simpl; [|apply emits_ret].
    destruct (expectedTagNames member meta) eqn:E; [apply emits_ret|].
    rewrite <- E. apply emits_associateTagsWithThread.
  - apply emits_bind; [apply emits_call; apply (create_calls _ "" "" "")|].
    intros _. apply emits_ret.
Qed.

Hypothesis api_calls : ∀ s, Q (YtChannelsById s) ∧ Q (YtChannelsForHandle s).

Lemma emits_getChannelInfo yid : emits (calls Q) (getChannelInfo out yid).
Proof.
  unfold getChannelInfo, yt_fetch.
  destruct (String.prefix "UC" yid); [|destruct (String.prefix "@" yid)].
  - apply emits_bind; [apply emits_call; apply api_calls|].
    intros ?. apply emits_ret.
  - apply emits_bind; [apply emits_call; apply api_calls|].
    intros ?. apply emits_ret.
  - apply emits_ret.
Qed.

Hypothesis probe_calls : ∀ s, Q (ThreadsSelectByYoutubeId s).

(** [createThread] prints its [Processing] line first; everything after it
    is a remote call. *)
Lemma createThread_trace member meta w b w' :
  createThread out member meta w = (b, w') →
  ∃ evs, trace w' = trace w ++ Processing (m_name member) (m_youtube_id member) :: evs
         ∧ Forall (calls Q) evs.
Proof.
  unfold createThread. intros (u & w1 & E1 & E2)%bind_inv.
  unfold emit in E1. simplify_eq. simpl in *.
  assert (emits (calls Q)
    (if negb (nonempty (m_youtube_id member)) then ret true else
     let* channelInfo := getChannelInfo out (m_youtube_id member) in
     match channelInfo with
     | None => ret false
     | Some info =>
         let* existingThread :=
           threads_select_by_youtube_id (channelId info) in
         match existingThread with
         | Some id => syncExisting out member meta info id
         | None => createNew out member meta info
         end
     end)) as HE.
  { destruct (negb _); [apply emits_ret|].
    apply emits_bind; [apply emits_getChannelInfo|].
    intros [info|]; [|apply emits_ret].
    apply emits_bind.
    { unfold threads_select_by_youtube_id. apply emits_call. apply probe_calls. }
    intros [id|]; [apply emits_syncExisting|apply emits_createNew]. }
  destruct (HE _ _ _ E2) as (evs & T & F). simpl in T.
  exists evs. split; [|done]. by rewrite T, <- app_assoc.
Qed.

End Logged.

(** ** The sequencer: [processGroup] and [main] *)

Lemma assoc_elem_of {A} k (l : list (string * A)) v :
  assoc k l = Some v → (k, v) ∈ l.
Proof.
  unfold assoc. intros E. apply fmap_Some in E as ([i [k' v']] & F & ->).
  apply list_find_Some in F as (L & Hk & _). simpl in *. subst k'.
  by eapply list_elem_of_lookup_2.
Qed.


Section Sequencer.

Variable out : Outside.

(** One defined member moves exactly one of the three counters. *)
Lemma processMember_counts meta m r w r' w' :
  processMember out meta (Some m) r w = (r', w') →
  counted r' = S (counted r) ∧ total r' = total r ∧ (failed r ≤ failed r')%nat.
Proof.
  unfold processMember. intros (ok & w1 & _ & E)%bind_inv.
  apply bind_inv in E as (r1 & w2 & E & E').
  apply bind_inv in E' as (u & w3 & _ & E'). unfold ret in E'. simplify_eq.
  destruct ok.
  - destruct (negb (nonempty (m_youtube_id m))).
    + unfold ret in E. simplify_eq. unfold counted. simpl. lia.
    + apply bind_inv in E as ([k|] & w4 & _ & E); unfold ret in E; simplify_eq;
        unfold counted; simpl; lia.
  - unfold ret in E. simplify_eq. unfold counted. simpl. lia.
Qed.






End Sequencer.

Lemma sum_of_foldl (f : GroupProcessResult → nat) l a :
  foldl (λ sum r, sum + f r) a l = a + sum_of f l.
Proof.
  unfold sum_of. revert a. induction l as [|r l IH] using rev_ind; intros a.
  - simpl. lia.
  - rewrite !foldl_app. simpl. rewrite IH. lia.
Qed.

Lemma sum_of_cons f r l : sum_of f (r :: l) = f r + sum_of f l.
Proof. unfold sum_of at 1. simpl. by rewrite sum_of_foldl. Qed.


Lemma sum_of_zero f l : sum_of f l = 0 ↔ Forall (λ r, f r = 0) l.
Proof.
  induction l as [|r l IH].
  - split; [constructor|done].
  - rewrite sum_of_cons, Forall_cons, <- IH. lia.
Qed.


Lemma started_app evs1 evs2 : started (evs1 ++ evs2) = started evs1 ++ started evs2.
Proof. unfold started. by rewrite omap_app. Qed.

Lemma started_calls Q evs : Forall (calls Q) evs → started evs = [].
Proof.
  induction 1 as [|[n y|c r] evs H _ IH]; [done| |]; simpl in *; [done|].
  exact IH.
Qed.

Lemma announced_app l1 l2 : announced (l1 ++ l2) = announced l1 ++ announced l2.
Proof. unfold announced. by rewrite omap_app, fmap_app. Qed.

Section NoAbort.

Variable out : Outside.

Lemma processMember_failed meta m r w r' w' :
  processMember out meta (Some m) r w = (r', w') →
  failed r' = failed r + (if (createThread out m meta w).1 then 0 else 1).
Proof.
  unfold processMember. intros (ok & w1 & E0 & E)%bind_inv. rewrite E0. simpl.
  apply bind_inv in E as (r1 & w2 & E & E').
  apply bind_inv in E' as (u & w3 & _ & E'). unfold ret in E'. simplify_eq.
  destruct ok.
  - destruct (negb (nonempty (m_youtube_id m))).
    + unfold ret in E. simplify_eq. simpl. lia.
    + apply bind_inv in E as ([k|] & w4 & _ & E); unfold ret in E; simplify_eq;
        simpl; lia.
  - unfold ret in E. simplify_eq. simpl. lia.
Qed.

Lemma processMember_started meta entry r w r' w' :
  processMember out meta entry r w = (r', w') →
  ∃ evs, trace w' = trace w ++ evs ∧ started evs = announced [entry].
Proof.
  destruct entry as [m|]; simpl.
  2:{ unfold ret. intros ?. simplify_eq. exists []. by rewrite app_nil_r. }
  intros (ok & w1 & E0 & E)%bind_inv.
  apply (createThread_trace out (λ _, True)) in E0 as (evs & T & F);
    [|by intros..].
  apply bind_inv in E as (r1 & w2 & E & E').
  apply bind_inv in E' as (u & w3 & E' & E''). unfold ret in E''.
  unfold sleep in E'. simplify_eq. simpl.
  assert (∃ evs2, trace w2 = trace w1 ++ evs2 ∧ Forall (calls (λ _, True)) evs2)
    as (evs2 & T2 & F2).
  { destruct ok; [destruct (negb (nonempty (m_youtube_id m)))|].
    - unfold ret in E. simplify_eq. exists []. by rewrite app_nil_r.
    - apply bind_inv in E as (k & w4 & E4 & E).
      apply serve_inv in E4 as (rp & T4 & _).
      assert (w2 = w4) as -> by (destruct k; unfold ret in E; by simplify_eq).
      exists [Ev (ThreadsSelectByYoutubeId (m_youtube_id m)) rp].
      split; [done|]. by constructor.
    - unfold ret in E. simplify_eq. exists []. by rewrite app_nil_r. }
  exists (Processing (m_name m) (m_youtube_id m) :: evs ++ evs2).
  split.
  - rewrite T2, T. by rewrite <- !app_assoc.
  - simpl. rewrite started_app.
    by rewrite (started_calls _ _ F), (started_calls _ _ F2).
Qed.

Lemma processMembers_started meta l r w r' w' :
  processMembers out meta l r w = (r', w') →
  ∃ evs, trace w' = trace w ++ evs ∧ started evs = announced l.
Proof.
  revert r w. induction l as [|entry l IH]; intros r w E; simpl in E.
  - unfold ret in E. simplify_eq. exists []. by rewrite app_nil_r.
  - apply bind_inv in E as (r1 & w1 & E1 & E2).
    apply processMember_started in E1 as (ev1 & T1 & S1).
    apply IH in E2 as (ev2 & T2 & S2).
    exists (ev1 ++ ev2). split; [by rewrite T2, T1, app_assoc|].
    rewrite started_app, S1, S2. by rewrite <- announced_app.
Qed.

Lemma processGroup_started j g w r' w' :
  processGroup out j g w = (r', w') →
  ∃ evs, trace w' = trace w ++ evs
         ∧ started evs = announced (match readMembersJson out j g with
                                    | Some membersJson => members membersJson
                                    | None => []
                                    end).
Proof.
  unfold processGroup. destruct (readMembersJson out j g) as [mj|].
  - apply processMembers_started.
  - unfold ret. intros ?. simplify_eq. exists []. by rewrite app_nil_r.
Qed.

Lemma processGroups_started j gs acc w acc' w' :
  processGroups out j gs acc w = (acc', w') →
  ∃ evs, trace w' = trace w ++ evs
         ∧ started evs = announced (g ← gs;
                                    match readMembersJson out j g with
                                    | Some membersJson => members membersJson
                                    | None => []
                                    end).
Proof.
  revert acc w. induction gs as [|g gs IH]; intros acc w E; simpl in E.
  - unfold ret in E. simplify_eq. exists []. by rewrite app_nil_r.
  - apply bind_inv in E as (r1 & w1 & E1 & E2).
    apply processGroup_started in E1 as (ev1 & T1 & S1).
    apply IH in E2 as (ev2 & T2 & S2).
    exists (ev1 ++ ev2). split; [by rewrite T2, T1, app_assoc|].
    rewrite started_app, S1, S2. simpl. by rewrite announced_app.
Qed.

Lemma processJobs_started js acc w acc' w' :
  processJobs out js acc w = (acc', w') →
  ∃ evs, trace w' = trace w ++ evs
         ∧ started evs = announced (j ← js;
                                    g ← getGroupDirectories out j;
                                    match readMembersJson out j g with
                                    | Some membersJson => members membersJson
                                    | None => []
                                    end).
Proof.
  revert acc w. induction js as [|j js IH]; intros acc w E; simpl in E.
  - unfold ret in E. simplify_eq. exists []. by rewrite app_nil_r.
  - apply bind_inv in E as (r1 & w1 & E1 & E2).
    apply processGroups_started in E1 as (ev1 & T1 & S1).
    apply IH in E2 as (ev2 & T2 & S2).
    exists (ev1 ++ ev2). split; [by rewrite T2, T1, app_assoc|].
    rewrite started_app, S1, S2. simpl. by rewrite announced_app.
Qed.

Lemma main_started w :
  started (new_events w (main out w).2) = announced (catalog_members out).
Proof.
  unfold main, catalog_members.
  destruct (getJobDirectories out) as [|j js] eqn:EJ.
  - simpl. unfold new_events. by rewrite drop_all.
  - destruct (bind _ _ w) as [ct w'] eqn:E. simpl.
    apply bind_inv in E as (acc & w1 & E1 & E2).
    assert (w' = w1) as ->.
    { case_bool_decide; unfold ret in E2; by simplify_eq. }
    apply processJobs_started in E1 as (evs & T & S).
    by rewrite (new_events_app _ _ _ T).
Qed.

Lemma main_exit_code w :
  (main out w).1.1
  = if forallb (λ r, bool_decide (failed r = 0))
         (processJobs out (getJobDirectories out) [] w).1
    then 0 else 1.
Proof.
  unfold main. destruct (getJobDirectories out) as [|j js] eqn:EJ; [done|].
  unfold bind at 1. destruct (processJobs out (j :: js) [] w) as [acc w1].
  simpl.
  destruct (forallb _ acc) eqn:EF.
  - rewrite bool_decide_eq_false_2; [done|].
    rewrite forallb_forall in EF.
    assert (sum_of failed acc = 0) as ->; [|lia].
    apply sum_of_zero, Forall_forall. intros r Hr.
    apply list_elem_of_In, EF in Hr. by apply bool_decide_eq_true in Hr.
  - rewrite bool_decide_eq_true_2; [done|].
    destruct (sum_of failed acc) as [|n] eqn:ES; [|lia].
    apply sum_of_zero in ES. rewrite <- not_true_iff_false in EF.
    exfalso. apply EF. apply forallb_forall. intros r Hr.
    apply list_elem_of_In in Hr. rewrite Forall_forall in ES.
    apply bool_decide_eq_true. by apply ES.
Qed.

End NoAbort.

(** ** Errors the script checks *)

Lemma fails_ret {A} (d a : A) : fails_to d (ret a).
Proof.
  intros w a' w' E. injection E as <- <-. exists []. rewrite app_nil_r.
  split; [done|]. by intros ?%Exists_nil.
Qed.

Lemma fails_always {A} P (d : A) (m : M A) :
  emits P m → (∀ w, (m w).1 = d) → fails_to d m.
Proof.
  intros Hm Hd w a w' E. destruct (Hm _ _ _ E) as (evs & T & _).
  exists evs. split; [done|]. intros _. specialize (Hd w). by rewrite E in Hd.
Qed.

Lemma fails_bind {A B} (d : A) (d' : B) (m : M A) (k : A → M B) :
  fails_to d m → (∀ a, fails_to d' (k a)) → (∀ w, (k d w).1 = d') →
  fails_to d' (bind m k).
Proof.
  intros Hm Hk Hd w b w' (a & w1 & E1 & E2)%bind_inv.
  destruct (Hm _ _ _ E1) as (ev1 & T1 & F1).
  destruct (Hk a _ _ _ E2) as (ev2 & T2 & F2).
  exists (ev1 ++ ev2). split; [by rewrite T2, T1, app_assoc|].
  intros [H|H]%Exists_app.
  - specialize (F1 H). subst a. specialize (Hd w1). by rewrite E2 in Hd.
  - by apply F2.
Qed.

Lemma fails_bind_silent {A B} (d' : B) (m : M A) (k : A → M B) :
  emits (λ e, ¬ checked_error e) m → (∀ a, fails_to d' (k a)) →
  fails_to d' (bind m k).
Proof.
  intros Hm Hk w b w' (a & w1 & E1 & E2)%bind_inv.
  destruct (Hm _ _ _ E1) as (ev1 & T1 & F1).
  destruct (Hk a _ _ _ E2) as (ev2 & T2 & F2).
  exists (ev1 ++ ev2). split; [by rewrite T2, T1, app_assoc|].
  intros [H|H]%Exists_app.
  - by apply Forall_Exists_neg in F1.
  - by apply F2.
Qed.

Lemma fails_serve {A} c (down : A) seen run :
  (∀ a, seen a = Err → a = down) → fails_to down (serve c down seen run).
Proof.
  intros Hseen w a w' (r & T & _ & _ & H)%serve_inv.
  exists [Ev c r]. split; [done|].
  intros [HE|HE%Exists_nil]%Exists_cons; [|done].
  destruct H as [(_ & -> & _)|(d0 & _ & _ & ->)]; [done|].
  apply Hseen. simpl in HE. by destruct (seen a).
Qed.

Lemma silent_serve {A} c (down : A) seen run :
  checked c = false → emits (λ e, ¬ checked_error e) (serve c down seen run).
Proof.
  intros Hc. apply emits_serve. intros r. simpl. destruct r; try tauto.
  by rewrite Hc.
Qed.

Lemma write_reply_err a : write_reply a = Err → a = false.
Proof. by destruct a. Qed.

Lemma inserted_reply_err a : inserted_reply a = Err → a = None.
Proof. by destruct a. Qed.

Lemma some_reply_err {A} (a : option A) : some_reply a = Err → a = None.
Proof. by destruct a. Qed.

Section Checked.

Variable out : Outside.

Lemma fails_getOrCreateTag n : fails_to None (getOrCreateTag out n).
Proof.
  unfold getOrCreateTag, tags_select_by_name, tags_insert.
  apply fails_bind_silent; [by apply silent_serve|].
  intros [k|]; [apply fails_ret|]. apply fails_serve, inserted_reply_err.
Qed.

Lemma fails_collectTagIds names ids : fails_to None (collectTagIds out names ids).
Proof.
  revert ids. induction names as [|n names IH]; intros ids; simpl.
  - apply fails_ret.
  - apply (fails_bind None); [apply fails_getOrCreateTag| |done].
    intros [k|]; [apply IH|apply fails_ret].
Qed.

Lemma fails_associateTagsWithThread k names :
  fails_to false (associateTagsWithThread out k names).
Proof.
  unfold associateTagsWithThread. destruct names as [|n names].
  - apply fails_ret.
  - apply (fails_bind None); [apply fails_collectTagIds| |done].
    intros [ids|]; [|apply fails_ret].
    apply fails_serve, write_reply_err.
Qed.

Lemma fails_syncExisting member meta info k :
  fails_to false (syncExisting out member meta info k).
Proof.
  unfold syncExisting, threads_select_by_id, threads_update_name,
    threads_update_title, threads_update, thread_tags_select, thread_tags_delete.
  apply (fails_bind None); [apply fails_serve, some_reply_err| |done].
  intros [[cn ct]|]; [|apply fails_ret].
  apply (fails_bind false); [| |done].
  { case_bool_decide; [apply fails_serve, write_reply_err|apply fails_ret]. }
  intros [|]; simpl; [|apply fails_ret].
  apply (fails_bind false); [| |done].
  { case_bool_decide; [apply fails_serve, write_reply_err|apply fails_ret]. }
  intros [|]; simpl; [|apply fails_ret].
  apply fails_bind_silent; [by apply silent_serve|].
  intros data. destruct (tagsMatch _ _); [apply fails_ret|].
  apply (fails_bind false); [apply fails_serve, write_reply_err| |done].
  intros [|]; simpl; [|apply fails_ret].
  destruct (expectedTagNames member meta) eqn:E; [apply fails_ret|].
  rewrite <- E. apply fails_associateTagsWithThread.
Qed.

Lemma fails_createNew member meta info :
  fails_to false (createNew out member meta info).
Proof.
  unfold createNew, downloadImage, http_get, threads_insert, storage_upload,
    threads_delete, threads_update_avatar, threads_update.
  apply (fails_bind None); [apply fails_serve, some_reply_err| |done].
  intros [blob|]; [|apply fails_ret].
  apply (fails_bind None); [apply fails_serve, inserted_reply_err| |done].
  intros [id|]; [|apply fails_ret].
  apply fails_bind_silent; [apply emits_now|]. intros ts.
  apply (fails_bind false); [apply fails_serve, write_reply_err| |].
  - intros [|]; simpl.
    + apply (fails_bind false); [apply fails_serve, write_reply_err| |done].
      intros [|]; simpl; [|apply fails_ret].
      destruct (expectedTagNames member meta) eqn:E; [apply fails_ret|].
      rewrite <- E. apply fails_associateTagsWithThread.
    + apply (fails_always (λ _, True)).
      * apply emits_bind; [by apply emits_serve|]. intros _. apply emits_ret.
      * intros w. unfold bind. by destruct (serve _ _ _ _ w).
  - intros w. simpl. unfold bind. by destruct (serve _ _ _ _ w).
Qed.

Lemma fails_getChannelInfo yid : fails_to None (getChannelInfo out yid).
Proof.
  unfold getChannelInfo, yt_fetch.
  destruct (String.prefix "UC" yid); [|destruct (String.prefix "@" yid)].
  - apply (fails_bind None); [apply fails_serve, some_reply_err| |done].
    intros ?. apply fails_ret.
  - apply (fails_bind None); [apply fails_serve, some_reply_err| |done].
    intros ?. apply fails_ret.
  - apply fails_ret.
Qed.

Lemma fails_createThread member meta :
  fails_to false (createThread out member meta).
Proof.
  unfold createThread.
  apply fails_bind_silent; [apply emits_emit; simpl; tauto|]. intros _.
  destruct (negb _); [apply fails_ret|].
  apply (fails_bind None); [apply fails_getChannelInfo| |done].
  intros [info|]; [|apply fails_ret].
  apply fails_bind_silent.
  { unfold threads_select_by_youtube_id. by apply silent_serve. }
  intros [id|]; [apply fails_syncExisting|apply fails_createNew].
Qed.

(** Whatever the network does: if a call whose error the script checks
    comes back with an error, the record fails. *)
Lemma checked_error_fails_record member meta w c :
  Ev c Err ∈ new_events w (createThread out member meta w).2 →
  checked c = true →
  (createThread out member meta w).1 = false.
Proof.
  destruct (createThread out member meta w) as [b w'] eqn:E. simpl.
  destruct (fails_createThread member meta _ _ _ E) as (evs & T & F).
  rewrite (new_events_app _ _ _ T). intros Hin Hc. apply F.
  apply Exists_exists. exists (Ev c Err). by split.
Qed.

End Checked.

(** The failures the script does count (the part of C6 it keeps).  No
    failure aborts the run, and the exit status is a fold over the
    per-record outcomes: an error reply to any call whose error the script
    checks (every write, the API fetch, the image download, the read of the
    thread by key) makes [createThread] return [false]; a record whose
    [createThread] returns [false] adds one to its group's [failed] count
    and any other adds nothing to it; a record without a YouTube id always
    returns [true]; [main] announces every defined member of every group of
    the catalog, in order, whatever the outcomes were; and the exit code is
    0 exactly when every group's [failed] count is 0, and 1 otherwise. *)
Theorem failures_fold_into_exit_status (out : Outside) :
  (∀ member meta w c,
      Ev c Err ∈ new_events w (createThread out member meta w).2 →
      checked c = true →
      (createThread out member meta w).1 = false)
  ∧ (∀ meta m r w r' w',
      processMember out meta (Some m) r w = (r', w') →
      failed r' = failed r + (if (createThread out m meta w).1 then 0 else 1))
  ∧ (∀ meta m w, m_youtube_id m = "" → (createThread out m meta w).1 = true)
  ∧ (∀ w, started (new_events w (main out w).2) = announced (catalog_members out))
  ∧ (∀ w, (main out w).1.1
          = if forallb (λ r, bool_decide (failed r = 0))
                 (processJobs out (getJobDirectories out) [] w).1
            then 0 else 1).
Proof.
  split; [|split; [|split; [|split]]].
  - apply checked_error_fails_record.
  - apply processMember_failed.
  - intros meta m w E. unfold createThread, bind, emit. by rewrite E.
  - apply main_started.
  - apply main_exit_code.
Qed.

(** ** C4: the rollback of [createThread] *)

Lemma not_upload_elem evs path r :
  Forall (calls not_upload) evs → Ev (StorageUpload path) r ∉ evs.
Proof.
  intros F Hin. rewrite Forall_forall in F. by apply F in Hin.
Qed.

Ltac in_list H :=
  repeat first [ rewrite elem_of_app in H
               | rewrite elem_of_cons in H
               | rewrite elem_of_nil in H ];
  naive_solver.

Section Rollback.

Variable out : Outside.

Lemma createNew_upload_failure member meta info w b w' :
  createNew out member meta info w = (b, w') →
  ∃ evs, trace w' = trace w ++ evs
    ∧ ∀ path, Ev (StorageUpload path) Err ∈ evs →
        b = false
        ∧ ∃ pre id r,
            evs = pre ++ [Ev (ThreadsInsert (m_name member) (channelId info)
                                (title info)) (Row id);
                          Ev (StorageUpload path) Err;
                          Ev (ThreadsDelete id) r]
            ∧ (r ≠ Err → threads (db w') !! id = None)
            ∧ (r = Err →
               threads (db w') !! id
               = Some (mkThread (m_name member) (channelId info) (title info) "")).
Proof.
  unfold createNew. intros (blob & w1 & E1 & E)%bind_inv.
  apply serve_inv in E1 as (r1 & T1 & _).
  destruct blob as [blob|].
  2:{ injection E as <- <-. eexists. split; [exact T1|].
      intros path Hin. in_list Hin. }
  apply bind_inv in E as (thread & w2 & E2 & E).
  apply serve_inv in E2 as (r2 & T2 & _ & _ & H2).
  destruct thread as [id|].
  2:{ injection E as <- <-. eexists. split; [by rewrite T2, T1, <- app_assoc|].
      intros path Hin. in_list Hin. }
  assert (r2 = Row id) as ->.
  { destruct H2 as [(_ & ? & _)|(d0 & _ & _ & ->)]; [done|done]. }
  apply bind_inv in E as (ts & w3 & E3 & E). injection E3 as <- <-.
  apply bind_inv in E as (uploaded & w4 & E4 & E).
  apply serve_inv in E4 as (r4 & T4 & _ & _ & H4).
  destruct uploaded; simpl in E.
  - assert (r4 = Null) as ->.
    { destruct H4 as [(_ & ? & _)|(d0 & _ & _ & ->)]; [done|done]. }
    assert (emits (calls not_upload)
      (let* updated := threads_update_avatar id (avatarPath id (clock w2)) in
       if negb updated then ret false else
       match expectedTagNames member meta with
       | [] => ret true
       | _ => associateTagsWithThread out id (expectedTagNames member meta)
       end)) as HE.
    { apply emits_bind; [by apply emits_call|]. intros [|]; simpl; [|apply emits_ret].
      destruct (expectedTagNames member meta) eqn:EN; [apply emits_ret|].
      rewrite <- EN. apply emits_associateTagsWithThread; by intros. }
    destruct (HE _ _ _ E) as (evs & T & F).
    eexists. split; [by rewrite T, T4, T2, T1, <- !app_assoc|].
    intros path Hin. simpl in Hin.
    apply not_upload_elem with (path:=path) (r:=Err) in F. in_list Hin.
  - assert (r4 = Err) as ->.
    { destruct H4 as [(? & _)|(d0 & _ & _ & ->)]; [done|done]. }
    apply bind_inv in E as (u & w5 & E5 & E). injection E as <- <-.
    apply serve_inv in E5 as (r5 & T5 & _ & _ & H5).
    eexists. split; [by rewrite T5, T4, T2, T1, <- !app_assoc|].
    intros path Hin. simpl in Hin. split; [done|].
    assert (path = avatarPath id (clock w2)) as -> by in_list Hin.
    exists [Ev (HttpGet (thumbnailUrl info)) r1], id, r5. split; [done|].
    split.
    { intros Hr. destruct H5 as [(? & _)|(d0 & Hd0 & Hrun & _)]; [done|].
      injection Hrun as _ <-. simpl. apply lookup_delete_eq. }
    intros ->.
    assert (db w5 = db w4) as ->.
    { destruct H5 as [(_ & _ & ?)|(d0 & _ & Hrun & Hr)]; [done|].
      injection Hrun as <- _. done. }
    assert (threads (db w4) = threads (db w2)) as ->.
    { destruct H4 as [(_ & _ & ->)|(d0 & Hd0 & Hrun & _)]; [done|].
      assert (threads d0 = threads (db w2)) as <-.
      { destruct Hd0 as [->|[n ->]]; [done|].
        unfold race_tag. by destruct (tags_named n (db w2)). }
      destruct (bucket d0 !! _); [|done]. by injection Hrun as <-. }
    destruct H2 as [(? & _)|(d0 & _ & Hrun & _)]; [done|].
    destruct (_ && _); [done|]. injection Hrun as <- <-. simpl.
    apply lookup_insert_eq.
Qed.

(** C4.  Rollback on upload failure, as the script has it: whenever the
    avatar upload of a record fails, the record is reported as failed, and
    the last three calls of the record are the insert that returned the new
    row's key, the failed upload, and a delete of that very key.  The delete
    is attempted once and its reply is not looked at: when it is served, no
    row with the key exists when the record finishes; when it is lost too,
    the inserted row is still there. *)
Theorem rollback_on_upload_failure member meta w path :
  Ev (StorageUpload path) Err
    ∈ new_events w (createThread out member meta w).2 →
  (createThread out member meta w).1 = false
  ∧ ∃ pre id n yid t r,
      new_events w (createThread out member meta w).2
      = pre ++ [Ev (ThreadsInsert n yid t) (Row id);
                Ev (StorageUpload path) Err;
                Ev (ThreadsDelete id) r]
      ∧ (r ≠ Err → threads (db (createThread out member meta w).2) !! id = None)
      ∧ (r = Err →
         threads (db (createThread out member meta w).2) !! id
         = Some (mkThread n yid t "")).
Proof.
  destruct (createThread out member meta w) as [b w'] eqn:E. simpl.
  unfold createThread in E.
  apply bind_inv in E as (u & w0 & E0 & E).
  assert (w0 = mkWorld (db w) (net w)
                 (trace w ++ [Processing (m_name member) (m_youtube_id member)])
                 (clock w)) as Hw0 by (unfold emit in E0; by simplify_eq).
  clear E0.
  assert (trace w0 = trace w ++ [Processing (m_name member) (m_youtube_id member)])
    as T0 by (by rewrite Hw0).
  clear Hw0.
  destruct (negb (nonempty (m_youtube_id member))).
  { injection E as <- <-. rewrite (new_events_app _ _ _ T0). intros Hin. in_list Hin. }
  apply bind_inv in E as (channelInfo & w1 & E1 & E).
  apply (emits_getChannelInfo out not_upload) in E1 as (ev1 & T1 & F1); [|done].
  apply not_upload_elem with (path:=path) (r:=Err) in F1.
  destruct channelInfo as [info|].
  2:{ injection E as <- <-.
      rewrite (new_events_app w w1 (Processing (m_name member) (m_youtube_id member) :: ev1)).
      - intros Hin. in_list Hin.
      - by rewrite T1, T0, <- app_assoc. }
  apply bind_inv in E as (existingThread & w2 & E2 & E).
  apply serve_inv in E2 as (r2 & T2 & _).
  destruct existingThread as [id|].
  - apply (emits_syncExisting out not_upload) in E as (ev3 & T3 & F3);
      [|done..].
    apply not_upload_elem with (path:=path) (r:=Err) in F3.
    rewrite (new_events_app w w'
      (Processing (m_name member) (m_youtube_id member) :: ev1
       ++ Ev (ThreadsSelectByYoutubeId (channelId info)) r2 :: ev3)).
    + intros Hin. in_list Hin.
    + rewrite T3, T2, T1, T0, <- !app_assoc. done.
  - apply createNew_upload_failure in E as (ev3 & T3 & H3).
    rewrite (new_events_app w w'
      (Processing (m_name member) (m_youtube_id member) :: ev1
       ++ Ev (ThreadsSelectByYoutubeId (channelId info)) r2 :: ev3)).
    2:{ rewrite T3, T2, T1, T0, <- !app_assoc. done. }
    intros Hin.
    assert (Ev (StorageUpload path) Err ∈ ev3) as Hin3 by in_list Hin.
    destruct (H3 _ Hin3) as (-> & pre & id & r & -> & Hgone & Hkept).
    split; [done|].
    exists (Processing (m_name member) (m_youtube_id member) :: ev1
            ++ Ev (ThreadsSelectByYoutubeId (channelId info)) r2 :: pre),
      id, (m_name member), (channelId info), (title info), r.
    split; [|done]. simpl. by rewrite <- !app_assoc.
Qed.

End Rollback.

(** ** C9: get-or-create of a tag *)

Lemma tags_named_lookup n d k n' :
  (k, n') ∈ tags_named n d → n' = n ∧ tags d !! k = Some n.
Proof.
  unfold tags_named. intros [Hn Hin]%list_elem_of_filter. simpl in Hn. subst n'.
  split; [done|]. by apply elem_of_map_to_list in Hin.
Qed.

Lemma single_Some {A} (l : list A) x : single l = Some x → l = [x].
Proof. destruct l as [|y [|z l]]; simpl; intros ?; by simplify_eq. Qed.

Section GetOrCreate.

Variable out : Outside.

(** C9 (as the code has it).  [getOrCreateTag] makes one select and at most
    one insert.  It returns the key of the row the select found, or else the
    key of the row its own insert created, and that row carries the name.
    When the select finds nothing and the insert fails (for whatever reason,
    a concurrent creation of the same name included) it returns null: there
    is no second lookup. *)
Theorem getOrCreateTag_outcomes n w :
  let r := (getOrCreateTag out n w).1 in
  let w' := (getOrCreateTag out n w).2 in
  (∃ k, r = Some k
        ∧ new_events w w' = [Ev (TagsSelectByName n) (Row k)]
        ∧ tags (db w') !! k = Some n)
  ∨ (∃ r0 k, r = Some k ∧ (r0 = Null ∨ r0 = Err)
        ∧ new_events w w' = [Ev (TagsSelectByName n) r0; Ev (TagsInsert n) (Row k)]
        ∧ tags (db w') !! k = Some n)
  ∨ (∃ r0, r = None ∧ (r0 = Null ∨ r0 = Err)
        ∧ new_events w w' = [Ev (TagsSelectByName n) r0; Ev (TagsInsert n) Err]).
Proof.
  destruct (getOrCreateTag out n w) as [r w'] eqn:E. simpl.
  unfold getOrCreateTag in E.
  apply bind_inv in E as (existingTag & w1 & E1 & E).
  apply serve_inv in E1 as (r1 & T1 & _ & _ & H1).
  destruct existingTag as [k|].
  - injection E as <- <-. left. exists k.
    destruct H1 as [(_ & ? & _)|(d0 & _ & Hrun & ->)]; [done|].
    injection Hrun as Hk Hd. split; [done|]. split.
    + by apply new_events_app.
    + apply fmap_Some in Hk as ([k' n'] & Hs & ->). simpl.
      apply single_Some in Hs. rewrite <- Hd.
      assert ((k', n') ∈ tags_named n d0) as Hin by (rewrite Hs; set_solver).
      by apply tags_named_lookup in Hin as [_ ?].
  - right.
    assert (r1 = Null ∨ r1 = Err) as Hr1.
    { destruct H1 as [(-> & _)|(d0 & _ & Hrun & ->)]; [by right|].
      by left. }
    apply serve_inv in E as (r2 & T2 & _ & _ & H2).
    assert (new_events w w' = [Ev (TagsSelectByName n) r1; Ev (TagsInsert n) r2])
      as HN by (apply new_events_app; by rewrite T2, T1, <- app_assoc).
    destruct H2 as [(-> & -> & _)|(d0 & _ & Hrun & ->)].
    + right. by exists r1.
    + destruct (tags_name_unique (schema out) && _).
      * injection Hrun as <- _. right. by exists r1.
      * injection Hrun as <- <-. left. exists r1, (next_key d0).
        repeat split; try done. simpl. apply lookup_insert_eq.
Qed.

End GetOrCreate.

(** ** Runs on a quiet network *)

Lemma quiet_world w : quiet w → w = mkWorld (db w) [] (trace w) (clock w).
Proof. destruct w as [d n tr t]. unfold quiet. simpl. by intros ->. Qed.

Section Quiet.

Variable out : Outside.

Lemma getChannelInfo_quiet yid d tr t :
  ∃ pre, Forall is_read pre
    ∧ getChannelInfo out yid (mkWorld d [] tr t)
      = (resolve out yid, mkWorld d [] (tr ++ pre) t).
Proof.
  unfold getChannelInfo, resolve, yt_fetch, bind.
  destruct (String.prefix "UC" yid); [|destruct (String.prefix "@" yid)].
  - rewrite serve_quiet. simpl. eexists [_]. split; [|done]. by repeat constructor.
  - rewrite serve_quiet. simpl. eexists [_]. split; [|done]. by repeat constructor.
  - exists []. split; [done|]. unfold ret. by rewrite app_nil_r.
Qed.

Lemma getOrCreateTag_quiet n d tr t :
  tags_fresh d →
  ∃ a d' tr',
    getOrCreateTag out n (mkWorld d [] tr t) = (a, mkWorld d' [] tr' t)
    ∧ threads d' = threads d ∧ thread_tags d' = thread_tags d
    ∧ tags_fresh d' ∧ next_key d ≤ next_key d'
    ∧ (∀ k x, tags d !! k = Some x → tags d' !! k = Some x)
    ∧ (∀ k, a = Some k → tags d' !! k = Some n).
Proof.
  intros HF. unfold getOrCreateTag, tags_select_by_name, tags_insert, bind.
  rewrite serve_quiet. simpl.
  destruct (single (tags_named n d)) as [[k n']|] eqn:ES; simpl.
  - exists (Some k), d. eexists. split; [done|]. repeat split; try done.
    intros k0 [= <-]. apply single_Some in ES.
    assert ((k, n') ∈ tags_named n d) as Hin by (rewrite ES; set_solver).
    by apply tags_named_lookup in Hin as [_ ?].
  - rewrite serve_quiet.
    destruct (tags_name_unique (schema out) && _); simpl.
    + exists None, d. eexists. split; [done|]. repeat split; done.
    + eexists (Some (next_key d)), _, _. split; [done|]. simpl.
      repeat split; try done.
      * intros k [x Hk]. simpl in *.
        apply lookup_insert_Some in Hk as [[<- _]|[_ Hk]]; [lia|].
        assert (k < next_key d) by (apply HF; eauto). lia.
      * lia.
      * intros k x Hk. rewrite lookup_insert_ne; [done|]. intros <-.
        assert (next_key d < next_key d) by (apply HF; eauto). lia.
      * intros k [= <-]. apply lookup_insert_eq.
Qed.

Lemma collectTagIds_quiet names ids d tr t :
  tags_fresh d →
  ∃ a d' tr',
    collectTagIds out names ids (mkWorld d [] tr t) = (a, mkWorld d' [] tr' t)
    ∧ threads d' = threads d ∧ thread_tags d' = thread_tags d
    ∧ tags_fresh d' ∧ next_key d ≤ next_key d'
    ∧ (∀ k x, tags d !! k = Some x → tags d' !! k = Some x)
    ∧ (∀ l, a = Some l →
         ∃ new, l = ids ++ new ∧ Forall2 (λ k n, tags d' !! k = Some n) new names).
Proof.
  revert ids d tr. induction names as [|n names IH]; intros ids d tr HF; simpl.
  - exists (Some ids), d, tr. unfold ret. repeat split; try done.
    intros l [= <-]. exists []. by rewrite app_nil_r.
  - destruct (getOrCreateTag_quiet n d tr t HF)
      as (a & d1 & tr1 & E1 & Hth & Htt & HF1 & Hnk & Hkeep & Hnew).
    unfold bind. rewrite E1. destruct a as [k|].
    + destruct (IH (ids ++ [k]) d1 tr1 HF1)
        as (a2 & d2 & tr2 & E2 & Hth2 & Htt2 & HF2 & Hnk2 & Hkeep2 & Hnew2).
      exists a2, d2, tr2. split; [done|].
      repeat split; try congruence; try lia; try by eauto.
      intros l Hl. destruct (Hnew2 l Hl) as (new & -> & F2).
      exists (k :: new). split; [by rewrite <- app_assoc|].
      constructor; [|done]. apply Hkeep2. by apply Hnew.
    + exists None, d1, tr1. unfold ret. repeat split; try done.
Qed.

Lemma associateTagsWithThread_quiet k names d tr t :
  tags_fresh d →
  ∃ b d' tr',
    associateTagsWithThread out k names (mkWorld d [] tr t)
    = (b, mkWorld d' [] tr' t)
    ∧ threads d' = threads d
    ∧ (b = true →
       ∃ ids, thread_tags d' = thread_tags d ++ ((λ id, (k, id)) <$> ids)
              ∧ Forall2 (λ id n, tags d' !! id = Some n) ids names).
Proof.
  intros HF. unfold associateTagsWithThread. destruct names as [|n names].
  { exists true, d, tr. unfold ret. repeat split; try done.
    intros _. exists []. by rewrite app_nil_r. }
  destruct (collectTagIds_quiet (n :: names) [] d tr t HF)
    as (a & d1 & tr1 & E1 & Hth & Htt & HF1 & Hnk & Hkeep & Hnew).
  unfold bind. rewrite E1. destruct a as [ids|].
  - unfold thread_tags_insert. rewrite serve_quiet.
    destruct (thread_tags_unique (schema out) && _); simpl.
    + exists false, d1. eexists. repeat split; done.
    + eexists true, _, _. split; [done|]. simpl. split; [done|].
      intros _. destruct (Hnew ids eq_refl) as (new & -> & F).
      exists new. by rewrite Htt.
  - exists false, d1, tr1. unfold ret. repeat split; done.
Qed.

End Quiet.

Ltac sync_tail :=
  unfold joined, tags_of, unlinked; simpl; rewrite <- ?app_assoc; simpl;
  destruct (tagsMatch _ _); [done|];
  rewrite serve_quiet; simpl; rewrite <- ?app_assoc; simpl;
  by destruct (expectedTagNames _ _).

Section QuietSync.

Variable out : Outside.

(** The existing-thread branch on a quiet network, up to the tag rebuild:
    the row is read, name and title are patched where they differ, the tag
    names are read and compared; the links are deleted and rebuilt only when
    the comparison fails. *)
Lemma syncExisting_quiet member meta info k d tr t r :
  threads d !! k = Some r →
  ∃ d2 pre,
    tags d2 = tags d ∧ thread_tags d2 = thread_tags d ∧ next_key d2 = next_key d
    ∧ (∃ r2, threads d2 !! k = Some r2 ∧ youtube_id r2 = youtube_id r)
    ∧ Forall (calls on_threads) pre
    ∧ (name r = m_name member → youtube_title r = title info →
       d2 = d ∧ pre = [Ev (ThreadsSelectById k) Body])
    ∧ syncExisting out member meta info k (mkWorld d [] tr t)
      = let tr2 := tr ++ pre ++ [Ev (ThreadTagsSelect k) Body] in
        if tagsMatch (expectedTagNames member meta)
             (currentTagNames (Some (joined k d)))
        then (true, mkWorld d2 [] tr2 t)
        else
          let w3 := mkWorld (unlinked k d2) []
                      (tr2 ++ [Ev (ThreadTagsDelete k) Null]) t in
          match expectedTagNames member meta with
          | [] => (true, w3)
          | _ => associateTagsWithThread out k (expectedTagNames member meta) w3
          end.
Proof.
  intros Hk.
  unfold syncExisting, threads_select_by_id, threads_update_name,
    threads_update_title, threads_update, thread_tags_select,
    thread_tags_delete, bind.
  rewrite serve_quiet. simpl. rewrite Hk. simpl.
  set (fn := λ r0, mkThread (m_name member) (youtube_id r0) (youtube_title r0)
                     (avatar_path r0)).
  set (ft := λ r0, mkThread (name r0) (youtube_id r0) (title info)
                     (avatar_path r0)).
  destruct (bool_decide (name r ≠ m_name member)) eqn:EN;
    destruct (bool_decide (youtube_title r ≠ title info)) eqn:ET;
    repeat (rewrite serve_quiet; simpl); unfold ret; simpl.
  - exists (mkDb (alter ft k (alter fn k (threads d))) (tags d) (thread_tags d)
               (bucket d) (next_key d)),
      [Ev (ThreadsSelectById k) Body;
       Ev (ThreadsUpdateName k (m_name member)) Null;
       Ev (ThreadsUpdateTitle k (title info)) Null].
    repeat split; simpl.
    + exists (ft (fn r)). split; [|done]. by rewrite !lookup_alter_eq, Hk.
    + by repeat constructor.
    + by apply bool_decide_eq_true in EN.
    + by apply bool_decide_eq_true in EN.
    + sync_tail.
  - exists (mkDb (alter fn k (threads d)) (tags d) (thread_tags d)
               (bucket d) (next_key d)),
      [Ev (ThreadsSelectById k) Body;
       Ev (ThreadsUpdateName k (m_name member)) Null].
    repeat split; simpl.
    + exists (fn r). split; [|done]. by rewrite !lookup_alter_eq, Hk.
    + by repeat constructor.
    + by apply bool_decide_eq_true in EN.
    + by apply bool_decide_eq_true in EN.
    + sync_tail.
  - exists (mkDb (alter ft k (threads d)) (tags d) (thread_tags d)
               (bucket d) (next_key d)),
      [Ev (ThreadsSelectById k) Body;
       Ev (ThreadsUpdateTitle k (title info)) Null].
    repeat split; simpl.
    + exists (ft r). split; [|done]. by rewrite !lookup_alter_eq, Hk.
    + by repeat constructor.
    + by apply bool_decide_eq_true in ET.
    + by apply bool_decide_eq_true in ET.
    + sync_tail.
  - exists d, [Ev (ThreadsSelectById k) Body].
    repeat split; simpl.
    + by exists r.
    + by repeat constructor.
    + destruct d. sync_tail.
Qed.

End QuietSync.

(** ** C2: a converged record is only read *)

Lemma resolve_nonempty out yid info :
  resolve out yid = Some info → nonempty yid = true.
Proof. by destruct yid. Qed.

Lemma threads_with_lookup yid d k r :
  (k, r) ∈ threads_with yid d → threads d !! k = Some r ∧ youtube_id r = yid.
Proof.
  unfold threads_with. intros [Hy Hin]%list_elem_of_filter. simpl in Hy.
  split; [|done]. by apply elem_of_map_to_list in Hin.
Qed.

Section Converged.

Variable out : Outside.

Lemma createThread_quiet_converged member meta info k r d tr t :
  resolve out (m_youtube_id member) = Some info →
  threads_with (channelId info) d = [(k, r)] →
  name r = m_name member →
  youtube_title r = title info →
  currentTagNames (Some (joined k d)) ≡ₚ expectedTagNames member meta →
  ∃ evs, Forall is_read evs
    ∧ createThread out member meta (mkWorld d [] tr t)
      = (true, mkWorld d [] (tr ++ evs) t).
Proof.
  intros HR HW Hn Ht HP.
  assert (threads d !! k = Some r) as Hk.
  { apply (threads_with_lookup (channelId info)). rewrite HW. set_solver. }
  destruct (getChannelInfo_quiet out (m_youtube_id member) d
              (tr ++ [Processing (m_name member) (m_youtube_id member)]) t)
    as (pre & Fpre & EC).
  destruct (syncExisting_quiet out member meta info k d
              ((tr ++ [Processing (m_name member) (m_youtube_id member)]) ++ pre
               ++ [Ev (ThreadsSelectByYoutubeId (channelId info)) (Row k)]) t r Hk)
    as (d2 & pre2 & _ & _ & _ & _ & _ & Hsame & ES).
  destruct (Hsame Hn Ht) as [-> ->].
  rewrite (tagsMatch_Permutation _ _ (symmetry HP)) in ES. simpl in ES.
  exists (Processing (m_name member) (m_youtube_id member) :: pre
          ++ [Ev (ThreadsSelectByYoutubeId (channelId info)) (Row k);
              Ev (ThreadsSelectById k) Body; Ev (ThreadTagsSelect k) Body]).
  split.
  - constructor; [done|]. apply Forall_app. split; [done|]. by repeat constructor.
  - unfold createThread, bind, emit. simpl.
    rewrite (resolve_nonempty _ _ _ HR). simpl. rewrite EC, HR.
    unfold threads_select_by_youtube_id. rewrite serve_quiet. simpl.
    rewrite HW. simpl. rewrite <- !app_assoc in ES. rewrite <- !app_assoc.
    exact ES.
Qed.

Lemma catalog_settled_members d j g mj :
  catalog_settled out d →
  readMembersJson out j g = Some mj →
  Forall (settled out d (metadata mj)) (members mj).
Proof.
  unfold catalog_settled, readMembersJson. intros HC HR.
  destruct (assoc j (data_dir out)) as [[|entries]|] eqn:Ej; try done.
  destruct (assoc g entries) as [[|[[mj'|]|]]|] eqn:Eg; try done.
  simplify_eq. apply assoc_elem_of in Ej, Eg.
  rewrite Forall_forall in HC. specialize (HC _ Ej). simpl in HC.
  rewrite Forall_forall in HC. by specialize (HC _ Eg).
Qed.

Lemma processMember_settled meta entry result d tr t :
  settled out d meta entry →
  ∃ evs result' t',
    Forall is_read evs
    ∧ processMember out meta entry result (mkWorld d [] tr t)
      = (result', mkWorld d [] (tr ++ evs) t')
    ∧ failed result' = failed result.
Proof.
  destruct entry as [member|]; simpl.
  2:{ intros _. exists [], result, t. unfold ret. by rewrite app_nil_r. }
  intros [Hnone|(info & k & r & HR & HW & Hn & Ht & HP)].
  - exists [Processing (m_name member) (m_youtube_id member)],
      (bump_skipped result), (t + 100).
    split; [by repeat constructor|].
    unfold processMember, createThread, bind, emit. rewrite Hnone. simpl.
    by unfold ret, sleep.
  - destruct (createThread_quiet_converged member meta info k r d tr t
                HR HW Hn Ht HP) as (evs & F & EC).
    unfold processMember, bind. rewrite EC.
    rewrite (resolve_nonempty _ _ _ HR). simpl.
    destruct (single (threads_with (m_youtube_id member) d)) as [[k' r']|];
      simpl; unfold ret, sleep; simpl.
    + exists (evs ++ [Ev (ThreadsSelectByYoutubeId (m_youtube_id member)) (Row k')]),
        (bump_skipped result), (t + 100).
      split; [apply Forall_app; split; [done|by repeat constructor]|].
      by rewrite <- app_assoc.
    + exists (evs ++ [Ev (ThreadsSelectByYoutubeId (m_youtube_id member)) Null]),
        (bump_success result), (t + 100).
      split; [apply Forall_app; split; [done|by repeat constructor]|].
      by rewrite <- app_assoc.
Qed.

Lemma processMembers_settled meta l result d tr t :
  Forall (settled out d meta) l →
  ∃ evs result' t',
    Forall is_read evs
    ∧ processMembers out meta l result (mkWorld d [] tr t)
      = (result', mkWorld d [] (tr ++ evs) t')
    ∧ failed result' = failed result.
Proof.
  intros HS. revert result tr t.
  induction HS as [|entry l He _ IH]; intros result tr t; simpl.
  - exists [], result, t. unfold ret. by rewrite app_nil_r.
  - destruct (processMember_settled meta entry result d tr t He)
      as (ev1 & r1 & t1 & F1 & E1 & Hf1).
    destruct (IH r1 (tr ++ ev1) t1) as (ev2 & r2 & t2 & F2 & E2 & Hf2).
    exists (ev1 ++ ev2), r2, t2. split; [by apply Forall_app|].
    unfold bind. rewrite E1, E2, app_assoc. split; [done|congruence].
Qed.

Lemma processGroup_settled j g d tr t :
  catalog_settled out d →
  ∃ evs result' t',
    Forall is_read evs
    ∧ processGroup out j g (mkWorld d [] tr t)
      = (result', mkWorld d [] (tr ++ evs) t')
    ∧ failed result' = 0.
Proof.
  intros HC. unfold processGroup.
  destruct (readMembersJson out j g) as [mj|] eqn:HR.
  - apply (processMembers_settled (metadata mj) (members mj)).
    by eapply catalog_settled_members.
  - exists [], (mkResult j g 0 0 0 0), t. unfold ret. by rewrite app_nil_r.
Qed.

Lemma processGroups_settled j gs acc d tr t :
  catalog_settled out d →
  Forall (λ r, failed r = 0) acc →
  ∃ evs acc' t',
    Forall is_read evs
    ∧ processGroups out j gs acc (mkWorld d [] tr t)
      = (acc', mkWorld d [] (tr ++ evs) t')
    ∧ Forall (λ r, failed r = 0) acc'.
Proof.
  intros HC. revert acc tr t. induction gs as [|g gs IH]; intros acc tr t HA; simpl.
  - exists [], acc, t. unfold ret. by rewrite app_nil_r.
  - destruct (processGroup_settled j g d tr t HC)
      as (ev1 & r1 & t1 & F1 & E1 & Hf1).
    destruct (IH (acc ++ [r1]) (tr ++ ev1) t1) as (ev2 & a2 & t2 & F2 & E2 & Hf2).
    { apply Forall_app. split; [done|]. by constructor. }
    exists (ev1 ++ ev2), a2, t2. split; [by apply Forall_app|].
    unfold bind. by rewrite E1, E2, app_assoc.
Qed.

Lemma processJobs_settled js acc d tr t :
  catalog_settled out d →
  Forall (λ r, failed r = 0) acc →
  ∃ evs acc' t',
    Forall is_read evs
    ∧ processJobs out js acc (mkWorld d [] tr t)
      = (acc', mkWorld d [] (tr ++ evs) t')
    ∧ Forall (λ r, failed r = 0) acc'.
Proof.
  intros HC. revert acc tr t. induction js as [|j js IH]; intros acc tr t HA; simpl.
  - exists [], acc, t. unfold ret. by rewrite app_nil_r.
  - destruct (processGroups_settled j (getGroupDirectories out j) acc d tr t HC HA)
      as (ev1 & a1 & t1 & F1 & E1 & Hf1).
    destruct (IH a1 (tr ++ ev1) t1 Hf1) as (ev2 & a2 & t2 & F2 & E2 & Hf2).
    exists (ev1 ++ ev2), a2, t2. split; [by apply Forall_app|].
    unfold bind. by rewrite E1, E2, app_assoc.
Qed.

(** Idempotence where the no-op test on tags is exact (the part of C2 the
    script keeps).  Record by record: on a quiet network, when the
    record's channel resolves, exactly one thread row carries the canonical
    channel id, that row's name and title are those of the record, and the
    tag names the store reports for it are the expected names in some order,
    then processing the record returns success, leaves the whole database as
    it was, issues no insert, update, delete or upload -- only reads -- and
    counts no failure.  For the run: when this holds of every record of the
    catalog that has a YouTube id, [main] leaves the database as it was,
    issues only reads and exits with code 0. *)
Theorem converged_record_is_only_read w :
  quiet w →
  (∀ member meta result info k r,
      resolve out (m_youtube_id member) = Some info →
      threads_with (channelId info) (db w) = [(k, r)] →
      name r = m_name member →
      youtube_title r = title info →
      currentTagNames (Some (joined k (db w))) ≡ₚ expectedTagNames member meta →
      (createThread out member meta w).1 = true
      ∧ db (processMember out meta (Some member) result w).2 = db w
      ∧ Forall is_read
          (new_events w (processMember out meta (Some member) result w).2)
      ∧ failed (processMember out meta (Some member) result w).1 = failed result)
  ∧ (catalog_settled out (db w) →
     db (main out w).2 = db w
     ∧ Forall is_read (new_events w (main out w).2)
     ∧ (main out w).1.1 = 0).
Proof.
  intros HQ. destruct w as [d nt tr t]. unfold quiet in HQ. simpl in HQ.
  subst nt. cbn [db]. split.
  - intros member meta result info k r HR HW Hn Ht HP.
    destruct (createThread_quiet_converged member meta info k r d tr t
                HR HW Hn Ht HP) as (evs & F & EC).
    split; [by rewrite EC|].
    destruct (processMember_settled meta (Some member) result d tr t)
      as (evs' & r' & t' & F' & -> & Hf).
    { right. by exists info, k, r. }
    simpl. split; [done|]. split; [|done].
    by rewrite (new_events_app _ _ evs').
  - intros HC. rewrite main_exit_code. unfold main.
    destruct (getJobDirectories out) as [|j js] eqn:EJ.
    { simpl. split; [done|]. split; [|done].
      unfold new_events. simpl. by rewrite drop_all. }
    destruct (processJobs_settled (j :: js) [] d tr t HC)
      as (evs & acc & t' & F & E & Hf); [done|].
    unfold bind. rewrite E. simpl.
    assert (forallb (λ r, bool_decide (failed r = 0)) acc = true) as ->.
    { apply forallb_forall. intros r Hr. apply bool_decide_eq_true.
      rewrite Forall_forall in Hf. by apply Hf, list_elem_of_In. }
    case_bool_decide; unfold ret; simpl;
      (split; [done|]; split; [|done]; by rewrite (new_events_app _ _ evs)).
Qed.

End Converged.

(** ** C5 and C3: the tag rebuild *)

Lemma on_threads_no_tag_write evs :
  Forall (calls on_threads) evs → ¬ Exists (calls tag_write) evs.
Proof.
  intros F. rewrite <- Forall_Exists_neg. eapply Forall_impl; [exact F|].
  intros [n y|c r]; simpl; [done|]. destruct c; simpl; tauto.
Qed.

Lemma tag_names_frame k d d' :
  tags d' = tags d → thread_tags d' = thread_tags d →
  joined k d' = joined k d.
Proof. unfold joined, tags_of. by intros -> ->. Qed.

Lemma tags_of_none k (l : list (Key * Key)) :
  (∀ tt, tt ∈ l → tt.1 ≠ k) → filter (λ tt, tt.1 = k) l = [].
Proof.
  intros H. induction l as [|tt l IH]; [done|].
  rewrite filter_cons_False.
  - apply IH. intros tt' Hin. apply H. by right.
  - apply H. by left.
Qed.

Lemma tags_of_links k (ids : list Key) :
  filter (λ tt : Key * Key, tt.1 = k) ((λ id, (k, id)) <$> ids)
  = (λ id, (k, id)) <$> ids.
Proof.
  induction ids as [|id ids IH]; [done|].
  rewrite fmap_cons, filter_cons_True by done. by rewrite IH.
Qed.

(** After a rebuild the names of the thread's tags are the names asked for,
    in order. *)
Lemma tag_names_linked k d' base ids names :
  (∀ tt, tt ∈ base → tt.1 ≠ k) →
  thread_tags d' = base ++ ((λ id, (k, id)) <$> ids) →
  Forall2 (λ id n, tags d' !! id = Some n) ids names →
  tag_names k d' = names.
Proof.
  intros Hbase Htt F. unfold tag_names, joined, tags_of. rewrite Htt.
  rewrite filter_app, (tags_of_none _ _ Hbase), tags_of_links. simpl.
  clear Htt. induction F as [|id n ids names Hid _ IH]; [done|].
  simpl in *. rewrite Hid. simpl. by f_equal.
Qed.

Lemma unlinked_no_links k d tt :
  tt ∈ thread_tags (unlinked k d) → tt.1 ≠ k.
Proof. unfold unlinked. simpl. by intros [? _]%list_elem_of_filter. Qed.

Lemma omap_truthy_no_blank k d :
  no_blank_tag d → omap truthy (joined k d) = tag_names k d.
Proof.
  intros HB. unfold tag_names, joined. apply list_omap_ext.
  apply Forall_Forall2_diag, Forall_forall.
  intros o [tt [-> _]]%list_elem_of_fmap.
  destruct (tags d !! tt.2) as [[|a s]|] eqn:E; try done.
  by apply HB in E.
Qed.

Section Rebuild.

Variable out : Outside.

(** The tag no-op test as the script computes it (behind C5).  It
    compares lengths and membership, not sets: on a quiet network, for an existing thread, the
    script issues no write to [tags] or [thread_tags] exactly when the
    expected and the current names have the same length and every expected
    name occurs among the current ones; when the expected names are pairwise
    distinct, that is exactly when the current names are a rearrangement of
    the expected ones.  Otherwise the rebuild runs. *)
Theorem tag_noop_test_is_length_and_inclusion member meta info k w r :
  quiet w →
  threads (db w) !! k = Some r →
  let expected := expectedTagNames member meta in
  let current := currentTagNames (Some (joined k (db w))) in
  let evs := new_events w (syncExisting out member meta info k w).2 in
  (¬ Exists (calls tag_write) evs
   ↔ length expected = length current ∧ ∀ x, x ∈ expected → x ∈ current)
  ∧ (NoDup expected → (¬ Exists (calls tag_write) evs ↔ expected ≡ₚ current)).
Proof.
  intros HQ Hk expected current. rewrite (quiet_world w HQ).
  destruct w as [d nt tr t]. simpl in *. clear HQ nt.
  destruct (syncExisting_quiet out member meta info k d tr t r Hk)
    as (d2 & pre & Htags & Htt & Hnk & _ & Fpre & _ & ES).
  rewrite ES. clear ES. fold expected.
  assert ((¬ Exists (calls tag_write)
             (new_events (mkWorld d [] tr t)
                (let tr2 := tr ++ pre ++ [Ev (ThreadTagsSelect k) Body] in
                 if tagsMatch expected (currentTagNames (Some (joined k d)))
                 then (true, mkWorld d2 [] tr2 t)
                 else
                  let w3 := mkWorld (unlinked k d2) []
                              (tr2 ++ [Ev (ThreadTagsDelete k) Null]) t in
                  match expected with
                  | [] => (true, w3)
                  | _ :: _ => associateTagsWithThread out k expected w3
                  end).2))
          ↔ tagsMatch expected current = true) as Hiff.
  { subst current. simpl.
    destruct (tagsMatch expected (omap truthy (joined k d))) eqn:EM; simpl.
    - rewrite (new_events_app _ _ (pre ++ [Ev (ThreadTagsSelect k) Body])) by done.
      split; [done|]. intros _. rewrite Exists_app.
      intros [H|H]; [by apply on_threads_no_tag_write in Fpre|].
      apply Exists_cons in H as [H|H]; [done|]. by apply Exists_nil in H.
    - split; [|done]. intros HN. exfalso. apply HN.
      assert (∃ rest, trace (match expected with
                 | [] => (true, mkWorld (unlinked k d2) []
                            ((tr ++ pre ++ [Ev (ThreadTagsSelect k) Body])
                             ++ [Ev (ThreadTagsDelete k) Null]) t)
                 | _ :: _ => associateTagsWithThread out k expected
                     (mkWorld (unlinked k d2) []
                        ((tr ++ pre ++ [Ev (ThreadTagsSelect k) Body])
                         ++ [Ev (ThreadTagsDelete k) Null]) t)
                 end).2
               = ((tr ++ pre ++ [Ev (ThreadTagsSelect k) Body])
                  ++ [Ev (ThreadTagsDelete k) Null]) ++ rest) as [rest Hrest].
      { destruct expected as [|n ns] eqn:EE.
        - exists []. simpl. by rewrite app_nil_r.
        - destruct (associateTagsWithThread out k (n :: ns) _) as [b w'] eqn:EA.
          apply (emits_associateTagsWithThread out (λ _, True)) in EA
            as (rest & T & _); [|done..].
          exists rest. exact T. }
      rewrite (new_events_app _ _
        (pre ++ [Ev (ThreadTagsSelect k) Body; Ev (ThreadTagsDelete k) Null]
         ++ rest)).
      + rewrite Exists_app. right. apply Exists_cons. right.
        apply Exists_cons. by left.
      + rewrite Hrest. simpl. by rewrite <- !app_assoc. }
  split.
  - rewrite Hiff. apply tagsMatch_true.
  - intros ND. rewrite Hiff. split.
    + by apply tagsMatch_NoDup.
    + apply tagsMatch_Permutation.
Qed.

End Rebuild.

Section Convergence.

Variable out : Outside.

(** The creation branch on a quiet network: when it succeeds, the new row
    sits under the key the store handed out, carries the canonical channel
    id, and is tagged with exactly the expected names. *)
Lemma createNew_quiet member meta info d tr t w' :
  tags_fresh d → links_fresh d →
  createNew out member meta info (mkWorld d [] tr t) = (true, w') →
  ∃ r', threads (db w') !! next_key d = Some r'
        ∧ youtube_id r' = channelId info
        ∧ tag_names (next_key d) (db w') = expectedTagNames member meta.
Proof.
  intros HF HL E.
  unfold createNew, downloadImage, http_get, threads_insert, storage_upload,
    threads_delete, threads_update_avatar, threads_update, now, bind, ret in E.
  rewrite ?serve_quiet in E; simpl in E.
  destruct (cdn out !! thumbnailUrl info) as [blob|]; simpl in E; [|done].
  rewrite ?serve_quiet in E; simpl in E.
  destruct (threads_youtube_id_unique (schema out)
            && bool_decide (threads_with (channelId info) d ≠ []));
    simpl in E; [done|].
  rewrite ?serve_quiet in E; simpl in E.
  destruct (bucket d !! avatarPath (next_key d) t) as [old|] eqn:EB; simpl in E.
  { rewrite ?serve_quiet in E; simpl in E. done. }
  rewrite ?serve_quiet in E; simpl in E.
  set (row := mkThread (m_name member) (channelId info) (title info) "") in E.
  set (fa := λ r0, mkThread (name r0) (youtube_id r0) (youtube_title r0)
                     (avatarPath (next_key d) t)) in E.
  set (d3 := mkDb (alter fa (next_key d) (<[next_key d:=row]> (threads d)))
               (tags d) (thread_tags d)
               (<[avatarPath (next_key d) t:=blob]> (bucket d)) (S (next_key d)))
    in E.
  assert (threads d3 !! next_key d = Some (fa row)) as Hrow.
  { simpl. by rewrite lookup_alter_eq, lookup_insert_eq. }
  assert (∀ tt, tt ∈ thread_tags d → tt.1 ≠ next_key d) as Hbase.
  { intros tt Hin. apply HL in Hin. by apply Nat.lt_neq. }
  destruct (expectedTagNames member meta) as [|n ns] eqn:EE.
  - injection E as <-. exists (fa row). repeat split; [done|].
    unfold tag_names, joined, tags_of. simpl.
    by rewrite (tags_of_none _ _ Hbase).
  - assert (tags_fresh d3) as HF3.
    { intros k Hk. simpl in *. apply HF in Hk. lia. }
    match type of E with
    | associateTagsWithThread _ _ _ (mkWorld _ _ ?tr3 _) = _ =>
        destruct (associateTagsWithThread_quiet out (next_key d) (n :: ns) d3
                    tr3 t HF3) as (b & d' & tr' & EA & Hth & Hlinks)
    end.
    rewrite EA in E. injection E as -> <-.
    destruct (Hlinks eq_refl) as (ids & Htt & F).
    exists (fa row). simpl. rewrite Hth. repeat split; [done|].
    by eapply tag_names_linked.
Qed.

Lemma createThread_quiet member meta d tr t :
  nonempty (m_youtube_id member) = true →
  ∃ pre,
    createThread out member meta (mkWorld d [] tr t)
    = match resolve out (m_youtube_id member) with
      | None => (false, mkWorld d [] (tr ++ pre) t)
      | Some info =>
          let found := fst <$> single (threads_with (channelId info) d) in
          let tr' := tr ++ pre ++ [Ev (ThreadsSelectByYoutubeId (channelId info))
                                     (key_reply found)] in
          match found with
          | Some k => syncExisting out member meta info k (mkWorld d [] tr' t)
          | None => createNew out member meta info (mkWorld d [] tr' t)
          end
      end.
Proof.
  intros HN.
  destruct (getChannelInfo_quiet out (m_youtube_id member) d
              (tr ++ [Processing (m_name member) (m_youtube_id member)]) t)
    as (pre & _ & EC).
  exists (Processing (m_name member) (m_youtube_id member) :: pre).
  unfold createThread, bind, emit. simpl. rewrite HN. simpl. rewrite EC.
  destruct (resolve out (m_youtube_id member)) as [info|].
  - unfold threads_select_by_youtube_id. rewrite serve_quiet. simpl.
    rewrite <- !app_assoc. simpl.
    by destruct (single (threads_with (channelId info) d)) as [[k r]|].
  - unfold ret. by rewrite <- app_assoc.
Qed.

(** The rebuild proper: when the no-op test fails and the branch succeeds,
    the thread is left with one link per expected name, in order, and
    nothing else. *)
Lemma syncExisting_rebuilds member meta info k d tr t r :
  tags_fresh d →
  threads d !! k = Some r →
  tagsMatch (expectedTagNames member meta) (currentTagNames (Some (joined k d)))
  = false →
  (syncExisting out member meta info k (mkWorld d [] tr t)).1 = true →
  tag_names k (db (syncExisting out member meta info k (mkWorld d [] tr t)).2)
  = expectedTagNames member meta
  ∧ ∃ r2, threads (db (syncExisting out member meta info k (mkWorld d [] tr t)).2)
            !! k = Some r2
          ∧ youtube_id r2 = youtube_id r.
Proof.
  intros HF Hk EM.
  destruct (syncExisting_quiet out member meta info k d tr t r Hk)
    as (d2 & pre2 & Htags & Htt & Hnk & (r2 & Hk2 & Hy2) & _ & _ & ->).
  simpl. simpl in EM. rewrite EM.
  destruct (expectedTagNames member meta) as [|n ns] eqn:EE.
  - simpl. intros _. split; [|by exists r2].
    unfold tag_names, joined, tags_of, unlinked. simpl.
    rewrite tags_of_none; [done|].
    intros tt. by intros [? _]%list_elem_of_filter.
  - rewrite <- EE.
    assert (tags_fresh (unlinked k d2)) as HF2.
    { intros k0 Hk0. unfold unlinked in *. simpl in *.
      rewrite Htags in Hk0. rewrite Hnk. by apply HF. }
    destruct (associateTagsWithThread_quiet out k
                (expectedTagNames member meta) (unlinked k d2)
                ((tr ++ pre2 ++ [Ev (ThreadTagsSelect k) Body])
                 ++ [Ev (ThreadTagsDelete k) Null]) t HF2)
      as (b & d' & tr' & EA & Hth & Hlinks).
    rewrite EA. simpl. intros ->.
    destruct (Hlinks eq_refl) as (ids & Htt' & F).
    split.
    + eapply tag_names_linked; [|exact Htt'|exact F]. apply unlinked_no_links.
    + exists r2. by rewrite Hth.
Qed.

(** Tag convergence where the script achieves it (the part of C3 it
    keeps).  On a quiet network, with a
    store whose keys in use lie below the next key: whenever the no-op test
    of an existing thread fails and the record succeeds, the rebuild leaves
    the thread with exactly the expected names, one link each, whatever it
    was tagged with before.  And for a record whose expected names are
    pairwise distinct, in a store whose tags all have a name: if the record
    is processed successfully, a thread row with the record's canonical
    channel id exists afterwards and the set of names of its tags is exactly
    the set of expected names. *)
Theorem tag_convergence_distinct_names member meta w :
  quiet w →
  tags_fresh (db w) →
  (∀ info k r,
      threads (db w) !! k = Some r →
      tagsMatch (expectedTagNames member meta)
        (currentTagNames (Some (joined k (db w)))) = false →
      (syncExisting out member meta info k w).1 = true →
      tag_names k (db (syncExisting out member meta info k w).2)
      = expectedTagNames member meta)
  ∧ (links_fresh (db w) → no_blank_tag (db w) →
     NoDup (expectedTagNames member meta) →
     nonempty (m_youtube_id member) = true →
     (createThread out member meta w).1 = true →
     ∃ info k r',
       resolve out (m_youtube_id member) = Some info
       ∧ threads (db (createThread out member meta w).2) !! k = Some r'
       ∧ youtube_id r' = channelId info
       ∧ list_to_set (tag_names k (db (createThread out member meta w).2))
         =@{gset string} list_to_set (expectedTagNames member meta)).
Proof.
  intros HQ HF. destruct w as [d nt tr t]. unfold quiet in HQ. simpl in HQ.
  subst nt. cbn [db]. split.
  { intros info k r Hk EM HT.
    by destruct (syncExisting_rebuilds member meta info k d tr t r HF Hk EM HT). }
  intros HL HB ND HN.
  destruct (createThread_quiet member meta d tr t HN) as (pre & ->).
  destruct (resolve out (m_youtube_id member)) as [info|]; [|done].
  simpl. destruct (single (threads_with (channelId info) d)) as [[k r]|] eqn:ES;
    simpl.
  - (* the thread exists *)
    apply single_Some in ES.
    assert ((k, r) ∈ threads_with (channelId info) d) as Hin
      by (rewrite ES; set_solver).
    apply threads_with_lookup in Hin as [Hk Hy].
    destruct (tagsMatch (expectedTagNames member meta)
                (currentTagNames (Some (joined k d)))) eqn:EM.
    + destruct (syncExisting_quiet out member meta info k d
                  (tr ++ pre ++ [Ev (ThreadsSelectByYoutubeId (channelId info))
                                   (Row k)]) t r Hk)
        as (d2 & pre2 & Htags & Htt & Hnk & (r2 & Hk2 & Hy2) & _ & _ & ->).
      simpl. simpl in EM. rewrite EM. simpl.
      intros _. exists info, k, r2. repeat split; [done|congruence|].
      unfold tag_names. rewrite (tag_names_frame k d d2 Htags Htt).
      fold (tag_names k d). rewrite <- (omap_truthy_no_blank k d HB).
      apply tagsMatch_NoDup in EM; [|done].
      by rewrite EM.
    + intros HT.
      destruct (syncExisting_rebuilds member meta info k d _ t r HF Hk EM HT)
        as (Hnames & r2 & Hk2 & Hy2).
      exists info, k, r2. repeat split; [done|congruence|].
      by rewrite Hnames.
  - (* no thread yet *)
    destruct (createNew out member meta info _) as [b w'] eqn:EC. simpl.
    intros ->.
    destruct (createNew_quiet member meta info d _ t w' HF HL EC)
      as (r' & Hk & Hy & Hnames).
    exists info, (next_key d), r'. repeat split; [done..|].
    by rewrite Hnames.
Qed.

End Convergence.

(** ** One thread per channel, as long as the probe is answered *)

Lemma preserves_ret {A} I (a : A) : preserves I (ret a).
Proof. intros w a' w' HI E. by injection E as <- <-. Qed.

Lemma preserves_bind {A B} I (m : M A) (k : A → M B) :
  preserves I m → (∀ a, preserves I (k a)) → preserves I (bind m k).
Proof.
  intros Hm Hk w b w' HI (a & w1 & E1 & E2)%bind_inv.
  eapply Hk; [|exact E2]. by eapply Hm.
Qed.

Lemma preserves_serve {A} (I : Db → Prop) c (down : A) seen run :
  (∀ n d, I d → I (race_tag n d)) → (∀ d, I d → I (run d).2) →
  preserves I (serve c down seen run).
Proof.
  intros Hrace Hrun w a w' HI (r & _ & _ & _ & H)%serve_inv.
  destruct H as [(_ & _ & Hd)|(d0 & Hd0 & E & _)]; [by rewrite Hd|].
  specialize (Hrun d0). rewrite E in Hrun. apply Hrun.
  destruct Hd0 as [->|[n ->]]; [done|by apply Hrace].
Qed.

Lemma race_tag_threads n d : threads (race_tag n d) = threads d.
Proof. unfold race_tag. by destruct (tags_named n d). Qed.

Lemma unique_race_tag n d : unique_channel_ids d → unique_channel_ids (race_tag n d).
Proof. unfold unique_channel_ids. by rewrite race_tag_threads. Qed.

Lemma no_thread_race_tag yid n d : no_thread_for yid d → no_thread_for yid (race_tag n d).
Proof. unfold no_thread_for. by rewrite race_tag_threads. Qed.

Lemma unique_alter (f : Thread → Thread) k d ths :
  (∀ r, youtube_id (f r) = youtube_id r) →
  unique_channel_ids d →
  unique_channel_ids (mkDb (alter f k (threads d)) ths.1.1 ths.1.2 ths.2.1 ths.2.2).
Proof.
  intros Hf HU k1 k2 r1 r2. simpl.
  intros [(_ & x1 & E1 & ->)|[_ E1]]%lookup_alter_Some
         [(_ & x2 & E2 & ->)|[_ E2]]%lookup_alter_Some;
    rewrite ?Hf; intros Hy; by eapply HU.
Qed.

Lemma unique_delete k d ths :
  unique_channel_ids d →
  unique_channel_ids (mkDb (delete k (threads d)) ths.1.1 ths.1.2 ths.2.1 ths.2.2).
Proof.
  intros HU k1 k2 r1 r2. simpl.
  intros [_ E1]%lookup_delete_Some [_ E2]%lookup_delete_Some. by apply HU.
Qed.

Lemma unique_insert k row d ths :
  unique_channel_ids d → no_thread_for (youtube_id row) d →
  unique_channel_ids (mkDb (<[k:=row]> (threads d)) ths.1.1 ths.1.2 ths.2.1 ths.2.2).
Proof.
  intros HU HN k1 k2 r1 r2. simpl.
  intros [[<- <-]|[_ E1]]%lookup_insert_Some [[<- <-]|[_ E2]]%lookup_insert_Some Hy;
    try done.
  - by apply HN in E2.
  - by apply HN in E1.
  - by eapply HU.
Qed.

(** Under uniqueness, a probe that returns no row means there is none. *)
Lemma probe_none yid d :
  unique_channel_ids d → single (threads_with yid d) = None → no_thread_for yid d.
Proof.
  intros HU HS k r Hk Hy.
  assert ((k, r) ∈ threads_with yid d) as Hin.
  { apply list_elem_of_filter. split; [done|]. by apply elem_of_map_to_list. }
  destruct (threads_with yid d) as [|[k1 r1] [|[k2 r2] l]] eqn:E; [by inversion Hin|done|].
  assert (NoDup (threads_with yid d)) as ND.
  { unfold threads_with. apply NoDup_filter, NoDup_map_to_list. }
  rewrite E in ND.
  assert ((k1, r1) ∈ threads_with yid d) as H1 by (rewrite E; set_solver).
  assert ((k2, r2) ∈ threads_with yid d) as H2 by (rewrite E; set_solver).
  apply threads_with_lookup in H1 as [H1 Hy1], H2 as [H2 Hy2].
  assert (k1 = k2) as -> by (eapply HU; [done..|congruence]).
  assert (r1 = r2) as -> by congruence.
  apply NoDup_cons in ND as [ND _]. set_solver.
Qed.

Section OnePerChannel.

Variable out : Outside.

Lemma preserves_getOrCreateTag (I : Db → Prop) n :
  (∀ d d', threads d' = threads d → I d → I d') →
  preserves I (getOrCreateTag out n).
Proof.
  intros HI. unfold getOrCreateTag, tags_select_by_name, tags_insert.
  apply preserves_bind.
  { apply preserves_serve; [|done]. intros n0 d. apply HI, race_tag_threads. }
  intros [k|]; [apply preserves_ret|].
  apply preserves_serve.
  - intros n0 d. apply HI, race_tag_threads.
  - intros d. destruct (_ && _); [done|]. by apply HI.
Qed.

Lemma preserves_associateTagsWithThread (I : Db → Prop) k names :
  (∀ d d', threads d' = threads d → I d → I d') →
  preserves I (associateTagsWithThread out k names).
Proof.
  intros HI. unfold associateTagsWithThread. destruct names as [|n names].
  { apply preserves_ret. }
  apply preserves_bind.
  - generalize (n :: names) as l, (@nil Key) as ids.
    induction l as [|x l IH]; intros ids; simpl; [apply preserves_ret|].
    apply preserves_bind; [by apply preserves_getOrCreateTag|].
    intros [id|]; [apply IH|apply preserves_ret].
  - intros [ids|]; [|apply preserves_ret].
    apply preserves_serve.
    + intros n0 d. apply HI, race_tag_threads.
    + intros d. destruct (_ && _); [done|]. by apply HI.
Qed.

Lemma unique_frame d d' :
  threads d' = threads d → unique_channel_ids d → unique_channel_ids d'.
Proof. unfold unique_channel_ids. by intros ->. Qed.

Lemma preserves_syncExisting member meta info k :
  preserves unique_channel_ids (syncExisting out member meta info k).
Proof.
  unfold syncExisting, threads_select_by_id, threads_update_name,
    threads_update_title, threads_update, thread_tags_select, thread_tags_delete.
  apply preserves_bind; [apply preserves_serve; [apply unique_race_tag|done]|].
  intros [[cn ct]|]; [|apply preserves_ret].
  apply preserves_bind.
  { case_bool_decide; [|apply preserves_ret].
    apply preserves_serve; [apply unique_race_tag|]. intros d HU.
    by apply (unique_alter _ _ _ (tags d, thread_tags d, (bucket d, next_key d))). }
  intros ok1. destruct (negb ok1); [apply preserves_ret|].
  apply preserves_bind.
  { case_bool_decide; [|apply preserves_ret].
    apply preserves_serve; [apply unique_race_tag|]. intros d HU.
    by apply (unique_alter _ _ _ (tags d, thread_tags d, (bucket d, next_key d))). }
  intros ok2. destruct (negb ok2); [apply preserves_ret|].
  apply preserves_bind; [apply preserves_serve; [apply unique_race_tag|done]|].
  intros data. destruct (tagsMatch _ _); [apply preserves_ret|].
  apply preserves_bind.
  { apply preserves_serve; [apply unique_race_tag|]. intros d. by apply unique_frame. }
  intros deleted. destruct (negb deleted); [apply preserves_ret|].
  destruct (expectedTagNames member meta) eqn:E; [apply preserves_ret|].
  rewrite <- E. apply preserves_associateTagsWithThread. apply unique_frame.
Qed.

Lemma createNew_unique member meta info w b w' :
  unique_channel_ids (db w) → no_thread_for (channelId info) (db w) →
  createNew out member meta info w = (b, w') →
  unique_channel_ids (db w').
Proof.
  intros HU HN. unfold createNew. intros (blob & w1 & E1 & E)%bind_inv.
  assert (unique_channel_ids (db w1) ∧ no_thread_for (channelId info) (db w1))
    as [HU1 HN1].
  { apply serve_inv in E1 as (r1 & _ & _ & _ & H).
    destruct H as [(_ & _ & Hd)|(d0 & Hd0 & Hrun & _)]; [by rewrite Hd|].
    injection Hrun as _ Hd. rewrite <- Hd.
    destruct Hd0 as [->|[n ->]]; [done|].
    split; [by apply unique_race_tag|by apply no_thread_race_tag]. }
  destruct blob as [blob|]; [|by injection E as _ <-].
  apply bind_inv in E as (thread & w2 & E2 & E).
  assert (unique_channel_ids (db w2)) as HU2.
  { apply serve_inv in E2 as (r2 & _ & _ & _ & H).
    destruct H as [(_ & _ & Hd)|(d0 & Hd0 & Hrun & _)]; [by rewrite Hd|].
    assert (unique_channel_ids d0 ∧ no_thread_for (channelId info) d0) as [HU0 HN0].
    { destruct Hd0 as [->|[n ->]]; [done|].
      split; [by apply unique_race_tag|by apply no_thread_race_tag]. }
    destruct (_ && _); injection Hrun as _ Hd; rewrite <- Hd; [done|].
    by apply (unique_insert _ _ _ (tags d0, thread_tags d0, (bucket d0, S (next_key d0)))). }
  destruct thread as [id|]; [|by injection E as _ <-].
  revert E. generalize w2 b w' HU2. clear.
  change (preserves unique_channel_ids
    (let* timestamp := now in
     let path := avatarPath id timestamp in
     let* uploaded := storage_upload path blob in
     if negb uploaded then threads_delete id ;;; ret false else
     let* updated := threads_update_avatar id path in
     if negb updated then ret false else
     match expectedTagNames member meta with
     | [] => ret true
     | _ => associateTagsWithThread out id (expectedTagNames member meta)
     end)).
  unfold storage_upload, threads_delete, threads_update_avatar, threads_update.
  apply preserves_bind; [by intros w a w' HI [= _ <-]|]. intros ts. simpl.
  apply preserves_bind.
  { apply preserves_serve; [apply unique_race_tag|]. intros d HU.
    by destruct (bucket d !! _). }
  intros uploaded. destruct (negb uploaded).
  - apply preserves_bind; [|intros _; apply preserves_ret].
    apply preserves_serve; [apply unique_race_tag|]. intros d HU.
    by apply (unique_delete _ _ (tags d, thread_tags d, (bucket d, next_key d))).
  - apply preserves_bind.
    { apply preserves_serve; [apply unique_race_tag|]. intros d HU.
      by apply (unique_alter _ _ _ (tags d, thread_tags d, (bucket d, next_key d))). }
    intros updated. destruct (negb updated); [apply preserves_ret|].
    destruct (expectedTagNames member meta) eqn:E; [apply preserves_ret|].
    rewrite <- E. apply preserves_associateTagsWithThread. apply unique_frame.
Qed.


End OnePerChannel.

Section Mechanism.

Variable out : Outside.

(** X2.  The probe before the insert, whatever the network does: an
    insert is only issued after a probe for the very same channel id that
    came back without a row, and no insert is issued once the probe has
    returned a row. *)
Lemma insert_only_after_empty_probe member meta w :
  let evs := new_events w (createThread out member meta w).2 in
  (∀ n yid t r, Ev (ThreadsInsert n yid t) r ∈ evs →
     ∃ rp, Ev (ThreadsSelectByYoutubeId yid) rp ∈ evs ∧ (rp = Null ∨ rp = Err))
  ∧ (∀ yid k, Ev (ThreadsSelectByYoutubeId yid) (Row k) ∈ evs →
       ∀ n y t r, Ev (ThreadsInsert n y t) r ∉ evs).
Proof.
  destruct (createThread out member meta w) as [b w'] eqn:E. simpl.
  unfold createThread in E.
  apply bind_inv in E as (u & w0 & E0 & E).
  assert (trace w0 = trace w
            ++ [Processing (m_name member) (m_youtube_id member)]) as T0.
  { unfold emit in E0. by simplify_eq. }
  clear E0.
  destruct (negb _).
  { injection E as _ <-. rewrite (new_events_app _ _ _ T0).
    split; intros; in_list H. }
  apply bind_inv in E as (channelInfo & w1 & E1 & E).
  apply (emits_getChannelInfo out (λ c, not_insert c ∧ not_probe c)) in E1
    as (ev1 & T1 & F1); [|done].
  assert (∀ n y t r, Ev (ThreadsInsert n y t) r ∉ ev1) as NI1.
  { intros n y t r Hin. rewrite Forall_forall in F1. by apply F1 in Hin as [? _]. }
  assert (∀ y r, Ev (ThreadsSelectByYoutubeId y) r ∉ ev1) as NP1.
  { intros y r Hin. rewrite Forall_forall in F1. by apply F1 in Hin as [_ ?]. }
  destruct channelInfo as [info|].
  2:{ injection E as _ <-.
      rewrite (new_events_app w w1
        (Processing (m_name member) (m_youtube_id member) :: ev1))
        by (by rewrite T1, T0, <- app_assoc).
      split.
      - intros n yid t r Hin. exfalso. apply (NI1 n yid t r). in_list Hin.
      - intros yid k Hin. exfalso. apply (NP1 yid (Row k)). in_list Hin. }
  apply bind_inv in E as (existingThread & w2 & E2 & E).
  apply serve_inv in E2 as (r2 & T2 & _ & _ & H2).
  destruct existingThread as [id|].
  - apply (emits_syncExisting out (λ c, not_insert c ∧ not_probe c)) in E
      as (ev3 & T3 & F3); [|done..].
    assert (∀ n y t r, Ev (ThreadsInsert n y t) r ∉ ev3) as NI3.
    { intros n y t r Hin. rewrite Forall_forall in F3. by apply F3 in Hin as [? _]. }
    rewrite (new_events_app w w'
      (Processing (m_name member) (m_youtube_id member) :: ev1
       ++ Ev (ThreadsSelectByYoutubeId (channelId info)) r2 :: ev3))
      by (by rewrite T3, T2, T1, T0, <- !app_assoc).
    assert (∀ n y t r, Ev (ThreadsInsert n y t) r
              ∉ Processing (m_name member) (m_youtube_id member) :: ev1
                ++ Ev (ThreadsSelectByYoutubeId (channelId info)) r2 :: ev3) as NI.
    { intros n y t r Hin. specialize (NI1 n y t r). specialize (NI3 n y t r).
      in_list Hin. }
    split.
    + intros n yid t r Hin. by apply NI in Hin.
    + intros yid k _. apply NI.
  - assert (r2 = Null ∨ r2 = Err) as Hr2.
    { destruct H2 as [(-> & _)|(d0 & _ & _ & ->)]; [by right|by left]. }
    pose proof E as E'.
    apply (emits_createNew out not_probe) in E' as (ev3 & T3 & F3); [|done..].
    assert (∀ y r, Ev (ThreadsSelectByYoutubeId y) r ∉ ev3) as NP3.
    { intros y r Hin. rewrite Forall_forall in F3. by apply F3 in Hin. }
    assert (∀ n yid t r, Ev (ThreadsInsert n yid t) r ∈ ev3 → yid = channelId info)
      as Hid.
    { clear -E T3. intros n yid t r Hin.
      unfold createNew in E. apply bind_inv in E as (blob & w3 & E3 & E).
      apply serve_inv in E3 as (r3 & T & _).
      destruct blob as [blob|].
      2:{ injection E as _ <-. rewrite T in T3.
          apply app_inv_head in T3. subst ev3. in_list Hin. }
      apply bind_inv in E as (thread & w4 & E4 & E).
      apply serve_inv in E4 as (r4 & T4 & _).
      assert (∃ rest, trace w' = trace w4 ++ rest ∧ Forall (calls not_insert) rest)
        as (rest & Trest & Frest).
      { destruct thread as [id|].
        2:{ injection E as _ <-. exists []. by rewrite app_nil_r. }
        revert E. generalize w4 b w'. clear.
        change (emits (calls not_insert)
          (let* timestamp := now in
           let path := avatarPath id timestamp in
           let* uploaded := storage_upload path blob in
           if negb uploaded then threads_delete id ;;; ret false else
           let* updated := threads_update_avatar id path in
           if negb updated then ret false else
           match expectedTagNames member meta with
           | [] => ret true
           | _ => associateTagsWithThread out id (expectedTagNames member meta)
           end)).
        apply emits_bind; [apply emits_now|]. intros ts. simpl.
        apply emits_bind; [by apply emits_call|]. intros [|]; simpl.
        - apply emits_bind; [by apply emits_call|]. intros [|]; simpl;
            [|apply emits_ret].
          destruct (expectedTagNames member meta) eqn:EN; [apply emits_ret|].
          rewrite <- EN. by apply emits_associateTagsWithThread.
        - apply emits_bind; [by apply emits_call|]. intros _. apply emits_ret. }
      rewrite Trest, T4, T, <- !app_assoc in T3. apply app_inv_head in T3.
      subst ev3. rewrite Forall_forall in Frest.
      apply elem_of_cons in Hin as [Hin|Hin]; [done|].
      apply elem_of_cons in Hin as [Hin|Hin]; [by injection Hin|].
      by apply Frest in Hin. }
    rewrite (new_events_app w w'
      (Processing (m_name member) (m_youtube_id member) :: ev1
       ++ Ev (ThreadsSelectByYoutubeId (channelId info)) r2 :: ev3))
      by (by rewrite T3, T2, T1, T0, <- !app_assoc).
    split.
    + intros n yid t r Hin.
      assert (Ev (ThreadsInsert n yid t) r ∈ ev3) as Hin3.
      { specialize (NI1 n yid t r). in_list Hin. }
      apply Hid in Hin3 as ->. exists r2. split; [|done].
      apply elem_of_cons. right. apply elem_of_app. right. by left.
    + intros yid k Hin. exfalso.
      specialize (NP1 yid (Row k)). specialize (NP3 yid (Row k)).
      destruct Hr2 as [-> | ->]; in_list Hin.
Qed.

End Mechanism.

(** ** A lookup that is lost *)

(** Whatever the store holds: when the API answers and the probe is lost,
    [createThread] goes on with the creation branch, exactly as if the probe
    had found no thread. *)
Lemma lost_probe_takes_creation_path out member meta d rest tr t info :
  resolve out (m_youtube_id member) = Some info →
  ∃ ev,
    createThread out member meta (mkWorld d (Respond :: Unreachable :: rest) tr t)
    = createNew out member meta info
        (mkWorld d rest
           (tr ++ [Processing (m_name member) (m_youtube_id member); ev;
                   Ev (ThreadsSelectByYoutubeId (channelId info)) Err]) t).
Proof.
  intros HR. pose proof (resolve_nonempty _ _ _ HR) as HN.
  unfold createThread, bind, emit. simpl. rewrite HN. simpl.
  unfold getChannelInfo, resolve, yt_fetch, bind in *.
  destruct (String.prefix "UC" (m_youtube_id member));
    [|destruct (String.prefix "@" (m_youtube_id member)); [|done]].
  - simpl in *. rewrite HR. unfold threads_select_by_youtube_id. simpl.
    eexists. by rewrite <- !app_assoc.
  - simpl in *. rewrite HR. unfold threads_select_by_youtube_id. simpl.
    eexists. by rewrite <- !app_assoc.
Qed.

(** * Further properties of the synchronisation script *)

(** ** Lists *)

Lemma filter_none {A} (P : A → Prop) `{∀ x, Decision (P x)} l :
  Forall (λ x, ¬ P x) l → filter P l = [].
Proof.
  induction 1 as [|x l Hx _ IH]; [done|]. by rewrite filter_cons_False.
Qed.

Lemma filter_all {A} (P : A → Prop) `{∀ x, Decision (P x)} l :
  Forall P l → filter P l = l.
Proof.
  induction 1 as [|x l Hx _ IH]; [done|]. rewrite filter_cons_True by done.
  by rewrite IH.
Qed.

Lemma singleton_list {A} (l : list A) a :
  NoDup l → (∀ x, x ∈ l ↔ x = a) → l = [a].
Proof.
  intros ND H. apply Permutation_singleton_r.
  apply NoDup_Permutation; [done|apply NoDup_singleton|].
  intros x. rewrite H. set_solver.
Qed.

(** ** The directory walk *)

Lemma ascii_compare_lt_trans a b c :
  Ascii.compare a b = Lt → Ascii.compare b c = Lt → Ascii.compare a c = Lt.
Proof. unfold Ascii.compare. rewrite !N.compare_lt_iff. lia. Qed.

Lemma string_compare_refl s : String.compare s s = Eq.
Proof.
  induction s as [|a s IH]; simpl; [done|].
  unfold Ascii.compare. by rewrite N.compare_refl.
Qed.

Lemma string_compare_lt_trans s1 s2 s3 :
  String.compare s1 s2 = Lt → String.compare s2 s3 = Lt → String.compare s1 s3 = Lt.
Proof.
  revert s2 s3. induction s1 as [|a s1 IH]; intros [|b s2] [|c s3]; simpl; try done.
  destruct (Ascii.compare a b) eqn:E1; try done;
    destruct (Ascii.compare b c) eqn:E2; try done.
  - apply Ascii.compare_eq_iff in E1, E2. subst.
    unfold Ascii.compare. rewrite N.compare_refl. apply IH.
  - apply Ascii.compare_eq_iff in E1. subst. by rewrite E2.
  - apply Ascii.compare_eq_iff in E2. subst. by rewrite E1.
  - by rewrite (ascii_compare_lt_trans _ _ _ E1 E2).
Qed.

Lemma name_le_trans a b c : name_le a b → name_le b c → name_le a c.
Proof.
  unfold name_le, String.leb.
  destruct (String.compare a b) eqn:E1; try done;
    destruct (String.compare b c) eqn:E2; try done; intros _ _.
  - apply String.compare_eq_iff in E1, E2. subst. by rewrite string_compare_refl.
  - apply String.compare_eq_iff in E1. subst. by rewrite E2.
  - apply String.compare_eq_iff in E2. subst. by rewrite E1.
  - by rewrite (string_compare_lt_trans _ _ _ E1 E2).
Qed.

Lemma insert_sorted_Permutation x l : insert_sorted x l ≡ₚ x :: l.
Proof.
  induction l as [|y l IH]; simpl; [done|].
  destruct (String.leb x y); [done|]. rewrite IH. apply Permutation_swap.
Qed.

Lemma sort_names_Permutation l : sort_names l ≡ₚ l.
Proof.
  induction l as [|x l IH]; simpl; [done|].
  unfold sort_names in *. simpl. by rewrite insert_sorted_Permutation, IH.
Qed.

Lemma insert_sorted_sorted x l :
  StronglySorted name_le l → StronglySorted name_le (insert_sorted x l).
Proof.
  induction 1 as [|y l HS IH HF]; simpl.
  - by repeat constructor.
  - destruct (String.leb x y) eqn:E.
    + constructor; [by constructor|]. constructor; [done|].
      eapply Forall_impl; [exact HF|]. intros z. by apply name_le_trans.
    + constructor; [done|]. rewrite insert_sorted_Permutation.
      constructor; [|done]. destruct (String.leb_total x y); [congruence|done].
Qed.

Lemma sort_names_sorted l : StronglySorted name_le (sort_names l).
Proof.
  induction l as [|x l IH]; simpl; [constructor|].
  by apply insert_sorted_sorted.
Qed.

Lemma elem_of_sort_names x l : x ∈ sort_names l ↔ x ∈ l.
Proof. by rewrite sort_names_Permutation. Qed.

Lemma assoc_NoDup {A} k (v : A) (l : list (string * A)) :
  NoDup (l.*1) → (k, v) ∈ l → assoc k l = Some v.
Proof.
  unfold assoc. intros ND Hin.
  induction l as [|[k' v'] l IH]; [by inversion Hin|].
  simpl in *. apply NoDup_cons in ND as [Hk' ND].
  case_decide as Hd; simpl in *.
  - subst k'. apply elem_of_cons in Hin as [[= ->]|Hin]; [done|].
    exfalso. apply Hk'. apply list_elem_of_fmap. by exists (k, v).
  - apply elem_of_cons in Hin as [[= -> ->]|Hin]; [done|].
    specialize (IH ND Hin). destruct (list_find _ l) as [[i e]|]; simpl in *; [|done].
    done.
Qed.

(** X3.  [getJobDirectories] returns, in ascending order, exactly the
    names of the entries of [data/] that are directories, are not hidden
    (no leading dot) and are not among [EXCLUDED_FILES]; no name is listed
    twice when none occurs twice in the directory. *)
Theorem getJobDirectories_sorted_visible_directories out :
  StronglySorted name_le (getJobDirectories out)
  ∧ (∀ j, j ∈ getJobDirectories out
          ↔ (∃ entries, (j, JDir entries) ∈ data_dir out)
            ∧ (j ∉ EXCLUDED_FILES) ∧ String.prefix "." j = false)
  ∧ (NoDup ((data_dir out).*1) → NoDup (getJobDirectories out)).
Proof.
  unfold getJobDirectories. split; [apply sort_names_sorted|]. split.
  - intros j. rewrite elem_of_sort_names, list_elem_of_omap. split.
    + intros ([j' e] & Hin & Hj). simpl in Hj.
      case_bool_decide as HE; [done|].
      unfold isValidDirectory in Hj.
      destruct e as [|entries]; simpl in Hj; [done|].
      destruct (String.prefix "." j') eqn:EP; simpl in Hj; [done|].
      injection Hj as <-. eauto.
    + intros ((entries & Hin) & HE & HP). exists (j, JDir entries).
      split; [done|]. simpl. rewrite bool_decide_eq_false_2 by done.
      unfold isValidDirectory. simpl. by rewrite HP.
  - intros ND. rewrite sort_names_Permutation.
    induction (data_dir out) as [|[j e] l IH]; simpl in *; [constructor|].
    apply NoDup_cons in ND as [Hj ND].
    destruct (if bool_decide (j ∈ EXCLUDED_FILES) then None
              else if isValidDirectory j (is_job_dir e) then Some j else None)
      as [x|] eqn:EX; [|exact (IH ND)].
    assert (x = j) as ->.
    { case_bool_decide; [done|]. by destruct (isValidDirectory _ _); simplify_eq. }
    constructor; [|exact (IH ND)].
    intros ([j' e'] & Hin & Hj')%list_elem_of_omap. apply Hj.
    simpl in Hj'. case_bool_decide; [done|].
    destruct (isValidDirectory j' _); simplify_eq.
    apply list_elem_of_fmap. eexists. split; [|exact Hin]. done.
Qed.

(** X4.  For a job directory, [getGroupDirectories] returns, in ascending
    order, exactly the names of its sub-directories that are not hidden, are
    not called [groups.json] and hold a [members.json]; and for each group
    it lists, [readMembersJson] returns the parsed file, null exactly when
    the file does not parse (names within the directory being distinct). *)
Theorem getGroupDirectories_sorted_groups_with_members_json out j entries :
  assoc j (data_dir out) = Some (JDir entries) →
  StronglySorted name_le (getGroupDirectories out j)
  ∧ (∀ g, g ∈ getGroupDirectories out j
          ↔ g ≠ "groups.json" ∧ String.prefix "." g = false
            ∧ ∃ file, (g, GDir (Some file)) ∈ entries)
  ∧ (NoDup (entries.*1) →
     ∀ g, g ∈ getGroupDirectories out j →
       ∃ file, (g, GDir (Some file)) ∈ entries
               ∧ readMembersJson out j g = file).
Proof.
  intros Hj. unfold getGroupDirectories, readMembersJson. rewrite Hj.
  assert (∀ g, g ∈ sort_names
                 (omap (λ e : string * GroupEntry,
                    if bool_decide (e.1 = "groups.json") then None
                    else if isValidDirectory e.1 (is_group_dir e.2)
                    then (if has_members_json e.2 then Some e.1 else None)
                    else None) entries)
          ↔ g ≠ "groups.json" ∧ String.prefix "." g = false
            ∧ ∃ file, (g, GDir (Some file)) ∈ entries) as Hmem.
  { intros g. rewrite elem_of_sort_names, list_elem_of_omap. split.
    - intros ([g' e] & Hin & Hg). simpl in Hg.
      case_bool_decide as HE; [done|].
      unfold isValidDirectory in Hg.
      destruct e as [|[file|]]; simpl in Hg; try done;
        destruct (String.prefix "." g') eqn:EP; simpl in Hg; try done.
      injection Hg as <-. eauto.
    - intros (HE & HP & file & Hin). exists (g, GDir (Some file)).
      split; [done|]. simpl. rewrite bool_decide_eq_false_2 by done.
      unfold isValidDirectory. simpl. by rewrite HP. }
  split; [apply sort_names_sorted|]. split; [done|].
  intros ND g (_ & _ & file & Hin)%Hmem. exists file. split; [done|].
  rewrite (assoc_NoDup _ _ _ ND Hin). by destruct file.
Qed.

(** ** [getChannelInfo] *)

Lemma pick_channel_first_thumbnail items :
  pick_channel items
  = (l ← items; ch ← head l; url ← head (thumbnails ch);
     Some (mkChannelInfo (ch_id ch) (ch_title ch) url)).
Proof.
  destruct items as [[|ch l]|]; simpl; try done.
  unfold thumbnails, or_else, truthy.
  destruct ch as [i h t [[|a hi]|] [[|b me]|] [[|c de]|]]; simpl; try done.
Qed.

(** X5.  [getChannelInfo] makes one request to the API -- by id for an id
    starting with [UC], by handle (the id without its first character) for
    one starting with [@] -- and none at all for any other id; a request
    that fails yields null.  Any info it returns is that of a channel of
    the API, with the first thumbnail that is present and not empty in the
    order high, medium, default; the thumbnail URL is never empty. *)
Theorem getChannelInfo_one_fetch_first_thumbnail out youtubeId w :
  let r := (getChannelInfo out youtubeId w).1 in
  let evs := new_events w (getChannelInfo out youtubeId w).2 in
  let handle := String.substring 1 (String.length youtubeId - 1) youtubeId in
  (∃ reply,
     evs = (if String.prefix "UC" youtubeId
            then [Ev (YtChannelsById youtubeId) reply]
            else if String.prefix "@" youtubeId
            then [Ev (YtChannelsForHandle handle) reply]
            else [])
     ∧ (reply = Err → r = None))
  ∧ match r with
    | None => True
    | Some info =>
        thumbnailUrl info ≠ ""
        ∧ ∃ ch, ch ∈ youtube out
                ∧ channelId info = ch_id ch ∧ title info = ch_title ch
                ∧ head (thumbnails ch) = Some (thumbnailUrl info)
    end.
Proof.
  destruct (getChannelInfo out youtubeId w) as [r w'] eqn:E. simpl.
  assert (∀ P `{∀ ch, Decision (P ch)} info,
            pick_channel (Some (filter P (youtube out))) = Some info →
            thumbnailUrl info ≠ ""
            ∧ ∃ ch, ch ∈ youtube out
                ∧ channelId info = ch_id ch ∧ title info = ch_title ch
                ∧ head (thumbnails ch) = Some (thumbnailUrl info)) as Hpick.
  { intros P ? info. rewrite pick_channel_first_thumbnail. simpl.
    destruct (filter P (youtube out)) as [|ch l] eqn:EF; simpl; [done|].
    destruct (thumbnails ch) as [|url urls] eqn:EU; simpl; [done|].
    intros [= <-]. simpl.
    assert (ch ∈ filter P (youtube out)) as Hin by (rewrite EF; left).
    apply list_elem_of_filter in Hin as [_ Hin].
    assert (url ∈ thumbnails ch) as Hu by (rewrite EU; left).
    apply list_elem_of_filter in Hu as [Hu _].
    split; [done|]. exists ch. by rewrite EU. }
  unfold getChannelInfo, yt_fetch in E.
  destruct (String.prefix "UC" youtubeId); [|destruct (String.prefix "@" youtubeId)].
  - apply bind_inv in E as (data & w1 & E1 & E). injection E as <- <-.
    apply serve_inv in E1 as (rp & T & _ & _ & H). split.
    + exists rp. split; [by apply new_events_app|].
      intros ->. destruct H as [(_ & -> & _)|(d0 & _ & Hrun & Hrp)]; [done|].
      by injection Hrun as <- _.
    + destruct H as [(_ & -> & _)|(d0 & _ & Hrun & _)]; [done|].
      injection Hrun as <- _.
      destruct (pick_channel _) as [info|] eqn:EP; [|done]. by eapply Hpick.
  - apply bind_inv in E as (data & w1 & E1 & E). injection E as <- <-.
    apply serve_inv in E1 as (rp & T & _ & _ & H). split.
    + exists rp. split; [by apply new_events_app|].
      intros ->. destruct H as [(_ & -> & _)|(d0 & _ & Hrun & Hrp)]; [done|].
      by injection Hrun as <- _.
    + destruct H as [(_ & -> & _)|(d0 & _ & Hrun & _)]; [done|].
      injection Hrun as <- _.
      destruct (pick_channel _) as [info|] eqn:EP; [|done]. by eapply Hpick.
  - injection E as <- <-. split; [|done]. exists Null. split; [|done].
    unfold new_events. by rewrite drop_all.
Qed.


(** ** [getOrCreateTag] and [associateTagsWithThread] *)

Lemma tags_named_insert_fresh n d k :
  tags d !! k = None → tags_named n d = [] →
  filter (λ kn : Key * string, kn.2 = n) (map_to_list (<[k := n]> (tags d)))
  = [(k, n)].
Proof.
  intros Hk HN. apply Permutation_singleton_r.
  rewrite (map_to_list_insert _ _ _ Hk). rewrite filter_cons_True by done.
  unfold tags_named in HN. by rewrite HN.
Qed.

(** X6.  Asking twice for the same tag.  When every call is served and at
    most one tag carries the name, [getOrCreateTag] returns a key, exactly
    one tag carries the name afterwards, and a second call returns the same
    key with a single select and no write.  When two or more tags carry the
    name, [.single()] yields no row, so none of them is ever returned: the
    call inserts one more tag, or returns null where names are unique. *)
Theorem getOrCreateTag_repeated out n w :
  quiet w → tags_fresh (db w) →
  let a := (getOrCreateTag out n w).1 in
  let w1 := (getOrCreateTag out n w).2 in
  (length (tags_named n (db w)) ≤ 1 →
   ∃ k, a = Some k
        ∧ tags_named n (db w1) = [(k, n)]
        ∧ getOrCreateTag out n w1
          = (Some k, mkWorld (db w1) []
                       (trace w1 ++ [Ev (TagsSelectByName n) (Row k)])
                       (clock w1)))
  ∧ (2 ≤ length (tags_named n (db w)) →
     a = if tags_name_unique (schema out) then None
         else Some (next_key (db w))).
Proof.
  intros HQ HF. destruct w as [d nt tr t]. unfold quiet in HQ. simpl in *.
  subst nt. unfold getOrCreateTag, tags_select_by_name, tags_insert, bind.
  rewrite serve_quiet. simpl.
  destruct (tags_named n d) as [|[k n'] [|x l]] eqn:EN; simpl.
  - split; [intros _|lia].
    rewrite serve_quiet. simpl. rewrite EN.
    rewrite bool_decide_eq_false_2 by (intros H; by apply H).
    rewrite andb_false_r. simpl.
    assert (tags d !! next_key d = None) as Hfresh.
    { destruct (tags d !! next_key d) eqn:E; [|done].
      assert (next_key d < next_key d) by (apply HF; eauto). lia. }
    exists (next_key d). split; [done|].
    unfold tags_named at 1. simpl.
    rewrite (tags_named_insert_fresh _ _ _ Hfresh EN). split; [done|].
    rewrite ?serve_quiet. simpl. unfold tags_named. simpl.
    by rewrite (tags_named_insert_fresh _ _ _ Hfresh EN).
  - split; [intros _|lia].
    assert ((k, n') ∈ tags_named n d) as Hin by (rewrite EN; left).
    apply tags_named_lookup in Hin as [-> _].
    exists k. split; [done|]. split; [done|].
    rewrite ?serve_quiet. simpl. by rewrite EN.
  - split; [lia|intros _]. rewrite serve_quiet. simpl. rewrite EN.
    rewrite bool_decide_eq_true_2 by done. rewrite andb_true_r.
    by destruct (tags_name_unique (schema out)).
Qed.


Section Links.

Variable out : Outside.




End Links.

(** ** The existing-thread branch *)

Lemma alter_known {A} (f : A → A) (k : Key) (m : gmap Key A) x :
  m !! k = Some x → alter f k m = <[k := f x]> m.
Proof.
  intros Hk. apply map_eq. intros i. destruct (decide (i = k)) as [->|Hi].
  - by rewrite lookup_alter_eq, lookup_insert_eq, Hk.
  - by rewrite lookup_alter_ne, lookup_insert_ne.
Qed.

Section Sync.

Variable out : Outside.

Lemma associateTagsWithThread_threads k names w :
  threads (db (associateTagsWithThread out k names w).2) = threads (db w).
Proof.
  destruct (associateTagsWithThread out k names w) as [b w'] eqn:E. simpl.
  eapply (preserves_associateTagsWithThread out (λ d, threads d = threads (db w)));
    [|reflexivity|exact E].
  by intros d d' ->.
Qed.

Lemma syncExisting_quiet_threads member meta info k d tr t r :
  threads d !! k = Some r →
  threads (db (syncExisting out member meta info k (mkWorld d [] tr t)).2)
  = <[k := synced member info r]> (threads d).
Proof.
  intros Hk.
  unfold syncExisting, threads_select_by_id, threads_update_name,
    threads_update_title, threads_update, thread_tags_select,
    thread_tags_delete, bind.
  rewrite serve_quiet. simpl. rewrite Hk. simpl.
  set (fn := λ r0, mkThread (m_name member) (youtube_id r0) (youtube_title r0)
                     (avatar_path r0)).
  set (ft := λ r0, mkThread (name r0) (youtube_id r0) (title info)
                     (avatar_path r0)).
  destruct (bool_decide (name r ≠ m_name member)) eqn:EN;
    destruct (bool_decide (youtube_title r ≠ title info)) eqn:ET;
    repeat (rewrite serve_quiet; simpl); unfold ret; simpl;
    (destruct (tagsMatch _ _); simpl;
     [|rewrite ?serve_quiet; simpl;
       destruct (expectedTagNames member meta) eqn:EE;
       [simpl|rewrite associateTagsWithThread_threads; simpl]]).
  all: unfold unlinked; simpl.
  all: repeat match goal with
       | H : bool_decide _ = false |- _ =>
           apply bool_decide_eq_false in H; apply dec_stable in H
       end.
  all: apply map_eq; intros i; destruct (decide (i = k)) as [->|Hi];
    [|by rewrite ?lookup_alter_ne, ?lookup_insert_ne by done].
  all: rewrite ?lookup_alter_eq, ?lookup_insert_eq, Hk; unfold synced, fn, ft;
    destruct r; simpl in *; by subst.
Qed.

Lemma patched_frame k m0 d d' :
  threads d' = threads d → patched k m0 d → patched k m0 d'.
Proof. unfold patched. by intros ->. Qed.

Lemma patched_alter k m0 (f : Thread → Thread) d tg tt b nk :
  (∀ r, youtube_id (f r) = youtube_id r) →
  (∀ r, avatar_path (f r) = avatar_path r) →
  patched k m0 d → patched k m0 (mkDb (alter f k (threads d)) tg tt b nk).
Proof.
  intros Hy Ha (H1 & H2 & H3). unfold patched. simpl.
  rewrite lookup_alter_eq. repeat split.
  - intros k' Hk'. by rewrite lookup_alter_ne, H1.
  - rewrite <- H2. destruct (threads d !! k); simpl; by rewrite ?Hy.
  - rewrite <- H3. destruct (threads d !! k); simpl; by rewrite ?Ha.
Qed.

Lemma preserves_patched member meta info k m0 :
  preserves (patched k m0) (syncExisting out member meta info k).
Proof.
  assert (∀ n d, patched k m0 d → patched k m0 (race_tag n d)) as Hrace.
  { intros n d. apply patched_frame, race_tag_threads. }
  unfold syncExisting, threads_select_by_id, threads_update_name,
    threads_update_title, threads_update, thread_tags_select, thread_tags_delete.
  apply preserves_bind; [by apply preserves_serve|].
  intros [[cn ct]|]; [|apply preserves_ret].
  apply preserves_bind.
  { case_bool_decide; [|apply preserves_ret].
    apply preserves_serve; [done|]. intros d. by apply patched_alter. }
  intros ok1. destruct (negb ok1); [apply preserves_ret|].
  apply preserves_bind.
  { case_bool_decide; [|apply preserves_ret].
    apply preserves_serve; [done|]. intros d. by apply patched_alter. }
  intros ok2. destruct (negb ok2); [apply preserves_ret|].
  apply preserves_bind; [by apply preserves_serve|].
  intros data. destruct (tagsMatch _ _); [apply preserves_ret|].
  apply preserves_bind.
  { apply preserves_serve; [done|]. intros d. by apply patched_frame. }
  intros deleted. destruct (negb deleted); [apply preserves_ret|].
  destruct (expectedTagNames member meta) eqn:E; [apply preserves_ret|].
  rewrite <- E. apply preserves_associateTagsWithThread. apply patched_frame.
Qed.

(** X8.  The existing-thread branch of [createThread] touches nothing but
    the name and the title of the thread it was given.  Whatever the network
    does: every other row is as before, the row keeps its [youtube_id] and
    its [avatar_path], and no image is fetched, no row inserted or deleted,
    nothing uploaded.  When every call is served, the row ends up with the
    member's name and the channel's title, whether or not the tags could be
    rebuilt. *)
Theorem sync_patches_name_and_title_only member meta info k w :
  let w' := (syncExisting out member meta info k w).2 in
  (∀ k', k' ≠ k → threads (db w') !! k' = threads (db w) !! k')
  ∧ youtube_id <$> threads (db w') !! k = youtube_id <$> threads (db w) !! k
  ∧ avatar_path <$> threads (db w') !! k = avatar_path <$> threads (db w) !! k
  ∧ Forall (calls (λ c, ¬ creation_call c)) (new_events w w')
  ∧ (quiet w → ∀ r, threads (db w) !! k = Some r →
     threads (db w')
     = <[k := mkThread (m_name member) (youtube_id r) (title info)
                (avatar_path r)]> (threads (db w))).
Proof.
  destruct (syncExisting out member meta info k w) as [b w'] eqn:E. simpl.
  assert (patched k (threads (db w)) (db w')) as (H1 & H2 & H3).
  { eapply preserves_patched; [|exact E]. done. }
  repeat split; try done.
  - apply (emits_syncExisting out (λ c, ¬ creation_call c)) in E
      as (evs & T & F); try (intros; simpl; tauto); try (by intros; simpl; auto).
    by rewrite (new_events_app _ _ _ T).
  - intros HQ r Hk. rewrite (quiet_world w HQ) in E.
    pose proof (syncExisting_quiet_threads member meta info k (db w) (trace w)
                  (clock w) r Hk) as HS.
    rewrite E in HS. exact HS.
Qed.

End Sync.

(** ** The creation branch *)

Section Creation.

Variable out : Outside.

Lemma row_of_frame member info id d d' :
  threads d' = threads d → row_of member info id d → row_of member info id d'.
Proof. unfold row_of. by intros ->. Qed.

(** X9.  The creation branch of [createThread] is one of five call
    sequences, whatever the network does: (1) the image cannot be fetched,
    nothing else is called; (2) the insert fails; (3) the upload fails and a
    delete of the new row follows; (4) the upload succeeds and the update of
    [avatar_path] fails; (5) the update succeeds and only tag calls follow.
    The upload path is [<id>/avatar/<now>.jpg] for the id the insert
    returned.  In (4) and (5) no delete is issued: the inserted row stays in
    the table also when the record fails. *)
Theorem createNew_call_sequence member meta info w :
  let b := (createNew out member meta info w).1 in
  let w' := (createNew out member meta info w).2 in
  let fetch := HttpGet (thumbnailUrl info) in
  let insert := ThreadsInsert (m_name member) (channelId info) (title info) in
  (∃ reply, reply ≠ Body ∧ b = false ∧ new_events w w' = [Ev fetch reply])
  ∨ (b = false ∧ new_events w w' = [Ev fetch Body; Ev insert Err])
  ∨ ∃ id, let path := avatarPath id (clock w) in
      (∃ reply, b = false
         ∧ new_events w w' = [Ev fetch Body; Ev insert (Row id);
                              Ev (StorageUpload path) Err;
                              Ev (ThreadsDelete id) reply])
      ∨ (b = false ∧ row_of member info id (db w')
         ∧ new_events w w' = [Ev fetch Body; Ev insert (Row id);
                              Ev (StorageUpload path) Null;
                              Ev (ThreadsUpdateAvatar id path) Err])
      ∨ (∃ rest, row_of member info id (db w')
           ∧ Forall (calls tag_call) rest
           ∧ (expectedTagNames member meta = [] → b = true ∧ rest = [])
           ∧ new_events w w' = [Ev fetch Body; Ev insert (Row id);
                                Ev (StorageUpload path) Null;
                                Ev (ThreadsUpdateAvatar id path) Null] ++ rest).
Proof.
  destruct (createNew out member meta info w) as [b w'] eqn:E. simpl.
  unfold createNew in E. apply bind_inv in E as (blob & w1 & E1 & E).
  apply serve_inv in E1 as (r1 & T1 & C1 & _ & H1).
  destruct blob as [blob|].
  2:{ injection E as <- <-. left. exists r1. split; [|split; [done|]].
      - destruct H1 as [(-> & _)|(d0 & _ & _ & ->)]; done.
      - by apply new_events_app. }
  assert (r1 = Body) as ->.
  { destruct H1 as [(_ & ? & _)|(d0 & _ & _ & ->)]; done. }
  clear H1. right.
  apply bind_inv in E as (thread & w2 & E2 & E).
  apply serve_inv in E2 as (r2 & T2 & C2 & _ & H2).
  destruct thread as [id|].
  2:{ injection E as <- <-. left. split; [done|].
      apply new_events_app. rewrite T2, T1, <- app_assoc.
      destruct H2 as [(-> & _)|(d0 & _ & _ & ->)]; done. }
  right. exists id.
  assert (r2 = Row id ∧ row_of member info id (db w2)) as [-> HR2].
  { destruct H2 as [(_ & ? & _)|(d0 & _ & Hrun & ->)]; [done|]. split; [done|].
    destruct (_ && _); [done|]. injection Hrun as <- <-.
    eexists. simpl. split; [apply lookup_insert_eq|done]. }
  clear H2.
  apply bind_inv in E as (ts & w3 & E3 & E). injection E3 as <- <-.
  rewrite C2, C1 in E.
  apply bind_inv in E as (uploaded & w4 & E4 & E).
  apply serve_inv in E4 as (r4 & T4 & _ & _ & H4).
  destruct uploaded; simpl in E.
  - right.
    assert (r4 = Null ∧ row_of member info id (db w4)) as [-> HR4].
    { destruct H4 as [(_ & ? & _)|(d0 & Hd0 & Hrun & ->)]; [done|]. split; [done|].
      assert (row_of member info id d0) as HR0.
      { destruct Hd0 as [->|[n ->]]; [done|].
        eapply row_of_frame; [apply race_tag_threads|done]. }
      destruct (bucket d0 !! _); [done|]. injection Hrun as <-. done. }
    clear H4.
    apply bind_inv in E as (updated & w5 & E5 & E).
    apply serve_inv in E5 as (r5 & T5 & _ & _ & H5).
    assert (row_of member info id (db w5)) as HR5.
    { destruct H5 as [(_ & _ & ->)|(d0 & Hd0 & Hrun & _)]; [done|].
      assert (row_of member info id d0) as (r0 & Hk & Hn & Hy & Ht).
      { destruct Hd0 as [->|[n ->]]; [done|].
        eapply row_of_frame; [apply race_tag_threads|done]. }
      injection Hrun as _ <-. eexists. simpl. rewrite lookup_alter_eq, Hk.
      simpl. done. }
    destruct updated; simpl in E.
    + right.
      assert (r5 = Null) as ->.
      { destruct H5 as [(_ & ? & _)|(d0 & _ & _ & ->)]; done. }
      assert (∃ rest, trace w' = trace w5 ++ rest ∧ Forall (calls tag_call) rest
                ∧ row_of member info id (db w')
                ∧ (expectedTagNames member meta = [] → b = true ∧ rest = []))
        as (rest & T & F & HR & HE).
      { destruct (expectedTagNames member meta) as [|n ns] eqn:EN.
        - injection E as <- <-. exists []. rewrite app_nil_r. by repeat split.
        - pose proof E as E'.
          apply (emits_associateTagsWithThread out tag_call) in E'
            as (rest & T & F); [|done..].
          exists rest. repeat split; try done.
          eapply (preserves_associateTagsWithThread out (row_of member info id));
            [|exact HR5|exact E].
          intros d d'. apply row_of_frame. }
      exists rest. repeat split; try done; try by apply HE.
      apply new_events_app. by rewrite T, T5, T4, T2, T1, <- !app_assoc.
    + left. injection E as <- <-. split; [done|]. split; [done|].
      apply new_events_app. rewrite T5, T4, T2, T1, <- !app_assoc.
      destruct H5 as [(-> & _)|(d0 & _ & _ & ->)]; done.
  - left.
    assert (r4 = Err) as ->.
    { destruct H4 as [(? & _)|(d0 & _ & _ & ->)]; done. }
    apply bind_inv in E as (u & w5 & E5 & E). injection E as <- <-.
    apply serve_inv in E5 as (r5 & T5 & _).
    exists r5. split; [done|].
    apply new_events_app. by rewrite T5, T4, T2, T1, <- !app_assoc.
Qed.

Lemma blind_race_tag I n d : blind_to_tags I → I d → I (race_tag n d).
Proof. intros HI Hd. unfold race_tag. destruct (tags_named n d); [|done]. by apply HI. Qed.

Lemma preserves_blind_getOrCreateTag I n :
  blind_to_tags I → preserves I (getOrCreateTag out n).
Proof.
  intros HI. unfold getOrCreateTag, tags_select_by_name, tags_insert.
  apply preserves_bind.
  { apply preserves_serve; [|done]. intros n0 d. by apply blind_race_tag. }
  intros [k|]; [apply preserves_ret|].
  apply preserves_serve.
  - intros n0 d. by apply blind_race_tag.
  - intros d. destruct (_ && _); [done|]. apply HI.
Qed.

Lemma preserves_blind_associateTagsWithThread I k names :
  blind_to_tags I → preserves I (associateTagsWithThread out k names).
Proof.
  intros HI. unfold associateTagsWithThread. destruct names as [|n names].
  { apply preserves_ret. }
  apply preserves_bind.
  - generalize (n :: names) as l, (@nil Key) as ids.
    induction l as [|x l IH]; intros ids; simpl; [apply preserves_ret|].
    apply preserves_bind; [by apply preserves_blind_getOrCreateTag|].
    intros [id|]; [apply IH|apply preserves_ret].
  - intros [ids|]; [|apply preserves_ret].
    apply preserves_serve.
    + intros n0 d. by apply blind_race_tag.
    + intros d. destruct (_ && _); [done|]. apply HI.
Qed.

Lemma createNew_quiet_row member meta info d tr t w' :
  createNew out member meta info (mkWorld d [] tr t) = (true, w') →
  let id := next_key d in
  let path := avatarPath id t in
  threads (db w')
  = <[id := mkThread (m_name member) (channelId info) (title info) path]>
      (threads d)
  ∧ ∃ blob,
      cdn out !! thumbnailUrl info = Some blob
      ∧ bucket d !! path = None
      ∧ bucket (db w') = <[path := blob]> (bucket d).
Proof.
  intros E.
  unfold createNew, downloadImage, http_get, threads_insert, storage_upload,
    threads_delete, threads_update_avatar, threads_update, now, bind, ret in E.
  rewrite ?serve_quiet in E; simpl in E.
  destruct (cdn out !! thumbnailUrl info) as [blob|]; simpl in E; [|done].
  rewrite ?serve_quiet in E; simpl in E.
  destruct (threads_youtube_id_unique (schema out)
            && bool_decide (threads_with (channelId info) d ≠ []));
    simpl in E; [done|].
  rewrite ?serve_quiet in E; simpl in E.
  destruct (bucket d !! avatarPath (next_key d) t) as [old|] eqn:EB; simpl in E.
  { rewrite ?serve_quiet in E; simpl in E. done. }
  rewrite ?serve_quiet in E; simpl in E.
  set (row := mkThread (m_name member) (channelId info) (title info) "") in E.
  set (fa := λ r0, mkThread (name r0) (youtube_id r0) (youtube_title r0)
                     (avatarPath (next_key d) t)) in E.
  set (d3 := mkDb (alter fa (next_key d) (<[next_key d:=row]> (threads d)))
               (tags d) (thread_tags d)
               (<[avatarPath (next_key d) t:=blob]> (bucket d)) (S (next_key d)))
    in E.
  assert (threads (db w') = threads d3 ∧ bucket (db w') = bucket d3) as [-> ->].
  { destruct (expectedTagNames member meta) as [|n ns] eqn:EE.
    - by injection E as <-.
    - refine (preserves_blind_associateTagsWithThread
                (λ d', threads d' = threads d3 ∧ bucket d' = bucket d3)
                _ _ _ _ _ _ _ E); [|done].
      by intros d0 tg tt nk. }
  simpl. split; [|by exists blob].
  apply map_eq. intros i. destruct (decide (i = next_key d)) as [->|Hi].
  - by rewrite lookup_alter_eq, !lookup_insert_eq.
  - by rewrite lookup_alter_ne, !lookup_insert_ne.
Qed.

(** X10.  A successful creation when every call is served: the thread
    table gains exactly one row, under the key the store handed out, with
    the member's name, the canonical channel id, the channel's title and the
    avatar path [<id>/avatar/<now>.jpg]; the bucket gains exactly the
    downloaded image under that path, which was free before. *)
Theorem createNew_success_row member meta info w :
  quiet w →
  (createNew out member meta info w).1 = true →
  let w' := (createNew out member meta info w).2 in
  let id := next_key (db w) in
  let path := avatarPath id (clock w) in
  ∃ blob,
    cdn out !! thumbnailUrl info = Some blob
    ∧ bucket (db w) !! path = None
    ∧ threads (db w')
      = <[id := mkThread (m_name member) (channelId info) (title info) path]>
          (threads (db w))
    ∧ bucket (db w') = <[path := blob]> (bucket (db w)).
Proof.
  intros HQ. destruct w as [d nt tr t]. unfold quiet in HQ. simpl in *. subst nt.
  destruct (createNew out member meta info _) as [b w'] eqn:E. simpl.
  intros ->. apply createNew_quiet_row in E as (Hth & blob & Hc & Hfree & Hb).
  exists blob. by repeat split.
Qed.

End Creation.


(** ** One row per channel over a whole run *)

Lemma keeps_ret {A} J (a : A) : keeps J (ret a).
Proof. intros w a' w' HJ E. by injection E as <- <-. Qed.

Lemma keeps_bind {A B} J (m : M A) (k : A → M B) :
  keeps J m → (∀ a, keeps J (k a)) → keeps J (bind m k).
Proof.
  intros Hm Hk w b w' HJ (a & w1 & E1 & E2)%bind_inv.
  eapply Hk; [|exact E2]. by eapply Hm.
Qed.

(** A call on a network that loses nothing is served. *)
Lemma serve_answered {A} c (down : A) seen run w a w' :
  answered w → serve c down seen run w = (a, w') →
  answered w'
  ∧ trace w' = trace w ++ [Ev c (seen a)]
  ∧ ∃ d0, (d0 = db w ∨ ∃ n, d0 = race_tag n (db w)) ∧ run d0 = (a, db w').
Proof.
  unfold answered, serve. intros HA E.
  destruct (net w) as [|[| |n] rest].
  - destruct (run (db w)) as [a0 d] eqn:R. simplify_eq. simpl.
    repeat split; [done|]. exists (db w). eauto.
  - destruct (run (db w)) as [a0 d] eqn:R. simplify_eq. simpl.
    repeat split; [set_solver|]. exists (db w). eauto.
  - set_solver.
  - destruct (run (race_tag n (db w))) as [a0 d] eqn:R. simplify_eq. simpl.
    repeat split; [set_solver|]. exists (race_tag n (db w)). eauto.
Qed.

Lemma keeps_answered_serve {A} c (down : A) seen run :
  keeps answered (serve c down seen run).
Proof. intros w a w' HA E. by apply serve_answered in E as [? _]. Qed.

Lemma keeps_calm_serve {A} t c (down : A) seen run :
  keeps (calm t) (serve c down seen run).
Proof.
  intros w a w' [HN HC] (r & _ & C & N & _)%serve_inv. split.
  - by rewrite N, HN.
  - by rewrite C.
Qed.

Section KeepsNet.

Variable out : Outside.
Variable J : World → Prop.
Hypothesis J_serve : ∀ A c (down : A) seen run, keeps J (serve c down seen run).

Lemma keeps_getOrCreateTag n : keeps J (getOrCreateTag out n).
Proof.
  unfold getOrCreateTag. apply keeps_bind; [apply J_serve|].
  intros [k|]; [apply keeps_ret|apply J_serve].
Qed.

Lemma keeps_associateTagsWithThread k names :
  keeps J (associateTagsWithThread out k names).
Proof.
  unfold associateTagsWithThread. destruct names as [|n names]; [apply keeps_ret|].
  apply keeps_bind.
  - generalize (n :: names) as l, (@nil Key) as ids.
    induction l as [|x l IH]; intros ids; simpl; [apply keeps_ret|].
    apply keeps_bind; [apply keeps_getOrCreateTag|].
    intros [id|]; [apply IH|apply keeps_ret].
  - intros [ids|]; [apply J_serve|apply keeps_ret].
Qed.

Lemma keeps_syncExisting member meta info k :
  keeps J (syncExisting out member meta info k).
Proof.
  unfold syncExisting. apply keeps_bind; [apply J_serve|].
  intros [[cn ct]|]; [|apply keeps_ret].
  apply keeps_bind.
  { case_bool_decide; [apply J_serve|apply keeps_ret]. }
  intros ok1. destruct (negb ok1); [apply keeps_ret|].
  apply keeps_bind.
  { case_bool_decide; [apply J_serve|apply keeps_ret]. }
  intros ok2. destruct (negb ok2); [apply keeps_ret|].
  apply keeps_bind; [apply J_serve|].
  intros data. destruct (tagsMatch _ _); [apply keeps_ret|].
  apply keeps_bind; [apply J_serve|].
  intros deleted. destruct (negb deleted); [apply keeps_ret|].
  destruct (expectedTagNames member meta) eqn:E; [apply keeps_ret|].
  apply keeps_associateTagsWithThread.
Qed.

Lemma keeps_createNew member meta info :
  keeps J (createNew out member meta info).
Proof.
  unfold createNew. apply keeps_bind; [apply J_serve|].
  intros [blob|]; [|apply keeps_ret].
  apply keeps_bind; [apply J_serve|].
  intros [id|]; [|apply keeps_ret].
  apply keeps_bind; [by intros w a w' HJ [= _ <-]|]. intros ts. simpl.
  apply keeps_bind; [apply J_serve|].
  intros uploaded. destruct (negb uploaded).
  - apply keeps_bind; [apply J_serve|]. intros _. apply keeps_ret.
  - apply keeps_bind; [apply J_serve|].
    intros updated. destruct (negb updated); [apply keeps_ret|].
    destruct (expectedTagNames member meta) eqn:E; [apply keeps_ret|].
    apply keeps_associateTagsWithThread.
Qed.

Lemma keeps_getChannelInfo yid : keeps J (getChannelInfo out yid).
Proof.
  unfold getChannelInfo, yt_fetch.
  destruct (String.prefix "UC" _); [|destruct (String.prefix "@" _)].
  - apply keeps_bind; [apply J_serve|intros; apply keeps_ret].
  - apply keeps_bind; [apply J_serve|intros; apply keeps_ret].
  - apply keeps_ret.
Qed.

End KeepsNet.

Section Answered.

Variable out : Outside.

Lemma preserves_unique_getChannelInfo yid :
  preserves unique_channel_ids (getChannelInfo out yid).
Proof.
  unfold getChannelInfo, yt_fetch.
  destruct (String.prefix "UC" _); [|destruct (String.prefix "@" _)].
  - apply preserves_bind; [|intros; apply preserves_ret].
    apply preserves_serve; [apply unique_race_tag|done].
  - apply preserves_bind; [|intros; apply preserves_ret].
    apply preserves_serve; [apply unique_race_tag|done].
  - apply preserves_ret.
Qed.

Lemma keeps_one_row_createThread member meta :
  keeps one_row_per_channel (createThread out member meta).
Proof.
  intros w b w' [HA HU] E. unfold createThread in E.
  apply bind_inv in E as (u & w0 & E0 & E).
  assert (one_row_per_channel w0) as [HA0 HU0].
  { unfold emit in E0. by simplify_eq. }
  clear E0 HA HU.
  destruct (negb _); [by injection E as _ <-|].
  apply bind_inv in E as (channelInfo & w1 & E1 & E).
  assert (one_row_per_channel w1) as [HA1 HU1].
  { split; [refine (keeps_getChannelInfo out answered _ _ _ _ _ HA0 E1);
      intros; apply keeps_answered_serve|].
    eapply preserves_unique_getChannelInfo; [exact HU0|exact E1]. }
  clear E1. destruct channelInfo as [info|]; [|by injection E as _ <-].
  apply bind_inv in E as (existingThread & w2 & E2 & E).
  apply serve_answered in E2 as (HA2 & _ & d0 & Hd0 & Hrun); [|done].
  injection Hrun as Hfound Hd.
  assert (unique_channel_ids d0) as HU0'.
  { destruct Hd0 as [->|[n ->]]; [done|by apply unique_race_tag]. }
  destruct existingThread as [id|].
  - split; [refine (keeps_syncExisting out answered _ _ _ _ _ _ _ _ HA2 E);
      intros; apply keeps_answered_serve|].
    eapply preserves_syncExisting; [|exact E]. by rewrite <- Hd.
  - split; [refine (keeps_createNew out answered _ _ _ _ _ _ _ HA2 E);
      intros; apply keeps_answered_serve|].
    eapply createNew_unique; [| |exact E]; rewrite <- Hd; [done|].
    apply probe_none; [done|].
    by destruct (single (threads_with (channelId info) d0)).
Qed.

Lemma keeps_one_row_processMember meta entry r :
  keeps one_row_per_channel (processMember out meta entry r).
Proof.
  destruct entry as [member|]; [|apply keeps_ret]. unfold processMember.
  apply keeps_bind; [apply keeps_one_row_createThread|]. intros ok.
  apply keeps_bind.
  2:{ intros r'. apply keeps_bind; [|intros; apply keeps_ret].
      intros w a w' HJ E. unfold sleep in E. by simplify_eq. }
  destruct ok; [|apply keeps_ret].
  destruct (negb _); [apply keeps_ret|].
  apply keeps_bind; [|intros [k|]; apply keeps_ret].
  intros w a w' [HA HU] E.
  apply serve_answered in E as (HA' & _ & d0 & Hd0 & Hrun); [|done].
  split; [done|]. injection Hrun as _ <-.
  destruct Hd0 as [->|[n ->]]; [done|by apply unique_race_tag].
Qed.

Lemma keeps_one_row_processJobs js acc :
  keeps one_row_per_channel (processJobs out js acc).
Proof.
  revert acc. induction js as [|j js IH]; intros acc; simpl; [apply keeps_ret|].
  apply keeps_bind; [|intros; apply IH].
  generalize (getGroupDirectories out j) as gs. intros gs. revert acc.
  induction gs as [|g gs IHg]; intros acc; simpl; [apply keeps_ret|].
  apply keeps_bind; [|intros; apply IHg].
  unfold processGroup. destruct (readMembersJson out j g) as [mj|];
    [|apply keeps_ret].
  generalize (mkResult j g 0 0 0 (length (members mj))) as r.
  induction (members mj) as [|entry l IHl]; intros r; simpl; [apply keeps_ret|].
  apply keeps_bind; [apply keeps_one_row_processMember|intros; apply IHl].
Qed.

(** X11.  On a run of [main] that loses no call -- other clients may
    create tags in between -- thread rows that had pairwise distinct channel
    ids at the start have pairwise distinct channel ids at the end. *)
Theorem channel_ids_stay_unique_when_no_call_is_lost w :
  Unreachable ∉ net w →
  unique_channel_ids (db w) →
  unique_channel_ids (db (main out w).2).
Proof.
  intros HA HU. destruct (main out w) as [res w'] eqn:E. simpl.
  cut (one_row_per_channel w'); [by intros [_ ?]|].
  unfold main in E. destruct (getJobDirectories out) as [|j js].
  { by injection E as _ <-. }
  apply bind_inv in E as (acc & w1 & E1 & E).
  assert (one_row_per_channel w1) as HJ.
  { eapply keeps_one_row_processJobs; [|exact E1]. by split. }
  case_bool_decide; by injection E as _ <-.
Qed.

End Answered.

(** ** The sequencer *)

Section Batch.

Variable out : Outside.

(** X12.  A member whose id starts with neither [UC] nor [@] is dealt
    with without any remote call: [processGroup] prints its [Processing]
    line, counts it as skipped when the id is empty and as failed otherwise,
    waits its 100 ms and leaves database and network as they were. *)
Theorem member_without_channel_prefix_makes_no_call meta member result w :
  String.prefix "UC" (m_youtube_id member) = false →
  String.prefix "@" (m_youtube_id member) = false →
  processMember out meta (Some member) result w
  = (if nonempty (m_youtube_id member) then bump_failed result
     else bump_skipped result,
     mkWorld (db w) (net w)
       (trace w ++ [Processing (m_name member) (m_youtube_id member)])
       (clock w + 100)).
Proof.
  intros HU HA.
  unfold processMember, createThread, getChannelInfo, bind, emit, sleep, ret.
  simpl. destruct (nonempty (m_youtube_id member)); simpl; [|done].
  by rewrite HU, HA.
Qed.

Lemma processMember_names meta entry r w :
  jobName (processMember out meta entry r w).1 = jobName r
  ∧ groupName (processMember out meta entry r w).1 = groupName r
  ∧ total (processMember out meta entry r w).1 = total r
  ∧ counted (processMember out meta entry r w).1
    = counted r + (if defined entry then 1 else 0).
Proof.
  destruct (processMember out meta entry r w) as [r' w'] eqn:E. simpl.
  destruct entry as [m|].
  2:{ injection E as <- <-. simpl. repeat split; lia. }
  unfold processMember in E. apply bind_inv in E as (ok & w1 & _ & E).
  apply bind_inv in E as (r1 & w2 & E & E').
  apply bind_inv in E' as (u & w3 & _ & E'). unfold ret in E'. simplify_eq.
  destruct ok.
  - destruct (negb (nonempty (m_youtube_id m))).
    + unfold ret in E. simplify_eq. unfold counted. simpl. repeat split; lia.
    + apply bind_inv in E as ([k|] & w4 & _ & E); unfold ret in E; simplify_eq;
        unfold counted; simpl; repeat split; lia.
  - unfold ret in E. simplify_eq. unfold counted. simpl. repeat split; lia.
Qed.

Lemma processMembers_names meta l r w :
  jobName (processMembers out meta l r w).1 = jobName r
  ∧ groupName (processMembers out meta l r w).1 = groupName r
  ∧ total (processMembers out meta l r w).1 = total r
  ∧ counted (processMembers out meta l r w).1
    = counted r + length (omap id l).
Proof.
  revert r w. induction l as [|entry l IH]; intros r w; simpl.
  - repeat split; lia.
  - unfold bind. destruct (processMember out meta entry r w) as [r1 w1] eqn:E1.
    pose proof (processMember_names meta entry r w) as (J1 & G1 & T1 & C1).
    rewrite E1 in J1, G1, T1, C1. simpl in *.
    destruct (IH r1 w1) as (J & G & T & C).
    rewrite J, G, T, C, J1, G1, T1, C1. repeat split.
    unfold omap. destruct entry; simpl; lia.
Qed.

Lemma processGroup_names j g w :
  jobName (processGroup out j g w).1 = j ∧ groupName (processGroup out j g w).1 = g.
Proof.
  unfold processGroup. destruct (readMembersJson out j g) as [mj|]; [|done].
  pose proof (processMembers_names (metadata mj) (members mj)
                (mkResult j g 0 0 0 (length (members mj))) w) as (J & G & _).
  done.
Qed.

(** X13.  The result of [processGroup] carries the job and group name it
    was called with.  When [members.json] cannot be read every counter is 0
    and nothing at all is done.  Otherwise [total] is the length of the
    [members] array and [success + skipped + failed] is the number of its
    entries that are not null: a null entry is counted in [total] only. *)
Theorem group_result_counts_defined_entries j g w :
  let r := (processGroup out j g w).1 in
  jobName r = j ∧ groupName r = g
  ∧ match readMembersJson out j g with
    | None => success r = 0 ∧ skipped r = 0 ∧ failed r = 0 ∧ total r = 0
              ∧ (processGroup out j g w).2 = w
    | Some membersJson =>
        total r = length (members membersJson)
        ∧ success r + skipped r + failed r
          = length (omap id (members membersJson))
    end.
Proof.
  simpl. unfold processGroup. destruct (readMembersJson out j g) as [mj|].
  - pose proof (processMembers_names (metadata mj) (members mj)
                  (mkResult j g 0 0 0 (length (members mj))) w)
      as (J & G & T & C).
    unfold counted in C. simpl in *. by rewrite J, G, T, C.
  - done.
Qed.

Lemma processGroups_names j gs acc w :
  (λ r, (jobName r, groupName r)) <$> (processGroups out j gs acc w).1
  = ((λ r, (jobName r, groupName r)) <$> acc) ++ ((λ g, (j, g)) <$> gs).
Proof.
  revert acc w. induction gs as [|g gs IH]; intros acc w; simpl.
  - by rewrite app_nil_r.
  - unfold bind. destruct (processGroup out j g w) as [r w1] eqn:E.
    rewrite IH, fmap_app, <- app_assoc. simpl.
    pose proof (processGroup_names j g w) as (J & G).
    rewrite E in J, G. simpl in *. by rewrite J, G.
Qed.

Lemma processJobs_names js acc w :
  (λ r, (jobName r, groupName r)) <$> (processJobs out js acc w).1
  = ((λ r, (jobName r, groupName r)) <$> acc)
    ++ (j ← js; g ← getGroupDirectories out j; [(j, g)]).
Proof.
  revert acc w. induction js as [|j js IH]; intros acc w; simpl.
  - by rewrite app_nil_r.
  - unfold bind.
    destruct (processGroups out j (getGroupDirectories out j) acc w)
      as [acc1 w1] eqn:E.
    rewrite IH. pose proof (processGroups_names j (getGroupDirectories out j) acc w) as H.
    rewrite E in H. simpl in H. by rewrite H, <- app_assoc.
Qed.

(** X14.  [main] collects one result per group directory it lists, in the
    order of the walk (jobs in sorted order, the groups of each job in
    sorted order), each under the names of its job and group directory: a
    group whose [members.json] cannot be read has its result all the same,
    so the summary shows as many groups processed as were listed. *)
Theorem one_result_per_listed_group w :
  (λ r, (jobName r, groupName r))
    <$> (processJobs out (getJobDirectories out) [] w).1
  = catalog_groups out.
Proof. by rewrite processJobs_names. Qed.

End Batch.

Lemma sum_of_snoc f l r : sum_of f (l ++ [r]) = sum_of f l + f r.
Proof. unfold sum_of. by rewrite foldl_app. Qed.

Section RunTotals.

Variable out : Outside.

Lemma processMember_moves_one_counter meta entry r w :
  total (processMember out meta entry r w).1 = total r
  ∧ counted (processMember out meta entry r w).1
    = counted r + (if defined entry then 1 else 0).
Proof.
  destruct (processMember out meta entry r w) as [r' w'] eqn:E. simpl.
  destruct entry as [m|].
  2:{ injection E as <- <-. simpl. lia. }
  apply processMember_counts in E as (C & T & _). simpl. lia.
Qed.

Lemma processMembers_moves_counters meta l r w :
  total (processMembers out meta l r w).1 = total r
  ∧ counted (processMembers out meta l r w).1 = counted r + length (omap id l).
Proof.
  revert r w. induction l as [|entry l IH]; intros r w; simpl.
  - lia.
  - unfold bind. destruct (processMember out meta entry r w) as [r1 w1] eqn:E1.
    pose proof (processMember_moves_one_counter meta entry r w) as (T1 & C1).
    rewrite E1 in T1, C1. simpl in *.
    destruct (IH r1 w1) as (T & C). rewrite T, C, T1, C1.
    unfold omap. destruct entry; simpl; lia.
Qed.

Lemma processGroup_entries j g w :
  total (processGroup out j g w).1 = length (group_entries out j g)
  ∧ counted (processGroup out j g w).1 = length (omap id (group_entries out j g)).
Proof.
  unfold processGroup, group_entries.
  destruct (readMembersJson out j g) as [mj|]; [|done].
  pose proof (processMembers_moves_counters (metadata mj) (members mj)
                (mkResult j g 0 0 0 (length (members mj))) w) as (T & C).
  by rewrite T, C.
Qed.

Lemma processGroups_entries j gs acc w :
  let acc' := (processGroups out j gs acc w).1 in
  sum_of total acc' = sum_of total acc + length (g ← gs; group_entries out j g)
  ∧ sum_of counted acc'
    = sum_of counted acc + length (omap id (g ← gs; group_entries out j g)).
Proof.
  revert acc w. induction gs as [|g gs IH]; intros acc w; simpl.
  - lia.
  - unfold bind. destruct (processGroup out j g w) as [r w1] eqn:E.
    pose proof (processGroup_entries j g w) as (T & C). rewrite E in T, C.
    simpl in T, C. destruct (IH (acc ++ [r]) w1) as (T' & C').
    rewrite T', C', !sum_of_snoc, T, C, omap_app, !length_app.
    unfold mbind. lia.
Qed.

Lemma processJobs_entries js acc w :
  let acc' := (processJobs out js acc w).1 in
  let entries := j ← js; g ← getGroupDirectories out j; group_entries out j g in
  sum_of total acc' = sum_of total acc + length entries
  ∧ sum_of counted acc' = sum_of counted acc + length (omap id entries).
Proof.
  revert acc w. induction js as [|j js IH]; intros acc w; simpl.
  - lia.
  - unfold bind.
    destruct (processGroups out j (getGroupDirectories out j) acc w)
      as [acc1 w1] eqn:E.
    pose proof (processGroups_entries j (getGroupDirectories out j) acc w)
      as (T & C). rewrite E in T, C. simpl in T, C.
    destruct (IH acc1 w1) as (T' & C').
    rewrite T', C', T, C, omap_app, !length_app. unfold mbind. lia.
Qed.

Lemma sum_of_counted_split l :
  sum_of counted l = sum_of success l + sum_of skipped l + sum_of failed l.
Proof.
  induction l as [|r l IH]; [done|]. rewrite !sum_of_cons, IH. unfold counted. lia.
Qed.

(** X15.  The overall summary of [main], for any catalog and any network.
    There is none exactly when no job directory is found.  Otherwise the
    total is the number of entries of the readable [members.json] files in
    the walk, and success, skipped and failed add up to the number of those
    entries that are not null. *)
Theorem run_totals_count_entries w :
  match (main out w).1.2 with
  | None => getJobDirectories out = []
  | Some t =>
      totalMembers t = length (catalog_members out)
      ∧ totalSuccess t + totalSkipped t + totalFailed t
        = length (omap id (catalog_members out))
  end.
Proof.
  unfold main. destruct (getJobDirectories out) as [|j js] eqn:EJ; [done|].
  unfold bind. destruct (processJobs out (j :: js) [] w) as [acc w1] eqn:E.
  pose proof (processJobs_entries (j :: js) [] w) as (T & C).
  rewrite E in T, C. cbn zeta in T, C.
  assert ((j0 ← j :: js; g ← getGroupDirectories out j0; group_entries out j0 g)
          = catalog_members out) as HC.
  { unfold catalog_members. by rewrite EJ. }
  rewrite HC in T, C. rewrite sum_of_counted_split in C.
  case_bool_decide; simpl; (split; [exact T|exact C]).
Qed.

End RunTotals.


(** ** A second pass over a record *)

Lemma threads_with_insert yid d d' k row :
  threads d' = <[k := row]> (threads d) →
  youtube_id row = yid →
  (∀ k' r', (k', r') ∈ threads_with yid d → k' = k) →
  threads_with yid d' = [(k, row)].
Proof.
  intros Hd' Hy Honly. apply singleton_list.
  { unfold threads_with. apply NoDup_filter, NoDup_map_to_list. }
  intros [k' r']. unfold threads_with at 1. rewrite list_elem_of_filter.
  rewrite elem_of_map_to_list, Hd'. simpl. rewrite lookup_insert_Some. split.
  - intros [Hyid [[<- <-]|[Hne Hk']]]; [done|].
    exfalso. apply Hne. symmetry. apply (Honly k' r').
    apply list_elem_of_filter. split; [done|]. by apply elem_of_map_to_list.
  - intros [= -> ->]. split; [done|]. by left.
Qed.

Lemma no_blank_expected (joined_rows : list (option string)) expected :
  omap id joined_rows = expected → "" ∉ expected →
  omap truthy joined_rows = expected.
Proof.
  intros <- Hb. induction joined_rows as [|[[|a s]|] l IH]; simpl in *; try done.
  - exfalso. apply Hb. left.
  - f_equal. apply IH. intros Hin. apply Hb. by right.
  - by apply IH.
Qed.

Lemma tagsMatch_refl l : tagsMatch l l = true.
Proof. by apply tagsMatch_Permutation. Qed.

Section SecondRun.

Variable out : Outside.

(** A record whose thread passes the no-op test is only read. *)
Lemma createThread_quiet_matched member meta info k r d tr t :
  resolve out (m_youtube_id member) = Some info →
  threads_with (channelId info) d = [(k, r)] →
  name r = m_name member →
  youtube_title r = title info →
  tagsMatch (expectedTagNames member meta) (currentTagNames (Some (joined k d)))
  = true →
  ∃ evs, Forall is_read evs
    ∧ createThread out member meta (mkWorld d [] tr t)
      = (true, mkWorld d [] (tr ++ evs) t).
Proof.
  intros HR HW Hn Ht HP.
  assert (threads d !! k = Some r) as Hk.
  { apply (threads_with_lookup (channelId info)). rewrite HW. set_solver. }
  destruct (getChannelInfo_quiet out (m_youtube_id member) d
              (tr ++ [Processing (m_name member) (m_youtube_id member)]) t)
    as (pre & Fpre & EC).
  destruct (syncExisting_quiet out member meta info k d
              ((tr ++ [Processing (m_name member) (m_youtube_id member)]) ++ pre
               ++ [Ev (ThreadsSelectByYoutubeId (channelId info)) (Row k)]) t r Hk)
    as (d2 & pre2 & _ & _ & _ & _ & _ & Hsame & ES).
  destruct (Hsame Hn Ht) as [-> ->].
  rewrite HP in ES. simpl in ES.
  exists (Processing (m_name member) (m_youtube_id member) :: pre
          ++ [Ev (ThreadsSelectByYoutubeId (channelId info)) (Row k);
              Ev (ThreadsSelectById k) Body; Ev (ThreadTagsSelect k) Body]).
  split.
  - constructor; [done|]. apply Forall_app. split; [done|]. by repeat constructor.
  - unfold createThread, bind, emit. simpl.
    rewrite (resolve_nonempty _ _ _ HR). simpl. rewrite EC, HR.
    unfold threads_select_by_youtube_id. rewrite serve_quiet. simpl.
    rewrite HW. simpl. rewrite <- !app_assoc in ES. rewrite <- !app_assoc.
    exact ES.
Qed.

(** What a successful [createThread] leaves behind on a quiet network: one
    row for the channel, with the member's name and the channel's title,
    that passes the no-op test on its tags. *)
Lemma createThread_quiet_settles member meta d tr t info :
  tags_fresh d → links_fresh d →
  resolve out (m_youtube_id member) = Some info →
  length (threads_with (channelId info) d) ≤ 1 →
  "" ∉ expectedTagNames member meta →
  (createThread out member meta (mkWorld d [] tr t)).1 = true →
  let w1 := (createThread out member meta (mkWorld d [] tr t)).2 in
  net w1 = [] ∧ clock w1 = t
  ∧ ∃ k r, threads_with (channelId info) (db w1) = [(k, r)]
           ∧ name r = m_name member ∧ youtube_title r = title info
           ∧ tagsMatch (expectedTagNames member meta)
               (currentTagNames (Some (joined k (db w1)))) = true.
Proof.
  intros HF HL HR Hone Hblank.
  pose proof (resolve_nonempty _ _ _ HR) as HN.
  destruct (createThread_quiet out member meta d tr t HN) as (pre & ->).
  rewrite HR. cbn zeta.
  destruct (threads_with (channelId info) d) as [|[k r] [|x l]] eqn:EW;
    simpl in Hone; [| |lia]; simpl.
  - (* created *)
    set (tr' := tr ++ pre ++ _).
    destruct (createNew out member meta info (mkWorld d [] tr' t)) as [b w1] eqn:E.
    simpl. intros ->.
    assert (calm t w1) as [HN1 HC1].
    { refine (keeps_createNew out (calm t) _ member meta info
                (mkWorld d [] tr' t) true w1 _ E); [|by split].
      intros. apply keeps_calm_serve. }
    split; [done|]. split; [done|].
    pose proof (createNew_quiet out member meta info d tr' t w1 HF HL E)
      as (r' & Hk & Hy & Htags).
    pose proof (createNew_quiet_row out member meta info d tr' t w1 E) as [Hrow _].
    exists (next_key d), (mkThread (m_name member) (channelId info) (title info)
                           (avatarPath (next_key d) t)).
    split; [|split; [done|split; [done|]]].
    + eapply threads_with_insert; [exact Hrow|done|].
      intros k' r0 Hin. rewrite EW in Hin. by apply elem_of_nil in Hin.
    + simpl. unfold tag_names in Htags.
      rewrite (no_blank_expected _ _ Htags Hblank). apply tagsMatch_refl.
  - (* synchronised *)
    set (tr' := tr ++ pre ++ _).
    assert ((k, r) ∈ threads_with (channelId info) d) as Hin by (rewrite EW; left).
    apply threads_with_lookup in Hin as [Hk Hy].
    destruct (syncExisting out member meta info k (mkWorld d [] tr' t))
      as [b w1] eqn:E.
    simpl. intros ->.
    assert (calm t w1) as [HN1 HC1].
    { refine (keeps_syncExisting out (calm t) _ member meta info k
                (mkWorld d [] tr' t) true w1 _ E); [|by split].
      intros. apply keeps_calm_serve. }
    split; [done|]. split; [done|].
    pose proof (syncExisting_quiet_threads out member meta info k d tr' t r Hk)
      as Hrow.
    rewrite E in Hrow. simpl in Hrow.
    exists k, (synced member info r).
    split; [|split; [done|split; [done|]]].
    + eapply threads_with_insert; [exact Hrow|done|].
      intros k' r0 Hin. rewrite EW in Hin. by apply list_elem_of_singleton in Hin as [= -> _].
    + destruct (tagsMatch (expectedTagNames member meta)
                  (currentTagNames (Some (joined k d)))) eqn:EM.
      * destruct (syncExisting_quiet out member meta info k d tr' t r Hk)
          as (d2 & pre2 & Htg & Htt & _ & _ & _ & _ & ES).
        rewrite EM, E in ES. injection ES as ->. simpl.
        unfold joined, tags_of. rewrite Htg, Htt. exact EM.
      * pose proof (syncExisting_rebuilds out member meta info k d tr' t r HF Hk EM)
          as Hreb.
        rewrite E in Hreb. destruct (Hreb eq_refl) as [Htags _].
        simpl in *. unfold tag_names in Htags.
        rewrite (no_blank_expected _ _ Htags Hblank). apply tagsMatch_refl.
Qed.

Lemma unique_at_most_one yid d :
  unique_channel_ids d → length (threads_with yid d) ≤ 1.
Proof.
  intros HU.
  destruct (threads_with yid d) as [|[k1 r1] [|[k2 r2] l]] eqn:E; simpl; try lia.
  exfalso.
  assert (NoDup (threads_with yid d)) as ND.
  { unfold threads_with. apply NoDup_filter, NoDup_map_to_list. }
  rewrite E in ND.
  assert ((k1, r1) ∈ threads_with yid d) as H1 by (rewrite E; set_solver).
  assert ((k2, r2) ∈ threads_with yid d) as H2 by (rewrite E; set_solver).
  apply threads_with_lookup in H1 as [H1 Hy1], H2 as [H2 Hy2].
  assert (k1 = k2) as -> by (eapply HU; [done..|congruence]).
  assert (r1 = r2) as -> by congruence.
  apply NoDup_cons in ND as [ND _]. set_solver.
Qed.

(** X16.  Processing a record twice.  On a quiet network, from a thread
    table with one row per channel, once a record whose expected tag names
    are not empty strings has been processed successfully, processing it
    again succeeds, only reads, and leaves the database as the first pass
    left it (keys handed out by the store being fresh). *)
Theorem second_pass_only_reads member meta w :
  quiet w → tags_fresh (db w) → links_fresh (db w) →
  unique_channel_ids (db w) →
  "" ∉ expectedTagNames member meta →
  (createThread out member meta w).1 = true →
  let w1 := (createThread out member meta w).2 in
  (createThread out member meta w1).1 = true
  ∧ db (createThread out member meta w1).2 = db w1
  ∧ Forall is_read (new_events w1 (createThread out member meta w1).2).
Proof.
  intros HQ HF HL HU Hblank. destruct w as [d nt tr t]. unfold quiet in HQ.
  simpl in HQ, HF, HL, HU. subst nt.
  destruct (nonempty (m_youtube_id member)) eqn:HN.
  2:{ intros _. unfold createThread, bind, emit. simpl. rewrite HN. simpl.
      split; [done|]. split; [done|].
      unfold new_events. simpl. rewrite drop_app_length. by repeat constructor. }
  destruct (resolve out (m_youtube_id member)) as [info|] eqn:HR.
  2:{ destruct (createThread_quiet out member meta d tr t HN) as (pre & E).
      rewrite HR in E. by rewrite E. }
  intros Hok.
  pose proof (createThread_quiet_settles member meta d tr t info HF HL HR
                (unique_at_most_one _ _ HU) Hblank Hok) as Hs.
  cbn zeta in *.
  destruct (createThread out member meta (mkWorld d [] tr t)) as [b w1].
  simpl in *. destruct w1 as [d1 n1 tr1 t1]. simpl in Hs.
  destruct Hs as (-> & -> & k & r & HW & Hn & Ht & HM).
  destruct (createThread_quiet_matched member meta info k r d1 tr1 t HR HW Hn Ht HM)
    as (evs & Fevs & ->).
  simpl. split; [done|]. split; [done|].
  unfold new_events. simpl. by rewrite drop_app_length.
Qed.

End SecondRun.

(** ** What a run never removes *)

Section Growth.

Variable out : Outside.
Variable d0 : Db.

Let I := keeps_tags_and_objects d0.

Lemma grows_frame d th tt nk :
  next_key d ≤ nk → I d → I (mkDb th (tags d) tt (bucket d) nk).
Proof.
  intros Hnk (HF & HT & HB). split; [|done].
  intros k Hk. simpl in *. apply HF in Hk. lia.
Qed.

Lemma grows_new_tag d n :
  I d → I (mkDb (threads d) (<[next_key d := n]> (tags d)) (thread_tags d)
             (bucket d) (S (next_key d))).
Proof.
  intros (HF & HT & HB). repeat split; [|intros k x Hk; simpl|done].
  - intros k [x Hk]. simpl in *.
    apply lookup_insert_Some in Hk as [[<- _]|[_ Hk]]; [lia|].
    assert (k < next_key d) by (apply HF; eauto). lia.
  - rewrite lookup_insert_ne; [by apply HT|]. intros <-.
    assert (next_key d < next_key d) by (apply HF; eauto). lia.
Qed.

Lemma grows_race_tag n d : I d → I (race_tag n d).
Proof.
  intros HI. unfold race_tag. destruct (tags_named n d); [|done].
  by apply grows_new_tag.
Qed.

Lemma grows_getOrCreateTag n : preserves I (getOrCreateTag out n).
Proof.
  unfold getOrCreateTag, tags_select_by_name, tags_insert.
  apply preserves_bind; [apply preserves_serve; [apply grows_race_tag|done]|].
  intros [k|]; [apply preserves_ret|].
  apply preserves_serve; [apply grows_race_tag|].
  intros d HI. destruct (_ && _); [done|]. by apply grows_new_tag.
Qed.

Lemma grows_associateTagsWithThread k names :
  preserves I (associateTagsWithThread out k names).
Proof.
  unfold associateTagsWithThread. destruct names as [|n names].
  { apply preserves_ret. }
  apply preserves_bind.
  - generalize (n :: names) as l, (@nil Key) as ids.
    induction l as [|x l IH]; intros ids; simpl; [apply preserves_ret|].
    apply preserves_bind; [apply grows_getOrCreateTag|].
    intros [id|]; [apply IH|apply preserves_ret].
  - intros [ids|]; [|apply preserves_ret].
    apply preserves_serve; [apply grows_race_tag|].
    intros d HI. destruct (_ && _); [done|]. by apply grows_frame.
Qed.

Lemma grows_syncExisting member meta info k :
  preserves I (syncExisting out member meta info k).
Proof.
  unfold syncExisting, threads_select_by_id, threads_update_name,
    threads_update_title, threads_update, thread_tags_select, thread_tags_delete.
  apply preserves_bind; [apply preserves_serve; [apply grows_race_tag|done]|].
  intros [[cn ct]|]; [|apply preserves_ret].
  apply preserves_bind.
  { case_bool_decide; [|apply preserves_ret].
    apply preserves_serve; [apply grows_race_tag|].
    intros d HI. by apply grows_frame. }
  intros ok1. destruct (negb ok1); [apply preserves_ret|].
  apply preserves_bind.
  { case_bool_decide; [|apply preserves_ret].
    apply preserves_serve; [apply grows_race_tag|].
    intros d HI. by apply grows_frame. }
  intros ok2. destruct (negb ok2); [apply preserves_ret|].
  apply preserves_bind; [apply preserves_serve; [apply grows_race_tag|done]|].
  intros data. destruct (tagsMatch _ _); [apply preserves_ret|].
  apply preserves_bind.
  { apply preserves_serve; [apply grows_race_tag|].
    intros d HI. by apply grows_frame. }
  intros deleted. destruct (negb deleted); [apply preserves_ret|].
  destruct (expectedTagNames member meta) eqn:E; [apply preserves_ret|].
  rewrite <- E. apply grows_associateTagsWithThread.
Qed.

Lemma grows_createNew member meta info :
  preserves I (createNew out member meta info).
Proof.
  unfold createNew, downloadImage, http_get, threads_insert, storage_upload,
    threads_delete, threads_update_avatar, threads_update.
  apply preserves_bind; [apply preserves_serve; [apply grows_race_tag|done]|].
  intros [blob|]; [|apply preserves_ret].
  apply preserves_bind.
  { apply preserves_serve; [apply grows_race_tag|].
    intros d HI. destruct (_ && _); [done|]. apply grows_frame; [lia|done]. }
  intros [id|]; [|apply preserves_ret].
  apply preserves_bind; [by intros w a w' HI [= _ <-]|]. intros ts. simpl.
  apply preserves_bind.
  { apply preserves_serve; [apply grows_race_tag|].
    intros d (HF & HT & HB).
    destruct (bucket d !! avatarPath id ts) eqn:EB; [done|].
    repeat split; simpl; try done.
    intros p b Hp. rewrite lookup_insert_ne; [by apply HB|].
    intros <-. apply HB in Hp. congruence. }
  intros uploaded. destruct (negb uploaded).
  - apply preserves_bind; [|intros _; apply preserves_ret].
    apply preserves_serve; [apply grows_race_tag|].
    intros d HI. by apply grows_frame.
  - apply preserves_bind.
    { apply preserves_serve; [apply grows_race_tag|].
      intros d HI. by apply grows_frame. }
    intros updated. destruct (negb updated); [apply preserves_ret|].
    destruct (expectedTagNames member meta) eqn:E; [apply preserves_ret|].
    rewrite <- E. apply grows_associateTagsWithThread.
Qed.

Lemma grows_createThread member meta :
  preserves I (createThread out member meta).
Proof.
  unfold createThread, emit.
  apply preserves_bind; [by intros w a w' HI [= _ <-]|]. intros _.
  destruct (negb _); [apply preserves_ret|].
  apply preserves_bind.
  { unfold getChannelInfo, yt_fetch.
    destruct (String.prefix "UC" _); [|destruct (String.prefix "@" _)].
    - apply preserves_bind; [|intros; apply preserves_ret].
      apply preserves_serve; [apply grows_race_tag|done].
    - apply preserves_bind; [|intros; apply preserves_ret].
      apply preserves_serve; [apply grows_race_tag|done].
    - apply preserves_ret. }
  intros [info|]; [|apply preserves_ret].
  apply preserves_bind; [apply preserves_serve; [apply grows_race_tag|done]|].
  intros [id|]; [apply grows_syncExisting|apply grows_createNew].
Qed.

Lemma grows_processMember meta entry r :
  preserves I (processMember out meta entry r).
Proof.
  destruct entry as [member|]; [|apply preserves_ret]. unfold processMember.
  apply preserves_bind; [apply grows_createThread|]. intros ok.
  apply preserves_bind.
  2:{ intros r'. apply preserves_bind; [|intros; apply preserves_ret].
      intros w a w' HI E. unfold sleep in E. by simplify_eq. }
  destruct ok; [|apply preserves_ret].
  destruct (negb _); [apply preserves_ret|].
  apply preserves_bind; [|intros [k|]; apply preserves_ret].
  apply preserves_serve; [apply grows_race_tag|done].
Qed.

Lemma grows_processJobs js acc : preserves I (processJobs out js acc).
Proof.
  revert acc. induction js as [|j js IH]; intros acc; simpl; [apply preserves_ret|].
  apply preserves_bind; [|intros; apply IH].
  generalize (getGroupDirectories out j) as gs. intros gs. revert acc.
  induction gs as [|g gs IHg]; intros acc; simpl; [apply preserves_ret|].
  apply preserves_bind; [|intros; apply IHg].
  unfold processGroup. destruct (readMembersJson out j g) as [mj|];
    [|apply preserves_ret].
  generalize (mkResult j g 0 0 0 (length (members mj))) as r.
  induction (members mj) as [|entry l IHl]; intros r; simpl; [apply preserves_ret|].
  apply preserves_bind; [apply grows_processMember|intros; apply IHl].
Qed.

End Growth.

(** X17.  Tags and stored avatars only accumulate.  Whatever the network
    does, a run of [main] never deletes or renames a tag and never deletes
    or overwrites an object of the bucket: every tag and every object that
    was there before the run is there, unchanged, after it (keys handed out
    by the store being fresh). *)
Theorem tags_and_avatars_only_accumulate out w :
  tags_fresh (db w) →
  (∀ k x, tags (db w) !! k = Some x → tags (db (main out w).2) !! k = Some x)
  ∧ (∀ p b, bucket (db w) !! p = Some b →
       bucket (db (main out w).2) !! p = Some b).
Proof.
  intros HF. destruct (main out w) as [res w'] eqn:E. simpl.
  cut (keeps_tags_and_objects (db w) (db w')); [by intros (_ & ? & ?)|].
  unfold main in E. destruct (getJobDirectories out) as [|j js].
  { injection E as _ <-. by repeat split. }
  apply bind_inv in E as (acc & w1 & E1 & E).
  assert (keeps_tags_and_objects (db w) (db w1)) as HI.
  { eapply grows_processJobs; [|exact E1]. by repeat split. }
  case_bool_decide; by injection E as _ <-.
Qed.

Section LinksFrame.

Variable out : Outside.

Lemma other_links_frame k l0 d d' :
  thread_tags d' = thread_tags d → other_links k l0 d → other_links k l0 d'.
Proof. unfold other_links. by intros ->. Qed.

Lemma race_tag_thread_tags n d : thread_tags (race_tag n d) = thread_tags d.
Proof. unfold race_tag. by destruct (tags_named n d). Qed.

Lemma other_links_race k l0 n d :
  other_links k l0 d → other_links k l0 (race_tag n d).
Proof. apply other_links_frame, race_tag_thread_tags. Qed.

Lemma other_links_getOrCreateTag k l0 n :
  preserves (other_links k l0) (getOrCreateTag out n).
Proof.
  unfold getOrCreateTag, tags_select_by_name, tags_insert.
  apply preserves_bind; [apply preserves_serve; [apply other_links_race|done]|].
  intros [id|]; [apply preserves_ret|].
  apply preserves_serve; [apply other_links_race|].
  intros d HI. destruct (_ && _); [done|]. by eapply other_links_frame.
Qed.

Lemma other_links_associateTagsWithThread k l0 names :
  preserves (other_links k l0) (associateTagsWithThread out k names).
Proof.
  unfold associateTagsWithThread. destruct names as [|n names].
  { apply preserves_ret. }
  apply preserves_bind.
  - generalize (n :: names) as l, (@nil Key) as ids.
    induction l as [|x l IH]; intros ids; simpl; [apply preserves_ret|].
    apply preserves_bind; [apply other_links_getOrCreateTag|].
    intros [id|]; [apply IH|apply preserves_ret].
  - intros [ids|]; [|apply preserves_ret].
    apply preserves_serve; [apply other_links_race|].
    intros d HI. destruct (_ && _); [done|].
    unfold other_links in *. simpl. rewrite filter_app, HI.
    assert (filter (λ tt : Key * Key, tt.1 ≠ k) ((λ tagId, (k, tagId)) <$> ids)
            = []) as ->; [|by rewrite app_nil_r].
    induction ids as [|id ids IH]; simpl; [done|].
    by rewrite filter_cons_False by (simpl; auto).
Qed.

Lemma other_links_syncExisting member meta info k l0 :
  preserves (other_links k l0) (syncExisting out member meta info k).
Proof.
  unfold syncExisting, threads_select_by_id, threads_update_name,
    threads_update_title, threads_update, thread_tags_select, thread_tags_delete.
  apply preserves_bind; [apply preserves_serve; [apply other_links_race|done]|].
  intros [[cn ct]|]; [|apply preserves_ret].
  apply preserves_bind.
  { case_bool_decide; [|apply preserves_ret].
    apply preserves_serve; [apply other_links_race|].
    intros d HI. by eapply other_links_frame. }
  intros ok1. destruct (negb ok1); [apply preserves_ret|].
  apply preserves_bind.
  { case_bool_decide; [|apply preserves_ret].
    apply preserves_serve; [apply other_links_race|].
    intros d HI. by eapply other_links_frame. }
  intros ok2. destruct (negb ok2); [apply preserves_ret|].
  apply preserves_bind; [apply preserves_serve; [apply other_links_race|done]|].
  intros data. destruct (tagsMatch _ _); [apply preserves_ret|].
  apply preserves_bind.
  { apply preserves_serve; [apply other_links_race|].
    intros d HI. unfold other_links in *. simpl. rewrite <- HI.
    apply filter_all, Forall_forall. by intros tt [? _]%list_elem_of_filter. }
  intros deleted. destruct (negb deleted); [apply preserves_ret|].
  destruct (expectedTagNames member meta) eqn:E; [apply preserves_ret|].
  rewrite <- E. apply other_links_associateTagsWithThread.
Qed.

(** X18.  Synchronising one thread leaves the links of every other thread
    alone, whatever the network does: for any other thread, the rows of
    [thread_tags] are the same, in the same order, before and after. *)
Theorem sync_leaves_other_threads_links member meta info k w k' :
  k' ≠ k →
  tags_of k' (db (syncExisting out member meta info k w).2) = tags_of k' (db w).
Proof.
  intros Hk'. destruct (syncExisting out member meta info k w) as [b w'] eqn:E.
  simpl.
  assert (other_links k (thread_tags (db w)) (db w')) as HI.
  { eapply other_links_syncExisting; [|exact E]. done. }
  unfold other_links in HI. unfold tags_of.
  assert (∀ l : list (Key * Key),
            filter (λ tt, tt.1 = k') l
            = filter (λ tt, tt.1 = k') (filter (λ tt : Key * Key, tt.1 ≠ k) l))
    as Hsplit.
  { intros l. induction l as [|tt l IH]; [done|].
    destruct (decide (tt.1 = k')) as [Heq|Hne].
    - rewrite filter_cons_True by done.
      rewrite (filter_cons_True (λ tt, tt.1 ≠ k)) by congruence.
      rewrite filter_cons_True by done. by rewrite IH.
    - rewrite filter_cons_False by done.
      destruct (decide (tt.1 ≠ k)).
      + rewrite (filter_cons_True (λ tt, tt.1 ≠ k)) by done.
        by rewrite filter_cons_False by done.
      + by rewrite (filter_cons_False (λ tt, tt.1 ≠ k)) by done. }
  by rewrite (Hsplit (thread_tags (db w'))), HI, <- Hsplit.
Qed.

End LinksFrame.


(** * The single-file revision *)

Section Revisions.

Variable out : Outside.

Lemma single_file_createThread_with_id member meta w :
  nonempty (m_youtube_id member) = true →
  SingleFile.createThread out member meta w = createThread out member meta w.
Proof.
  intros HN. unfold SingleFile.createThread, createThread, bind, emit.
  by rewrite HN.
Qed.

(** X19.  The two revisions of [createThread] part ways only on a member
    without YouTube id: the single-file revision reports a failure, the
    batch revision a success; neither makes a remote call.  On every other
    member they are the same computation. *)
Theorem revisions_differ_on_members_without_id member meta w :
  if nonempty (m_youtube_id member)
  then SingleFile.createThread out member meta w = createThread out member meta w
  else
    let w' := mkWorld (db w) (net w)
                (trace w ++ [Processing (m_name member) (m_youtube_id member)])
                (clock w) in
    SingleFile.createThread out member meta w = (false, w')
    ∧ createThread out member meta w = (true, w').
Proof.
  unfold SingleFile.createThread, createThread, bind, emit.
  destruct (nonempty (m_youtube_id member)) eqn:EN; simpl; [done|].
  destruct (m_youtube_id member); [|done]. done.
Qed.

(** X20.  On a [members] array without null entry and without empty id,
    the loop of the single-file [main] is the loop of [processGroup]: the
    same calls, the same writes, the same waits, the same counters. *)
Theorem single_file_loop_is_batch_loop meta l r w :
  Forall (λ entry, ∃ m, entry = Some m ∧ nonempty (m_youtube_id m) = true) l →
  SingleFile.processMembers out meta l (counts_of r) w
  = (Some (counts_of (processMembers out meta l r w).1),
     (processMembers out meta l r w).2).
Proof.
  intros HF. revert r w. induction HF as [|entry l (m & -> & HN) _ IH]; intros r w.
  - done.
  - simpl. unfold bind at 1 4 6. unfold processMember, bind.
    rewrite (single_file_createThread_with_id m meta w HN).
    destruct (createThread out m meta w) as [ok w1]. destruct ok.
    + rewrite HN. simpl.
      destruct (threads_select_by_youtube_id (m_youtube_id m) w1) as [[k|] w2];
        simpl; [exact (IH (bump_skipped r) _)|exact (IH (bump_success r) _)].
    + simpl. exact (IH (bump_failed r) _).
Qed.

Lemma single_file_processMembers_counts meta l c w res w' :
  SingleFile.processMembers out meta l c w = (res, w') →
  match res with
  | Some c' => (None ∉ l) ∧ handled c' = handled c + length l
  | None => None ∈ l
  end.
Proof.
  revert c w. induction l as [|[m|] l IH]; intros c w; simpl.
  - intros [= <- <-]. split; [by intros ?%elem_of_nil|lia].
  - intros (ok & w1 & _ & E)%bind_inv.
    apply bind_inv in E as (c1 & w2 & E1 & E).
    apply bind_inv in E as (u & w3 & _ & E).
    assert (handled c1 = S (handled c)) as Hc1.
    { destruct ok.
      - apply bind_inv in E1 as ([k|] & w4 & _ & E1); injection E1 as <- _;
          unfold handled; simpl; lia.
      - injection E1 as <- _. unfold handled. simpl. lia. }
    apply IH in E. destruct res as [c'|].
    + destruct E as [Hn Hs]. split; [|simpl; lia].
      intros [?|?]%elem_of_cons; done.
    + by right.
  - intros [= <- <-]. by left.
Qed.

(** X21.  The exit status of the single-file script.  Without an argument, or
    when the file is missing or does not parse, it exits with code 1 before
    any remote call.  A null entry in [members] ends the run with code 1
    and no summary.  Otherwise every member moves exactly one counter and
    the code is 1 exactly when some member failed. *)
Theorem single_file_exit_code args files w :
  let code := (SingleFile.main out args files w).1.1 in
  let counts := (SingleFile.main out args files w).1.2 in
  match (λ dataFilePath, files dataFilePath) <$> head args with
  | Some (SingleFile.Parsed data) =>
      match counts with
      | Some c =>
          (None ∉ members data)
          ∧ SingleFile.successCount c + SingleFile.skipCount c
            + SingleFile.failCount c = length (members data)
          ∧ code = (if bool_decide (SingleFile.failCount c = 0) then 0 else 1)
      | None => None ∈ members data ∧ code = 1
      end
  | _ => code = 1 ∧ counts = None ∧ (SingleFile.main out args files w).2 = w
  end.
Proof.
  unfold SingleFile.main. destruct args as [|p args]; simpl; [done|].
  destruct (files p) as [| |data]; simpl; [done..|].
  unfold bind.
  destruct (SingleFile.processMembers _ _ _ _ w) as [[c|] w1] eqn:E;
    apply single_file_processMembers_counts in E; simpl in *.
  - destruct E as [Hn Hs]. unfold handled in Hs. simpl in Hs.
    destruct (bool_decide (0 < SingleFile.failCount c)) eqn:EF; simpl;
      (split; [done|]; split; [done|]).
    + apply bool_decide_eq_true in EF. rewrite bool_decide_eq_false_2; [done|lia].
    + apply bool_decide_eq_false in EF. rewrite bool_decide_eq_true_2; [done|lia].
  - done.
Qed.

End Revisions.

(** * The generator of [master.json] *)


Lemma convertToMasterMembers_entries mj :
  match Master.convertToMasterMembers mj with
  | None => None ∈ members mj
  | Some l =>
      length l = length (members mj)
      ∧ listed l = announced (members mj)
      ∧ Forall (λ mm, Master.mm_job mm = job (metadata mj)
                      ∧ Master.mm_group mm = group (metadata mj)
                      ∧ Master.mm_options mm ≠ Some []) l
  end.
Proof.
  unfold Master.convertToMasterMembers.
  induction (members mj) as [|[m|] l IH]; simpl.
  - done.
  - destruct (mapM _ l) as [l'|]; simpl.
    + destruct IH as (HL & HN & HF). split; [by rewrite HL|].
      split; [unfold announced in *; simpl; by rewrite HN|].
      constructor; [|done]. simpl. repeat split.
      by destruct (m_options m) as [[|o os]|].
    + by right.
  - by left.
Qed.

(** X22.  [convertToMasterMembers] yields one master member per entry, in
    order, each with the name and id of its entry and stamped with the job
    and group of the file's metadata; [options] is carried over when it is a
    non-empty array and left out otherwise, so it is never an empty array.
    It throws exactly when the array has a null entry. *)
Theorem convertToMasterMembers_keeps_order_and_stamps membersJson :
  match Master.convertToMasterMembers membersJson with
  | None => None ∈ members membersJson
  | Some l =>
      length l = length (members membersJson)
      ∧ listed l = announced (members membersJson)
      ∧ Forall (λ mm, Master.mm_job mm = job (metadata membersJson)
                      ∧ Master.mm_group mm = group (metadata membersJson)
                      ∧ Master.mm_options mm ≠ Some []) l
      ∧ Forall2 (λ entry mm,
                   ∃ m, entry = Some m
                        ∧ (Master.mm_options mm = m_options m
                           ∨ Master.mm_options mm = None
                             ∧ default [] (m_options m) = []))
          (members membersJson) l
  end.
Proof.
  pose proof (convertToMasterMembers_entries membersJson) as H.
  unfold Master.convertToMasterMembers in *.
  destruct (mapM _ (members membersJson)) as [l|] eqn:E; [|done].
  destruct H as (HL & HN & HF). repeat split; try done.
  apply mapM_Some in E. clear -E.
  induction E as [|entry mm l1 l2 H _ IH]; constructor; [|done].
  destruct entry as [m|]; [|done]. injection H as <-. exists m. split; [done|].
  simpl. destruct (m_options m) as [[|o os]|]; simpl; auto.
Qed.

Section MasterRun.

Variable out : Outside.




End MasterRun.


(** * The generator of [jobs.json] and [groups.json] *)

Section Metadata.

Import UpdateMetadata.

Lemma existingGroupsMap_last existing n :
  existingGroupsMap (Some existing) !! n
  = last (filter (λ e, g_name e = n) (groups existing)).
Proof.
  unfold existingGroupsMap.
  induction (groups existing) as [|e l IH] using rev_ind; simpl; [done|].
  rewrite foldl_app, filter_app. simpl.
  destruct (decide (g_name e = n)) as [<-|Hne].
  - rewrite lookup_insert_eq. rewrite filter_cons_True by done.
    rewrite filter_nil. by rewrite last_snoc.
  - rewrite lookup_insert_ne by done. rewrite filter_cons_False by done.
    rewrite filter_nil. by rewrite app_nil_r.
Qed.

Lemma groupEntry_listing data j g :
  groupEntry data j (existingGroupsMap (readExistingGroupsJson data j)) g
  = listing data j (existing_groups data j) g.
Proof.
  unfold groupEntry, listing, displayName, existing_groups, recorded_source.
  destruct (readMembersJson data j g) as [mj|]; [|done]. f_equal.
  unfold or_else. destruct (truthy (md_source mj)); [done|].
  destruct (readExistingGroupsJson data j) as [existing|].
  - rewrite existingGroupsMap_last. simpl.
    by destruct (truthy (last _ ≫= g_source)).
  - simpl. rewrite lookup_empty. simpl. done.
Qed.

Lemma generateGroupsJson_fold (f : string → GroupMetadata) gs acc
    (P : gset string) :
  foldl (λ (acc : list GroupMetadata * gset string) groupName,
           (acc.1 ++ [f groupName], {[ g_name (f groupName) ]} ∪ acc.2))
        (acc, P) gs
  = (acc ++ (f <$> gs), list_to_set (g_name ∘ f <$> gs) ∪ P).
Proof.
  revert acc P. induction gs as [|g gs IH]; intros acc P; simpl.
  - rewrite app_nil_r. f_equal. set_solver.
  - rewrite IH. rewrite <- app_assoc. simpl. f_equal. set_solver.
Qed.

Lemma generateGroupsJson_groups data jobName groupNames :
  groups (generateGroupsJson data jobName groupNames)
  = (listing data jobName (existing_groups data jobName) <$> groupNames)
    ++ filter (λ e, g_name e ∉ displayName data jobName <$> groupNames)
         (existing_groups data jobName).
Proof.
  unfold generateGroupsJson.
  rewrite (generateGroupsJson_fold
             (groupEntry data jobName
                (existingGroupsMap (readExistingGroupsJson data jobName)))).
  simpl. f_equal.
  - apply list_fmap_ext. intros _ g _. apply groupEntry_listing.
  - unfold existing_groups.
    destruct (readExistingGroupsJson data jobName) as [existing|]; [|done].
    simpl. apply list_filter_iff. intros e.
    rewrite not_elem_of_union, elem_of_list_to_set.
    assert (∀ ex, g_name ∘ groupEntry data jobName ex <$> groupNames
                  = displayName data jobName <$> groupNames) as ->.
    { intros ex. apply list_fmap_ext. intros _ g _. simpl.
      unfold groupEntry, displayName.
      by destruct (readMembersJson data jobName g). }
    set_solver.
Qed.

Lemma truthy_idemp o : truthy (truthy o) = truthy o.
Proof. by destruct o as [[|a s]|]. Qed.

Lemma writeGroupsJson_reads data j content data' :
  writeGroupsJson data j content = Some data' →
  readExistingGroupsJson data' j = Some content
  ∧ (∀ g, g ≠ "groups.json" →
       readMembersJson data' j g = readMembersJson data j g)
  ∧ (∀ j', j' ≠ j → data' !! j' = data !! j').
Proof.
  unfold writeGroupsJson, readExistingGroupsJson, readMembersJson.
  destruct (data !! j) as [[|entries]|] eqn:Ej; try done.
  intros E.
  assert (data' = <[j := JDir (<["groups.json" := GFile (Some content)]> entries)]>
                    data) as ->.
  { destruct (entries !! "groups.json") as [[|]|]; by simplify_eq. }
  clear E. rewrite !lookup_insert_eq.
  split; [done|]. split.
  - intros g Hg. by rewrite lookup_insert_ne.
  - intros j' Hj'. by rewrite lookup_insert_ne.
Qed.

Lemma filter_listing_name data j E gs g :
  NoDup (displayName data j <$> gs) → g ∈ gs →
  filter (λ e, g_name e = displayName data j g) (listing data j E <$> gs)
  = [listing data j E g].
Proof.
  induction gs as [|x gs IH]; simpl; [by intros _ ?%elem_of_nil|].
  intros [Hx ND]%NoDup_cons [->|Hin]%elem_of_cons.
  - rewrite filter_cons_True by done. f_equal.
    apply filter_none. apply Forall_forall.
    intros e (g' & -> & Hg')%list_elem_of_fmap. simpl. intros Heq.
    apply Hx. rewrite <- Heq. apply list_elem_of_fmap. by exists g'.
  - rewrite filter_cons_False; [by apply IH|].
    simpl. intros Heq. apply Hx. rewrite Heq.
    apply list_elem_of_fmap. by exists g.
Qed.

Lemma generateGroupsJson_eq data jobName groupNames :
  generateGroupsJson data jobName groupNames
  = mkGroupsJson
      ((listing data jobName (existing_groups data jobName) <$> groupNames)
       ++ filter (λ e, g_name e ∉ displayName data jobName <$> groupNames)
            (existing_groups data jobName)).
Proof.
  pose proof (generateGroupsJson_groups data jobName groupNames) as H.
  destruct (generateGroupsJson data jobName groupNames). simpl in H.
  by rewrite H.
Qed.

(** ** Listings of a directory held as a finite map *)

Lemma sort_names_ext l l' : l ≡ₚ l' → sort_names l = sort_names l'.
Proof.
  intros HP.
  assert (Transitive name_le) by (intros a b c; apply name_le_trans).
  assert (AntiSymm (=) name_le) by (intros a b; apply String.leb_antisym).
  apply (StronglySorted_unique name_le); try apply sort_names_sorted.
  by rewrite !sort_names_Permutation.
Qed.

Lemma elem_of_kept {A} (keep : string → A → bool) (m : gmap string A) x :
  x ∈ omap (λ e : string * A, if keep e.1 e.2 then Some e.1 else None)
        (map_to_list m)
  ↔ ∃ a, m !! x = Some a ∧ keep x a = true.
Proof.
  rewrite list_elem_of_omap. split.
  - intros ([k a] & Hin & Hk). simpl in Hk. apply elem_of_map_to_list in Hin.
    destruct (keep k a) eqn:E; [|done]. injection Hk as <-. eauto.
  - intros (a & Hm & Hk). exists (x, a). split; [by apply elem_of_map_to_list|].
    simpl. by rewrite Hk.
Qed.

Lemma NoDup_kept {A} (keep : string → A → bool) (m : gmap string A) :
  NoDup (omap (λ e : string * A, if keep e.1 e.2 then Some e.1 else None)
           (map_to_list m)).
Proof.
  pose proof (NoDup_fst_map_to_list m) as ND.
  induction (map_to_list m) as [|[k a] l IH]; simpl in *; [constructor|].
  apply NoDup_cons in ND as [Hk ND]. destruct (keep k a); [|by apply IH].
  constructor; [|by apply IH].
  intros ([k' a'] & Hin & Hk')%list_elem_of_omap. simpl in Hk'.
  destruct (keep k' a'); [|done]. injection Hk' as ->.
  apply Hk. apply list_elem_of_fmap. by exists (k, a').
Qed.

Lemma elem_of_visible {A} (keep : string → A → bool) (m : gmap string A) x :
  x ∈ visible keep m ↔ ∃ a, m !! x = Some a ∧ keep x a = true.
Proof. unfold visible. by rewrite elem_of_sort_names, elem_of_kept. Qed.

Lemma NoDup_visible {A} (keep : string → A → bool) (m : gmap string A) :
  NoDup (visible keep m).
Proof. unfold visible. rewrite sort_names_Permutation. apply NoDup_kept. Qed.

Lemma visible_ext {A} (keep : string → A → bool) (m m' : gmap string A) :
  (∀ x, (∃ a, m !! x = Some a ∧ keep x a = true)
        ↔ (∃ a, m' !! x = Some a ∧ keep x a = true)) →
  visible keep m = visible keep m'.
Proof.
  intros H. unfold visible. apply sort_names_ext.
  apply NoDup_Permutation; try apply NoDup_kept.
  intros x. by rewrite !elem_of_kept.
Qed.

Lemma getJobDirectories_visible data :
  getJobDirectories data = visible keep_job data.
Proof.
  unfold getJobDirectories, visible. f_equal. apply list_omap_ext.
  apply Forall_Forall2_diag, Forall_forall. intros [n e] _. unfold keep_job. simpl.
  case_bool_decide; simpl; [done|]. by destruct (isValidDirectory _ _).
Qed.

Lemma getGroupDirectories_visible data j :
  getGroupDirectories data j
  = match data !! j with
    | Some (JDir entries) => visible keep_group entries
    | _ => []
    end.
Proof.
  unfold getGroupDirectories. destruct (data !! j) as [[|entries]|]; try done.
  unfold visible. f_equal. apply list_omap_ext.
  apply Forall_Forall2_diag, Forall_forall. intros [n e] _. unfold keep_group.
  simpl. case_bool_decide; simpl; [done|].
  destruct (isValidDirectory _ _); simpl; [|done]. by destruct (has_members_json e).
Qed.

(** ** What the writes leave alone *)

Lemma reads_of_job d d' j :
  d' !! j = d !! j →
  getGroupDirectories d' j = getGroupDirectories d j
  ∧ readExistingGroupsJson d' j = readExistingGroupsJson d j
  ∧ (∀ g, readMembersJson d' j g = readMembersJson d j g).
Proof.
  intros H. unfold getGroupDirectories, readExistingGroupsJson, readMembersJson.
  by rewrite H.
Qed.

Lemma generateGroupsJson_ext d d' j gs :
  readExistingGroupsJson d' j = readExistingGroupsJson d j →
  (∀ g, g ∈ gs → readMembersJson d' j g = readMembersJson d j g) →
  generateGroupsJson d' j gs = generateGroupsJson d j gs.
Proof.
  intros HE HM. rewrite !generateGroupsJson_eq. unfold existing_groups.
  rewrite HE.
  assert (∀ g, g ∈ gs → displayName d' j g = displayName d j g) as HD.
  { intros g Hin. unfold displayName. by rewrite HM. }
  f_equal. f_equal.
  - apply list_fmap_ext. intros i g Hi.
    assert (g ∈ gs) as Hin by (by eapply list_elem_of_lookup_2).
    unfold listing. by rewrite HD, HM.
  - assert (displayName d' j <$> gs = displayName d j <$> gs) as ->; [|done].
    apply list_fmap_ext. intros i g Hi. apply HD. by eapply list_elem_of_lookup_2.
Qed.

Lemma writeGroupsJson_inv d j c d' :
  writeGroupsJson d j c = Some d' →
  ∃ entries,
    d !! j = Some (JDir entries)
    ∧ d' = <[j := JDir (<["groups.json" := GFile (Some c)]> entries)]> d.
Proof.
  unfold writeGroupsJson. destruct (d !! j) as [[|entries]|]; try done.
  intros E. exists entries. split; [done|].
  destruct (entries !! "groups.json") as [[|]|]; by simplify_eq.
Qed.

Lemma writeGroupsJson_listing d j c d' :
  writeGroupsJson d j c = Some d' →
  getJobDirectories d' = getJobDirectories d
  ∧ ∀ j', getGroupDirectories d' j' = getGroupDirectories d j'.
Proof.
  intros (entries & Hj & ->)%writeGroupsJson_inv. split.
  - rewrite !getJobDirectories_visible. apply visible_ext. intros x.
    destruct (decide (x = j)) as [->|Hx].
    + rewrite lookup_insert_eq, Hj. split; intros (a & [= <-] & Hk); eauto.
    + by rewrite lookup_insert_ne.
  - intros j'. destruct (decide (j' = j)) as [->|Hj'].
    + rewrite !getGroupDirectories_visible, lookup_insert_eq, Hj.
      apply visible_ext. intros x.
      destruct (decide (x = "groups.json")) as [->|Hx].
      * split; intros (a & _ & Hk); unfold keep_group in Hk; simpl in Hk; done.
      * by rewrite lookup_insert_ne.
    + apply reads_of_job. by rewrite lookup_insert_ne.
Qed.

Lemma writeJobsJson_inv d c d' :
  writeJobsJson d c = Some d' →
  d' = <["jobs.json" := JFile (Some c)]> d
  ∧ is_job_dir <$> d !! "jobs.json" ≠ Some true.
Proof.
  unfold writeJobsJson. destruct (d !! "jobs.json") as [[|]|]; try done;
    intros [= <-]; by split.
Qed.

Lemma writeJobsJson_listing d c d' :
  writeJobsJson d c = Some d' →
  getJobDirectories d' = getJobDirectories d
  ∧ ∀ j, getGroupDirectories d' j = getGroupDirectories d j
         ∧ readExistingGroupsJson d' j = readExistingGroupsJson d j
         ∧ ∀ g, readMembersJson d' j g = readMembersJson d j g.
Proof.
  intros [-> Hnd]%writeJobsJson_inv. split.
  - rewrite !getJobDirectories_visible. apply visible_ext. intros x.
    destruct (decide (x = "jobs.json")) as [->|Hx].
    + split; intros (a & _ & Hk); unfold keep_job in Hk; simpl in Hk; done.
    + by rewrite lookup_insert_ne.
  - intros j. destruct (decide (j = "jobs.json")) as [->|Hj].
    + unfold getGroupDirectories, readExistingGroupsJson, readMembersJson.
      rewrite lookup_insert_eq.
      destruct (d !! "jobs.json") as [[|]|]; done.
    + apply reads_of_job. by rewrite lookup_insert_ne.
Qed.

Lemma not_groups_json_listed d j : "groups.json" ∉ getGroupDirectories d j.
Proof.
  rewrite getGroupDirectories_visible. destruct (d !! j) as [[|entries]|];
    try by intros ?%elem_of_nil.
  rewrite elem_of_visible. intros (a & _ & Hk). unfold keep_group in Hk. done.
Qed.

Lemma jobs_json_not_listed d : "jobs.json" ∉ getJobDirectories d.
Proof.
  rewrite getJobDirectories_visible, elem_of_visible.
  intros (a & _ & Hk). unfold keep_job in Hk. done.
Qed.

(** ** The run as a whole *)

Lemma written_ext d d' j : d' !! j = d !! j → written d' j = written d j.
Proof.
  intros H. unfold written. rewrite H.
  destruct (reads_of_job d d' j H) as (-> & HE & HM).
  destruct (d !! j) as [[|entries]|]; try done.
  destruct (getGroupDirectories d j) as [|g gs] eqn:EG; [done|].
  by rewrite (generateGroupsJson_ext d d' j (g :: gs)).
Qed.

Lemma writeAllGroups_written J d d' :
  NoDup J →
  writeAllGroups J d = Some d' →
  (∀ j, j ∈ J → d' !! j = written d j) ∧ (∀ j, j ∉ J → d' !! j = d !! j).
Proof.
  intros ND. revert d. induction ND as [|j rest Hj ND IH]; intros d; simpl.
  - intros [= <-]. split; [by intros j ?%elem_of_nil|done].
  - destruct (getGroupDirectories d j) as [|g gs] eqn:EG.
    + intros E. destruct (IH _ E) as [H1 H2]. split.
      * intros j' [->|Hin]%elem_of_cons; [|by apply H1].
        rewrite (H2 _ Hj). unfold written. rewrite EG.
        by destruct (d !! j) as [[|entries]|].
      * intros j' Hn. apply H2. set_solver.
    + destruct (writeGroupsJson d j _) as [d1|] eqn:EW; simpl; [|done].
      intros E. destruct (IH _ E) as [H1 H2].
      pose proof EW as (entries & Hdj & ->)%writeGroupsJson_inv. split.
      * intros j' [->|Hin]%elem_of_cons.
        -- rewrite (H2 _ Hj), lookup_insert_eq. unfold written.
           by rewrite Hdj, EG.
        -- rewrite (H1 _ Hin). apply written_ext. rewrite lookup_insert_ne; [done|].
           by intros ->.
      * intros j' Hn. rewrite H2 by set_solver. rewrite lookup_insert_ne; [done|].
        set_solver.
Qed.

Lemma main_written data data' :
  main data = Some data' →
  match getJobDirectories data with
  | [] => data' = data
  | jobNames =>
      data' !! "jobs.json" = Some (JFile (Some (mkJobsJson jobNames)))
      ∧ (∀ j, j ∈ jobNames → data' !! j = written data j)
      ∧ (∀ j, j ∉ jobNames → j ≠ "jobs.json" → data' !! j = data !! j)
  end.
Proof.
  unfold main. pose proof (jobs_json_not_listed data) as HJ.
  pose proof (getJobDirectories_visible data) as HV.
  pose proof (NoDup_visible keep_job data) as ND. rewrite <- HV in ND. clear HV.
  destruct (getJobDirectories data) as [|j0 js] eqn:EJ; [by intros [= <-]|].
  remember (j0 :: js) as J eqn:EQJ.
  destruct (writeJobsJson data _) as [d1|] eqn:EW; simpl; [|done].
  intros E. apply writeAllGroups_written in E as [H1 H2]; [|done].
  apply writeJobsJson_inv in EW as [-> _]. split; [|split].
  - rewrite (H2 _ HJ). apply lookup_insert_eq.
  - intros j Hin. rewrite (H1 _ Hin). apply written_ext.
    rewrite lookup_insert_ne; [done|]. by intros <-.
  - intros j Hn Hj. rewrite (H2 _ Hn). by rewrite lookup_insert_ne.
Qed.

Lemma writeAllGroups_fixed J d :
  (∀ j, j ∈ J →
     getGroupDirectories d j = []
     ∨ writeGroupsJson d j (generateGroupsJson d j (getGroupDirectories d j))
       = Some d) →
  writeAllGroups J d = Some d.
Proof.
  induction J as [|j J IH]; intros H; simpl; [done|].
  destruct (H j) as [HG|HW]; [by left|..].
  - rewrite HG. apply IH. intros j' Hin. apply H. by right.
  - destruct (getGroupDirectories d j) as [|g gs] eqn:EG.
    + apply IH. intros j' Hin. apply H. by right.
    + rewrite HW. simpl. apply IH. intros j' Hin. apply H. by right.
Qed.

Lemma generateGroupsJson_fixpoint data jobName groupNames data' :
  NoDup (displayName data jobName <$> groupNames) →
  readExistingGroupsJson data' jobName
  = Some (generateGroupsJson data jobName groupNames) →
  (∀ g, g ∈ groupNames →
     readMembersJson data' jobName g = readMembersJson data jobName g) →
  generateGroupsJson data' jobName groupNames
  = generateGroupsJson data jobName groupNames.
Proof.
  intros ND HE HM'.
  rewrite (generateGroupsJson_eq data').
  assert (∀ g, g ∈ groupNames →
            displayName data' jobName g = displayName data jobName g) as HD.
  { intros g Hin. unfold displayName. by rewrite HM'. }
  assert (displayName data' jobName <$> groupNames
          = displayName data jobName <$> groupNames) as HN.
  { apply list_fmap_ext. intros i g Hi. apply HD. by eapply list_elem_of_lookup_2. }
  rewrite HN. unfold existing_groups at 1 2. rewrite HE. simpl.
  rewrite (generateGroupsJson_eq data) at 3. simpl.
  set (E := existing_groups data jobName).
  set (N := displayName data jobName <$> groupNames).
  set (L := listing data jobName E <$> groupNames).
  set (P := filter (λ e, g_name e ∉ N) E).
  rewrite (generateGroupsJson_eq data). fold E N L P. simpl. f_equal.
  rewrite filter_app. f_equal; [|].
  - apply list_fmap_ext. intros i g Hi.
    assert (g ∈ groupNames) as Hin by (by eapply list_elem_of_lookup_2).
    unfold listing. rewrite HD, HM' by done. f_equal.
    destruct (readMembersJson data jobName g) as [mj|] eqn:ER; [|done].
    destruct (truthy (md_source mj)) as [s|] eqn:ES; [done|].
    unfold recorded_source at 1. rewrite filter_app.
    unfold L. rewrite (filter_listing_name _ _ _ _ _ ND Hin).
    assert (filter (λ e, g_name e = displayName data jobName g) P = []) as ->.
    { apply filter_none. apply Forall_forall. unfold P.
      intros e [Hn _]%list_elem_of_filter Heq. apply Hn. rewrite Heq.
      apply list_elem_of_fmap. by exists g. }
    simpl. unfold listing. rewrite ER, ES. simpl. apply truthy_idemp.
  - assert (filter (λ e, g_name e ∉ N) L = []) as ->.
    { apply filter_none. apply Forall_forall. unfold L, N.
      intros e (g & -> & Hin)%list_elem_of_fmap Hn. apply Hn. simpl.
      apply list_elem_of_fmap. by exists g. }
    simpl. unfold P. apply filter_all. apply Forall_forall.
    by intros e [Hn _]%list_elem_of_filter.
Qed.


(** X25.  Feeding [generateGroupsJson] its own output changes nothing:
    once the result is written to [groups.json], generating again gives the
    same file, provided no two group directories go by the same display
    name. *)
Theorem generateGroupsJson_idempotent data jobName groupNames data' :
  NoDup (displayName data jobName <$> groupNames) →
  "groups.json" ∉ groupNames →
  writeGroupsJson data jobName (generateGroupsJson data jobName groupNames)
  = Some data' →
  generateGroupsJson data' jobName groupNames
  = generateGroupsJson data jobName groupNames.
Proof.
  intros ND Hg HW. apply writeGroupsJson_reads in HW as (HE & HM & _).
  apply generateGroupsJson_fixpoint; [done..|].
  intros g Hin. apply HM. by intros ->.
Qed.

Lemma main_without_jobs data :
  getJobDirectories data = [] → main data = Some data.
Proof. unfold main. by intros ->. Qed.

Lemma main_with_jobs data data' :
  main data = Some data' →
  getJobDirectories data ≠ [] →
  data' !! "jobs.json"
  = Some (JFile (Some (mkJobsJson (getJobDirectories data))))
  ∧ (∀ j, j ∈ getJobDirectories data → data' !! j = written data j)
  ∧ (∀ j, j ∉ getJobDirectories data → j ≠ "jobs.json" →
       data' !! j = data !! j).
Proof.
  intros HM HJ. apply main_written in HM.
  by destruct (getJobDirectories data).
Qed.

Lemma written_is_dir data j :
  j ∈ getJobDirectories data →
  ∃ entries entries',
    data !! j = Some (JDir entries) ∧ written data j = Some (JDir entries')
    ∧ (∀ g, g ≠ "groups.json" → entries' !! g = entries !! g)
    ∧ match getGroupDirectories data j with
      | [] => entries' = entries
      | groupNames =>
          entries' !! "groups.json"
          = Some (GFile (Some (generateGroupsJson data j groupNames)))
      end.
Proof.
  rewrite getJobDirectories_visible, elem_of_visible.
  intros (a & Hj & Hk). unfold keep_job, isValidDirectory in Hk.
  destruct a as [|entries]; [by rewrite andb_false_r in Hk|].
  exists entries. unfold written. rewrite Hj.
  destruct (getGroupDirectories data j) as [|g gs]; eexists; repeat split; try done.
  - intros g' Hg'. by rewrite lookup_insert_ne.
  - by rewrite lookup_insert_eq.
Qed.

Lemma main_keeps_listing data data' :
  main data = Some data' →
  getJobDirectories data' = getJobDirectories data
  ∧ (∀ j, getGroupDirectories data' j = getGroupDirectories data j)
  ∧ (∀ j g, g ≠ "groups.json" →
       readMembersJson data' j g = readMembersJson data j g).
Proof.
  intros HM.
  destruct (decide (getJobDirectories data = [])) as [HJ|HJ].
  { rewrite main_without_jobs in HM by done. by simplify_eq. }
  destruct (main_with_jobs _ _ HM HJ) as (H0 & H1 & H2).
  assert (∀ j, j ∈ getJobDirectories data →
            getGroupDirectories data' j = getGroupDirectories data j
            ∧ ∀ g, g ≠ "groups.json" →
                readMembersJson data' j g = readMembersJson data j g) as Hin.
  { intros j Hin.
    destruct (written_is_dir _ _ Hin) as (en & en' & Hj & Hw & Hsame & _).
    rewrite <- (H1 _ Hin) in Hw. split.
    - rewrite !getGroupDirectories_visible, Hw, Hj. apply visible_ext.
      intros x. destruct (decide (x = "groups.json")) as [->|Hx].
      + split; intros (a & _ & Hk); unfold keep_group in Hk; simpl in Hk; done.
      + by rewrite Hsame.
    - intros g Hg. unfold readMembersJson. by rewrite Hw, Hj, Hsame. }
  assert (∀ j, j ∉ getJobDirectories data →
            getGroupDirectories data' j = getGroupDirectories data j
            ∧ ∀ g, readMembersJson data' j g = readMembersJson data j g) as Hout.
  { intros j Hn. destruct (decide (j = "jobs.json")) as [->|Hj].
    - unfold getGroupDirectories, readMembersJson. rewrite H0.
      unfold main in HM. destruct (getJobDirectories data); [done|].
      destruct (writeJobsJson data _) as [d1|] eqn:EW; [|done].
      apply writeJobsJson_inv in EW as [_ Hnd].
      by destruct (data !! "jobs.json") as [[|]|].
    - destruct (reads_of_job data data' j (H2 _ Hn Hj)) as (? & _ & ?). done. }
  split; [|split].
  - rewrite !getJobDirectories_visible. apply visible_ext. intros x.
    destruct (decide (x = "jobs.json")) as [->|Hx].
    { split; intros (a & _ & Hk); unfold keep_job in Hk; simpl in Hk; done. }
    destruct (decide (x ∈ getJobDirectories data)) as [Hx'|Hn].
    + destruct (written_is_dir _ _ Hx') as (en & en' & Hj & Hw & _).
      rewrite (H1 _ Hx'), Hw, Hj.
      split; intros (a & [= <-] & Hk); eauto.
    + by rewrite (H2 _ Hn Hx).
  - intros j. destruct (decide (j ∈ getJobDirectories data)) as [Hj|Hj].
    + by apply Hin.
    + by apply Hout.
  - intros j g Hg. destruct (decide (j ∈ getJobDirectories data)) as [Hj|Hj].
    + by apply Hin.
    + by apply Hout.
Qed.

(** X26.  Running the script on the directory it has left behind changes
    nothing: the second run completes and leaves every file as the first
    run left it, provided no two group directories of a job go by the same
    display name. *)
Theorem update_metadata_is_idempotent data data' :
  distinct_display_names data →
  main data = Some data' →
  main data' = Some data'.
Proof.
  intros HD HM.
  destruct (main_keeps_listing _ _ HM) as (HJ & HG & HR).
  destruct (decide (getJobDirectories data = [])) as [HE|HE].
  { apply main_without_jobs. by rewrite HJ. }
  destruct (main_with_jobs _ _ HM HE) as (H0 & H1 & H2).
  unfold main. rewrite HJ.
  destruct (getJobDirectories data) as [|j0 js] eqn:EJ; [done|].
  rewrite <- EJ in *.
  assert (writeJobsJson data' (generateJobsJson (getJobDirectories data))
          = Some data') as ->.
  { unfold writeJobsJson, generateJobsJson. rewrite H0. by rewrite insert_id. }
  simpl. apply writeAllGroups_fixed. intros j Hin. rewrite HG.
  destruct (written_is_dir _ _ Hin) as (en & en' & Hj & Hw & Hsame & Hgj).
  rewrite <- (H1 _ Hin) in Hw.
  destruct (getGroupDirectories data j) as [|g gs] eqn:EG; [by left|].
  right.
  assert (generateGroupsJson data' j (g :: gs)
          = generateGroupsJson data j (g :: gs)) as ->.
  { apply generateGroupsJson_fixpoint.
    - rewrite <- EG. by apply HD.
    - unfold readExistingGroupsJson. by rewrite Hw, Hgj.
    - intros g' Hg'. apply HR. intros ->.
      apply (not_groups_json_listed data j). by rewrite EG. }
  unfold writeGroupsJson. rewrite Hw, Hgj. f_equal.
  rewrite (insert_id en' "groups.json") by done. by rewrite insert_id.
Qed.

Lemma writeAllGroups_dies J d :
  writeAllGroups J d = None →
  ∃ j entries x, j ∈ J ∧ d !! j = Some (JDir entries)
                 ∧ entries !! "groups.json" = Some (GDir x).
Proof.
  revert d. induction J as [|j J IH]; intros d; simpl; [done|].
  destruct (getGroupDirectories d j) as [|g gs] eqn:EG.
  - intros (j' & en & x & Hin & H1 & H2)%IH. exists j', en, x.
    split; [by right|done].
  - destruct (writeGroupsJson d j _) as [d1|] eqn:EW; simpl.
    + intros (j' & en & x & Hin & H1 & H2)%IH.
      apply writeGroupsJson_inv in EW as (entries & Hj & ->).
      destruct (decide (j' = j)) as [->|Hne].
      * rewrite lookup_insert_eq in H1. injection H1 as <-.
        by rewrite lookup_insert_eq in H2.
      * rewrite lookup_insert_ne in H1 by done. exists j', en, x.
        split; [by right|done].
    + intros _. unfold writeGroupsJson in EW.
      destruct (d !! j) as [[|entries]|] eqn:Ej.
      * unfold getGroupDirectories in EG. by rewrite Ej in EG.
      * destruct (entries !! "groups.json") as [[|x]|] eqn:Eg; try done.
        exists j, entries, x. split; [by left|done].
      * unfold getGroupDirectories in EG. by rewrite Ej in EG.
Qed.

(** X27.  What the script writes.  When it completes, the job and group
    directories and every [members.json] are as before; [jobs.json] lists the
    job directories in sorted order; each job with a group directory has the
    [groups.json] generated from the directory as it was found, and the
    [groups.json] of any other job is left alone.  It dies only on a
    directory called [jobs.json] or [groups.json] in the place of the file it
    is to write. *)
Theorem update_metadata_writes data :
  match main data with
  | Some data' =>
      getJobDirectories data' = getJobDirectories data
      ∧ (∀ j, j ∈ getJobDirectories data →
           getGroupDirectories data' j = getGroupDirectories data j)
      ∧ (∀ j g, g ≠ "groups.json" →
           readMembersJson data' j g = readMembersJson data j g)
      ∧ match getJobDirectories data with
        | [] => data' = data
        | jobNames =>
            data' !! "jobs.json" = Some (JFile (Some (mkJobsJson jobNames)))
        end
      ∧ (∀ j, j ∈ getJobDirectories data →
           readExistingGroupsJson data' j
           = match getGroupDirectories data j with
             | [] => readExistingGroupsJson data j
             | groupNames => Some (generateGroupsJson data j groupNames)
             end)
  | None =>
      is_job_dir <$> data !! "jobs.json" = Some true
      ∨ ∃ j entries x,
          j ∈ getJobDirectories data ∧ data !! j = Some (JDir entries)
          ∧ entries !! "groups.json" = Some (GDir x)
  end.
Proof.
  destruct (main data) as [data'|] eqn:HM.
  - destruct (main_keeps_listing _ _ HM) as (HJ & HG & HR).
    repeat split; try done; try (by intros j _; apply HG).
    + apply main_written in HM.
      destruct (getJobDirectories data); [done|]. by destruct HM.
    + intros j Hin.
      assert (getJobDirectories data ≠ []) as HE by (by intros E; rewrite E in Hin;
        apply elem_of_nil in Hin).
      destruct (main_with_jobs _ _ HM HE) as (_ & H1 & _).
      destruct (written_is_dir _ _ Hin) as (en & en' & Hj & Hw & Hsame & Hgj).
      rewrite <- (H1 _ Hin) in Hw. unfold readExistingGroupsJson.
      rewrite Hw, Hj.
      destruct (getGroupDirectories data j); [by subst|by rewrite Hgj].
  - unfold main in HM.
    destruct (getJobDirectories data) as [|j0 js] eqn:EJ; [done|].
    rewrite <- EJ in *.
    destruct (writeJobsJson data _) as [d1|] eqn:EW; simpl in HM.
    + right. apply writeAllGroups_dies in HM as (j & en & x & Hin & H1 & H2).
      apply writeJobsJson_inv in EW as [-> _]. exists j, en, x.
      split; [done|]. split; [|done].
      rewrite lookup_insert_ne in H1; [done|]. intros <-.
      by apply (jobs_json_not_listed data).
    + left. unfold writeJobsJson in EW.
      by destruct (data !! "jobs.json") as [[|]|].
Qed.

End Metadata.

(** * Concrete runs *)

Section DemoRuns.

Import Demo.

(** C1.  A thread for the channel exists; the record is authored by channel
    id; the API answers but the probe is lost.  With no unique index on
    [threads.youtube_id] the script inserts a second row for the same
    channel, and reports success. *)
Example lost_probe_inserts_a_second_row :
  let run := createThread (outside lax []) by_id creators
               (world synced_db [Respond; Unreachable]) in
  length (threads_with "UCalpha" synced_db) = 1
  ∧ run.1 = true
  ∧ length (threads_with "UCalpha" (db run.2)) = 2.
Proof. by vm_compute. Qed.

(** C2.  Two runs over the same catalog, every call served.  The record
    has an empty string among its options.  The first run creates the
    thread and links it to Creators, Alpha and the tag without a name, so
    name, title and tags are those of the record.  The second run drops the
    unnamed tag from the names it reads, counts two names for three
    expected, and deletes and re-inserts the links.  Likewise for a record
    that repeats its group as an option, against a thread tagged Creators
    and Alpha: the sets of names agree, the lengths do not, and the links
    are rewritten. *)
Example converged_record_is_rewritten :
  let out := outside lax [Some blank_option] in
  let first := main out (world empty_db []) in
  let w1 := world (db first.2) [] in
  let second := main out w1 in
  let again := createThread (outside lax []) repeated creators
                 (world two_tags_db []) in
  (first.1.1 = 0
   ∧ threads (db w1) !! 1
     = Some (mkThread "Alpha" "UCalpha" "Alpha Channel" "1/avatar/1000.jpg")
   ∧ resolve out "UCalpha"
     = Some (mkChannelInfo "UCalpha" "Alpha Channel" "https://img/alpha")
   ∧ tag_names 1 (db w1) = expectedTagNames blank_option creators
   ∧ second.1.1 = 0
   ∧ filter (λ e, mutation e = true) (trace second.2)
     = [Ev (ThreadTagsDelete 1) Null;
        Ev (ThreadTagsInsert [(1, 2); (1, 3); (1, 4)]) Null])
  ∧ (list_to_set (tag_names 1 two_tags_db)
     =@{gset string} list_to_set (expectedTagNames repeated creators)
     ∧ again.1 = true
     ∧ filter (λ e, mutation e = true) (trace again.2)
       = [Ev (ThreadTagsDelete 1) Null;
          Ev (ThreadTagsInsert [(1, 2); (1, 3); (1, 3)]) Null]).
Proof.
  split; [by vm_compute|]. split; [|by vm_compute].
  change (list_to_set ["Creators"; "Alpha"]
          =@{gset string} list_to_set ["Creators"; "Alpha"; "Alpha"]).
  set_solver.
Qed.

(** C4, refuted as stated.  The upload is lost and so is the delete that
    follows it: the record fails, and the row it inserted is still in the
    table when it finishes. *)
Example lost_delete_leaves_the_row :
  let w := world empty_db
             [Respond; Respond; Respond; Respond; Unreachable; Unreachable] in
  let run := createThread (outside lax []) by_id creators w in
  run.1 = false
  ∧ trace run.2
    = [Processing "Alpha" "UCalpha";
       Ev (YtChannelsById "UCalpha") Body;
       Ev (ThreadsSelectByYoutubeId "UCalpha") Null;
       Ev (HttpGet "https://img/alpha") Body;
       Ev (ThreadsInsert "Alpha" "UCalpha" "Alpha Channel") (Row 1);
       Ev (StorageUpload "1/avatar/1000.jpg") Err;
       Ev (ThreadsDelete 1) Err]
  ∧ threads (db run.2) !! 1
    = Some (mkThread "Alpha" "UCalpha" "Alpha Channel" "").
Proof. by vm_compute. Qed.

(** C6.  Two errors that are not counted.  The read of the thread's tags
    is lost: the script takes the thread for untagged, rebuilds the links
    and counts the record as skipped.  The probe of the thread table is
    lost: the script creates a second thread for the channel and counts the
    record as a success.  Either way [failed] stays 0 and the exit code is
    0, with an error in the log of the run. *)
Example unchecked_read_errors_exit_zero :
  let out := outside lax [Some by_id] in
  let lost_tags :=
    main out (world synced_db [Respond; Respond; Respond; Unreachable]) in
  let lost_probe := main out (world synced_db [Respond; Unreachable]) in
  (trace lost_tags.2
   = [Processing "Alpha" "UCalpha";
      Ev (YtChannelsById "UCalpha") Body;
      Ev (ThreadsSelectByYoutubeId "UCalpha") (Row 1);
      Ev (ThreadsSelectById 1) Body;
      Ev (ThreadTagsSelect 1) Err;
      Ev (ThreadTagsDelete 1) Null;
      Ev (TagsSelectByName "Creators") (Row 2);
      Ev (TagsSelectByName "Alpha") (Row 3);
      Ev (TagsSelectByName "2023") (Row 4);
      Ev (ThreadTagsInsert [(1, 2); (1, 3); (1, 4)]) Null;
      Ev (ThreadsSelectByYoutubeId "UCalpha") (Row 1)]
   ∧ lost_tags.1 = (0, Some (mkTotals 0 1 0 1)))
  ∧ (trace lost_probe.2
     = [Processing "Alpha" "UCalpha";
        Ev (YtChannelsById "UCalpha") Body;
        Ev (ThreadsSelectByYoutubeId "UCalpha") Err;
        Ev (HttpGet "https://img/alpha") Body;
        Ev (ThreadsInsert "Alpha" "UCalpha" "Alpha Channel") (Row 5);
        Ev (StorageUpload "5/avatar/1000.jpg") Null;
        Ev (ThreadsUpdateAvatar 5 "5/avatar/1000.jpg") Null;
        Ev (TagsSelectByName "Creators") (Row 2);
        Ev (TagsSelectByName "Alpha") (Row 3);
        Ev (TagsSelectByName "2023") (Row 4);
        Ev (ThreadTagsInsert [(5, 2); (5, 3); (5, 4)]) Null;
        Ev (ThreadsSelectByYoutubeId "UCalpha") Null]
     ∧ lost_probe.1 = (0, Some (mkTotals 1 0 0 1))
     ∧ length (threads_with "UCalpha" (db lost_probe.2)) = 2).
Proof. by vm_compute. Qed.

(** C7.  The same lost probe is handled as "no such thread": the creation
    path runs (download, insert, upload, tags) and the record succeeds; with
    a unique index the insert is still issued, and it is the index that fails
    the record.  A lost read of the current tags is handled as "no tags":
    the links are deleted and rebuilt and the record succeeds. *)
Example lost_lookup_is_taken_as_absent :
  let lost_probe s := createThread (outside s []) by_id creators
                        (world synced_db [Respond; Unreachable]) in
  let lost_tags := createThread (outside lax []) by_id creators
                     (world synced_db [Respond; Respond; Respond; Unreachable]) in
  ((lost_probe lax).1 = true
   ∧ trace (lost_probe lax).2
     = [Processing "Alpha" "UCalpha";
        Ev (YtChannelsById "UCalpha") Body;
        Ev (ThreadsSelectByYoutubeId "UCalpha") Err;
        Ev (HttpGet "https://img/alpha") Body;
        Ev (ThreadsInsert "Alpha" "UCalpha" "Alpha Channel") (Row 5);
        Ev (StorageUpload "5/avatar/1000.jpg") Null;
        Ev (ThreadsUpdateAvatar 5 "5/avatar/1000.jpg") Null;
        Ev (TagsSelectByName "Creators") (Row 2);
        Ev (TagsSelectByName "Alpha") (Row 3);
        Ev (TagsSelectByName "2023") (Row 4);
        Ev (ThreadTagsInsert [(5, 2); (5, 3); (5, 4)]) Null])
  ∧ ((lost_probe strict).1 = false
     ∧ trace (lost_probe strict).2
       = [Processing "Alpha" "UCalpha";
          Ev (YtChannelsById "UCalpha") Body;
          Ev (ThreadsSelectByYoutubeId "UCalpha") Err;
          Ev (HttpGet "https://img/alpha") Body;
          Ev (ThreadsInsert "Alpha" "UCalpha" "Alpha Channel") Err])
  ∧ (lost_tags.1 = true
     ∧ trace lost_tags.2
       = [Processing "Alpha" "UCalpha";
          Ev (YtChannelsById "UCalpha") Body;
          Ev (ThreadsSelectByYoutubeId "UCalpha") (Row 1);
          Ev (ThreadsSelectById 1) Body;
          Ev (ThreadTagsSelect 1) Err;
          Ev (ThreadTagsDelete 1) Null;
          Ev (TagsSelectByName "Creators") (Row 2);
          Ev (TagsSelectByName "Alpha") (Row 3);
          Ev (TagsSelectByName "2023") (Row 4);
          Ev (ThreadTagsInsert [(1, 2); (1, 3); (1, 4)]) Null]).
Proof. by vm_compute. Qed.

(** C8.  A record authored by channel id, with no thread before, is created
    (one insert, one upload, one link insert) and then counted as skipped:
    the classification query finds the row that was just inserted.  The same
    record authored by handle is counted as a success. *)
Example fresh_thread_by_channel_id_counts_as_skipped :
  let run m := processGroup (outside lax [Some m]) "Creators" "Alpha"
                 (world empty_db []) in
  threads empty_db = ∅
  ∧ filter (λ e, mutation e = true) (trace (run by_id).2)
    = [Ev (ThreadsInsert "Alpha" "UCalpha" "Alpha Channel") (Row 1);
       Ev (StorageUpload "1/avatar/1000.jpg") Null;
       Ev (ThreadsUpdateAvatar 1 "1/avatar/1000.jpg") Null;
       Ev (TagsInsert "Creators") (Row 2);
       Ev (TagsInsert "Alpha") (Row 3);
       Ev (TagsInsert "2023") (Row 4);
       Ev (ThreadTagsInsert [(1, 2); (1, 3); (1, 4)]) Null]
  ∧ (success (run by_id).1, skipped (run by_id).1, failed (run by_id).1) = (0, 1, 0)
  ∧ (success (run by_handle).1, skipped (run by_handle).1,
     failed (run by_handle).1) = (1, 0, 0).
Proof. by vm_compute. Qed.

(** C9, refuted.  The select finds nothing, a concurrent client creates the
    tag, the insert is rejected by the unique index: [getOrCreateTag]
    returns null although the row for the name exists, under key 1. *)
Example getOrCreateTag_race_returns_null :
  let run := getOrCreateTag (outside strict []) "Alpha"
               (world empty_db [Respond; RaceTag "Alpha"]) in
  run.1 = None
  ∧ run.1 ≠ Some 1
  ∧ tags_named "Alpha" (db run.2) = [(1, "Alpha")]
  ∧ trace run.2 = [Ev (TagsSelectByName "Alpha") Null; Ev (TagsInsert "Alpha") Err].
Proof. by vm_compute. Qed.

Lemma set_with_old_differs :
  list_to_set ["Creators"; "Alpha"; "Old"]
  ≠@{gset string} list_to_set ["Creators"; "Alpha"; "Alpha"].
Proof.
  intros H.
  assert ("Old" ∈@{gset string} list_to_set ["Creators"; "Alpha"; "Alpha"]) as Hin.
  { rewrite <- H. set_solver. }
  set_solver.
Qed.

(** C5.  The no-op test is not the comparison of sets it is meant to be.
    With a repeated expected name the test passes although the two
    collections differ as sets: the record is only read and the stale tag
    stays.  And it fails although they are equal as sets. *)
Example length_and_inclusion_is_not_set_equality :
  let run := createThread (outside lax []) repeated creators (world stale_db []) in
  (expectedTagNames repeated creators = ["Creators"; "Alpha"; "Alpha"]
   ∧ currentTagNames (Some (joined 1 stale_db)) = ["Creators"; "Alpha"; "Old"]
   ∧ list_to_set (currentTagNames (Some (joined 1 stale_db)))
     ≠@{gset string} list_to_set (expectedTagNames repeated creators)
   ∧ filter (λ e, mutation e = true) (trace run.2) = [])
  ∧ (tagsMatch ["Creators"; "Alpha"; "Alpha"] ["Creators"; "Alpha"] = false
     ∧ list_to_set ["Creators"; "Alpha"; "Alpha"]
       =@{gset string} list_to_set ["Creators"; "Alpha"]).
Proof.
  split; [split; [by vm_compute|split; [by vm_compute|split]]|split].
  - change (list_to_set ["Creators"; "Alpha"; "Old"]
            ≠@{gset string} list_to_set ["Creators"; "Alpha"; "Alpha"]).
    apply set_with_old_differs.
  - by vm_compute.
  - by vm_compute.
  - set_solver.
Qed.

Lemma set_with_blank_differs :
  list_to_set ["Creators"; "Alpha"; "2023"; ""]
  ≠@{gset string} list_to_set ["Creators"; "Alpha"; "2023"].
Proof.
  intros H.
  assert ("" ∈@{gset string} list_to_set ["Creators"; "Alpha"; "2023"]) as Hin.
  { rewrite <- H. set_solver. }
  set_solver.
Qed.

(** C3.  The record asks for Creators, Alpha and (as an option) Alpha
    again; the thread is tagged Creators, Alpha, Old.  The tag
    synchronisation runs to its end without any store error, the record
    succeeds, and the extraneous tag is still there: the no-op test passed
    on length and inclusion.  So is an extraneous tag without a name, which
    [filter(Boolean)] hides from the test, even when the expected names are
    pairwise distinct. *)
Example extraneous_tag_survives_repeated_name :
  let run := createThread (outside lax []) repeated creators (world stale_db []) in
  let blank := createThread (outside lax []) by_id creators (world blank_db []) in
  (run.1 = true
   ∧ Forall (λ e, ∀ c, e ≠ Ev c Err) (trace run.2)
   ∧ tag_names 1 (db run.2) = ["Creators"; "Alpha"; "Old"]
   ∧ list_to_set (tag_names 1 (db run.2))
     ≠@{gset string} list_to_set (expectedTagNames repeated creators))
  ∧ (blank.1 = true
     ∧ Forall (λ e, ∀ c, e ≠ Ev c Err) (trace blank.2)
     ∧ tag_names 1 (db blank.2) = ["Creators"; "Alpha"; "2023"; ""]
     ∧ list_to_set (tag_names 1 (db blank.2))
       ≠@{gset string} list_to_set (expectedTagNames by_id creators)).
Proof.
  split.
  - split; [by vm_compute|]. split; [|split; [by vm_compute|]].
    + vm_compute. repeat constructor; by intros c.
    + change (list_to_set ["Creators"; "Alpha"; "Old"]
              ≠@{gset string} list_to_set ["Creators"; "Alpha"; "Alpha"]).
      apply set_with_old_differs.
  - split; [by vm_compute|]. split; [|split; [by vm_compute|]].
    + vm_compute. repeat constructor; by intros c.
    + change (list_to_set ["Creators"; "Alpha"; "2023"; ""]
              ≠@{gset string} list_to_set ["Creators"; "Alpha"; "2023"]).
      apply set_with_blank_differs.
Qed.

End DemoRuns.

Section Witnesses.

Import Demo.

Lemma converged_record_witness :
  let out := outside lax [Some by_handle; Some no_channel; None] in
  let w := world synced_db [] in
  let run := processMember out creators (Some by_handle)
               (mkResult "Creators" "Alpha" 0 0 0 1) w in
  ((createThread out by_handle creators w).1 = true
   ∧ db run.2 = db w
   ∧ Forall is_read (new_events w run.2)
   ∧ failed run.1 = 0)
  ∧ (db (main out w).2 = db w
     ∧ Forall is_read (new_events w (main out w).2)
     ∧ (main out w).1.1 = 0).
Proof.
  assert (settled (outside lax [Some by_handle; Some no_channel; None])
            synced_db creators (Some by_handle)) as Hsettled.
  { right.
    exists (mkChannelInfo "UCalpha" "Alpha Channel" "https://img/alpha"), 1,
      (mkThread "Alpha" "UCalpha" "Alpha Channel" "1/avatar/7.jpg").
    split; [vm_compute; reflexivity|]. split; [vm_compute; reflexivity|].
    split; [reflexivity|]. split; [reflexivity|].
    vm_compute. apply perm_swap. }
  destruct (converged_record_is_only_read
              (outside lax [Some by_handle; Some no_channel; None])
              (world synced_db []) eq_refl) as [Hrecord Hrun].
  split.
  - apply (Hrecord by_handle creators (mkResult "Creators" "Alpha" 0 0 0 1)
             (mkChannelInfo "UCalpha" "Alpha Channel" "https://img/alpha") 1
             (mkThread "Alpha" "UCalpha" "Alpha Channel" "1/avatar/7.jpg")).
    + vm_compute. reflexivity.
    + vm_compute. reflexivity.
    + reflexivity.
    + reflexivity.
    + vm_compute. apply perm_swap.
  - apply Hrun. unfold catalog_settled. simpl.
    constructor; [done|]. constructor; [|constructor]. simpl.
    constructor; [done|]. constructor; [|constructor]. simpl.
    constructor; [exact Hsettled|]. constructor; [by left|].
    constructor; [done|]. constructor.
Defined.

Lemma tag_convergence_witness :
  let run := createThread (outside lax []) by_id creators (world old_db []) in
  tag_names 1 old_db = ["Old"]
  ∧ tag_names 1
      (db (syncExisting (outside lax []) by_id creators
             (mkChannelInfo "UCalpha" "Alpha Channel" "https://img/alpha") 1
             (world old_db [])).2)
    = ["Creators"; "Alpha"; "2023"]
  ∧ ∃ info k r',
      resolve (outside lax []) "UCalpha" = Some info
      ∧ threads (db run.2) !! k = Some r'
      ∧ youtube_id r' = channelId info
      ∧ list_to_set (tag_names k (db run.2))
        =@{gset string} list_to_set ["Creators"; "Alpha"; "2023"].
Proof.
  assert (tags_fresh old_db) as Hfresh.
  { intros k [x Hk]. simpl in Hk. apply lookup_singleton_Some in Hk as [<- _].
    simpl. lia. }
  destruct (tag_convergence_distinct_names (outside lax []) by_id creators
              (world old_db []) eq_refl Hfresh) as [Hrebuild Hset].
  split; [vm_compute; reflexivity|]. split.
  - apply (Hrebuild (mkChannelInfo "UCalpha" "Alpha Channel" "https://img/alpha")
             1 (mkThread "Alpha" "UCalpha" "Alpha Channel" "1/avatar/7.jpg")).
    + vm_compute. reflexivity.
    + vm_compute. reflexivity.
    + vm_compute. reflexivity.
  - apply Hset.
    + intros tt Hin. simpl in Hin. apply list_elem_of_singleton in Hin as ->.
      simpl. lia.
    + intros k Hk. simpl in Hk. by apply lookup_singleton_Some in Hk as [_ ?].
    + apply (bool_decide_unpack _). vm_compute. reflexivity.
    + reflexivity.
    + vm_compute. reflexivity.
Defined.

Lemma rollback_witness :
  let w := world empty_db [Respond; Respond; Respond; Respond; Unreachable] in
  let run := createThread (outside lax []) by_id creators w in
  run.1 = false
  ∧ new_events w run.2
    = [Processing "Alpha" "UCalpha";
       Ev (YtChannelsById "UCalpha") Body;
       Ev (ThreadsSelectByYoutubeId "UCalpha") Null;
       Ev (HttpGet "https://img/alpha") Body;
       Ev (ThreadsInsert "Alpha" "UCalpha" "Alpha Channel") (Row 1);
       Ev (StorageUpload "1/avatar/1000.jpg") Err;
       Ev (ThreadsDelete 1) Null]
  ∧ threads (db run.2) !! 1 = None.
Proof.
  destruct (rollback_on_upload_failure (outside lax []) by_id creators
              (world empty_db [Respond; Respond; Respond; Respond; Unreachable])
              "1/avatar/1000.jpg")
    as (Hfail & pre & id & n & yid & t & r & Hev & Hgone & _).
  { vm_compute. do 5 apply list_elem_of_further. apply list_elem_of_here. }
  assert (new_events
            (world empty_db [Respond; Respond; Respond; Respond; Unreachable])
            (createThread (outside lax []) by_id creators
               (world empty_db
                  [Respond; Respond; Respond; Respond; Unreachable])).2
          = [Processing "Alpha" "UCalpha";
             Ev (YtChannelsById "UCalpha") Body;
             Ev (ThreadsSelectByYoutubeId "UCalpha") Null;
             Ev (HttpGet "https://img/alpha") Body]
            ++ [Ev (ThreadsInsert "Alpha" "UCalpha" "Alpha Channel") (Row 1);
                Ev (StorageUpload "1/avatar/1000.jpg") Err;
                Ev (ThreadsDelete 1) Null]) as Hrun
    by (vm_compute; reflexivity).
  split; [exact Hfail|]. split; [exact Hrun|].
  rewrite Hrun in Hev. apply app_inj_2 in Hev as [_ Hev]; [|reflexivity].
  assert (id = 1 ∧ r = Null) as [-> ->] by (by inversion Hev).
  apply Hgone. discriminate.
Defined.

Lemma tag_noop_test_witness :
  let w := world synced_db [] in
  let evs := new_events w
               (syncExisting (outside lax []) by_id creators
                  (mkChannelInfo "UCalpha" "Alpha Channel" "https://img/alpha")
                  1 w).2 in
  ¬ Exists (calls tag_write) evs
  ↔ ["Creators"; "Alpha"; "2023"] ≡ₚ ["Alpha"; "Creators"; "2023"].
Proof.
  apply (tag_noop_test_is_length_and_inclusion (outside lax []) by_id creators
           (mkChannelInfo "UCalpha" "Alpha Channel" "https://img/alpha") 1
           (world synced_db [])
           (mkThread "Alpha" "UCalpha" "Alpha Channel" "1/avatar/7.jpg")).
  - reflexivity.
  - vm_compute. reflexivity.
  - apply (bool_decide_unpack _). vm_compute. reflexivity.
Defined.

Lemma failures_fold_witness :
  let out := outside lax [Some unknown] in
  let w := world empty_db [] in
  let down := world empty_db [Unreachable] in
  (createThread out by_id creators down).1 = false
  ∧ (createThread out unknown creators w).1 = false
  ∧ failed (processMember out creators (Some unknown)
              (mkResult "Creators" "Alpha" 0 0 0 1) w).1 = 1
  ∧ (createThread out no_channel creators w).1 = true
  ∧ (main out w).1.1 = 1.
Proof.
  pose proof (failures_fold_into_exit_status (outside lax [Some unknown]))
    as (Hchecked & Hfail & Hskip & _ & Hexit).
  split; [|split; [vm_compute; reflexivity|split; [|split]]].
  - apply (Hchecked by_id creators (world empty_db [Unreachable])
             (YtChannelsById "UCalpha")).
    + vm_compute. apply list_elem_of_further, list_elem_of_here.
    + reflexivity.
  - rewrite (Hfail creators unknown (mkResult "Creators" "Alpha" 0 0 0 1)
               (world empty_db []) _ _ (surjective_pairing _)).
    vm_compute. reflexivity.
  - apply Hskip. reflexivity.
  - rewrite Hexit. vm_compute. reflexivity.
Defined.


End Witnesses.

(** * Further concrete runs *)

Section Examples.

Import Demo.

Lemma empty_db_tags_fresh : tags_fresh empty_db.
Proof. intros k [x Hk]. simpl in Hk. by rewrite lookup_empty in Hk. Qed.

Lemma empty_db_unique_channel_ids : unique_channel_ids empty_db.
Proof. intros k1 k2 r1 r2 H1. simpl in H1. by rewrite lookup_empty in H1. Qed.

Lemma getGroupDirectories_witness :
  let out := outside lax [Some by_id] in
  let entries := [("groups.json", GFile);
                  ("Alpha", GDir (Some (Some (mkMembersJson creators
                                                [Some by_id]))))] in
  StronglySorted name_le (getGroupDirectories out "Creators")
  ∧ (∀ g, g ∈ getGroupDirectories out "Creators"
          ↔ g ≠ "groups.json" ∧ String.prefix "." g = false
            ∧ ∃ file, (g, GDir (Some file)) ∈ entries)
  ∧ (NoDup (entries.*1) →
     ∀ g, g ∈ getGroupDirectories out "Creators" →
       ∃ file, (g, GDir (Some file)) ∈ entries
               ∧ readMembersJson out "Creators" g = file).
Proof.
  apply (getGroupDirectories_sorted_groups_with_members_json
           (outside lax [Some by_id]) "Creators").
  reflexivity.
Defined.

Lemma getOrCreateTag_repeated_witness :
  let out := outside lax [] in
  let w := world empty_db [] in
  let a := (getOrCreateTag out "Creators" w).1 in
  let w1 := (getOrCreateTag out "Creators" w).2 in
  (length (tags_named "Creators" (db w)) ≤ 1 →
   ∃ k, a = Some k
        ∧ tags_named "Creators" (db w1) = [(k, "Creators")]
        ∧ getOrCreateTag out "Creators" w1
          = (Some k, mkWorld (db w1) []
                       (trace w1 ++ [Ev (TagsSelectByName "Creators") (Row k)])
                       (clock w1)))
  ∧ (2 ≤ length (tags_named "Creators" (db w)) →
     a = if tags_name_unique (schema out) then None
         else Some (next_key (db w))).
Proof.
  apply (getOrCreateTag_repeated (outside lax []) "Creators"
           (world empty_db [])).
  - reflexivity.
  - exact empty_db_tags_fresh.
Defined.

Lemma createNew_success_witness :
  let out := outside lax [] in
  let info := mkChannelInfo "UCalpha" "Alpha Channel" "https://img/alpha" in
  let w := world empty_db [] in
  let w' := (createNew out by_id creators info w).2 in
  ∃ blob,
    cdn out !! "https://img/alpha" = Some blob
    ∧ bucket (db w) !! "1/avatar/1000.jpg" = None
    ∧ threads (db w')
      = <[1 := mkThread "Alpha" "UCalpha" "Alpha Channel" "1/avatar/1000.jpg"]>
          (threads (db w))
    ∧ bucket (db w') = <["1/avatar/1000.jpg" := blob]> (bucket (db w)).
Proof.
  apply (createNew_success_row (outside lax []) by_id creators
           (mkChannelInfo "UCalpha" "Alpha Channel" "https://img/alpha")
           (world empty_db [])).
  - reflexivity.
  - vm_compute. reflexivity.
Defined.


Lemma channel_ids_stay_unique_witness :
  let out := outside lax [Some by_id; None; Some by_handle] in
  let w := world empty_db [Respond; RaceTag "Alpha"] in
  unique_channel_ids (db (main out w).2).
Proof.
  apply (channel_ids_stay_unique_when_no_call_is_lost
           (outside lax [Some by_id; None; Some by_handle])
           (world empty_db [Respond; RaceTag "Alpha"])).
  - simpl. intros Hin. not_listed.
  - exact empty_db_unique_channel_ids.
Defined.

Lemma member_without_channel_prefix_witness :
  let out := outside lax [] in
  let result := mkResult "Creators" "Alpha" 0 0 0 1 in
  let w := world empty_db [Unreachable] in
  processMember out creators (Some odd) result w
  = (mkResult "Creators" "Alpha" 0 0 1 1,
     mkWorld empty_db [Unreachable] [Processing "Odd" "alpha"] 1100).
Proof.
  apply (member_without_channel_prefix_makes_no_call (outside lax []) creators
           odd (mkResult "Creators" "Alpha" 0 0 0 1)
           (world empty_db [Unreachable])); reflexivity.
Defined.

Lemma single_file_loop_witness :
  let out := outside lax [] in
  let r := mkResult "Creators" "Alpha" 0 0 0 2 in
  let w := world empty_db [] in
  SingleFile.processMembers out creators [Some by_id; Some unknown]
    (counts_of r) w
  = (Some (counts_of (processMembers out creators [Some by_id; Some unknown]
                        r w).1),
     (processMembers out creators [Some by_id; Some unknown] r w).2).
Proof.
  apply (single_file_loop_is_batch_loop (outside lax []) creators
           [Some by_id; Some unknown] (mkResult "Creators" "Alpha" 0 0 0 2)
           (world empty_db [])).
  repeat constructor; eexists; (split; [reflexivity|reflexivity]).
Defined.

Lemma second_pass_witness :
  let out := outside lax [] in
  let w := world empty_db [] in
  let w1 := (createThread out by_id creators w).2 in
  (createThread out by_id creators w1).1 = true
  ∧ db (createThread out by_id creators w1).2 = db w1
  ∧ Forall is_read (new_events w1 (createThread out by_id creators w1).2).
Proof.
  apply (second_pass_only_reads (outside lax []) by_id creators
           (world empty_db [])).
  - reflexivity.
  - exact empty_db_tags_fresh.
  - intros tt Hin. simpl in Hin. by apply elem_of_nil in Hin.
  - exact empty_db_unique_channel_ids.
  - vm_compute. intros Hin. not_listed.
  - vm_compute. reflexivity.
Defined.

Lemma tags_and_avatars_witness :
  let out := outside strict [Some by_id; Some repeated] in
  let w := world old_db [Respond; Unreachable; RaceTag "Creators"] in
  (∀ k x, tags (db w) !! k = Some x → tags (db (main out w).2) !! k = Some x)
  ∧ (∀ p b, bucket (db w) !! p = Some b →
       bucket (db (main out w).2) !! p = Some b).
Proof.
  apply (tags_and_avatars_only_accumulate
           (outside strict [Some by_id; Some repeated])
           (world old_db [Respond; Unreachable; RaceTag "Creators"])).
  intros k [x Hk]. simpl in Hk. apply lookup_singleton_Some in Hk as [<- _].
  simpl. lia.
Defined.

Lemma sync_leaves_other_links_witness :
  let out := outside lax [] in
  let info := mkChannelInfo "UCalpha" "Alpha Channel" "https://img/alpha" in
  let d := mkDb (threads stale_db) (tags stale_db) ((7, 4) :: thread_tags stale_db)
             (bucket stale_db) 8 in
  tags_of 7 (db (syncExisting out by_id creators info 1 (world d [])).2)
  = [(7, 4)].
Proof.
  apply (sync_leaves_other_threads_links (outside lax []) by_id creators
           (mkChannelInfo "UCalpha" "Alpha Channel" "https://img/alpha") 1
           (world (mkDb (threads stale_db) (tags stale_db)
                     ((7, 4) :: thread_tags stale_db) (bucket stale_db) 8) [])
           7).
  lia.
Defined.

Lemma generateGroupsJson_idempotent_witness :
  UpdateMetadata.generateGroupsJson metadata_dir "Creators" ["alpha"; "beta"]
  = metadata_groups
  ∧ UpdateMetadata.generateGroupsJson
      (<["Creators" := metadata_job metadata_groups]> metadata_dir)
      "Creators" ["alpha"; "beta"]
    = UpdateMetadata.generateGroupsJson metadata_dir "Creators"
        ["alpha"; "beta"].
Proof.
  split; [vm_compute; reflexivity|].
  apply (generateGroupsJson_idempotent metadata_dir "Creators"
           ["alpha"; "beta"]
           (<["Creators" := metadata_job metadata_groups]> metadata_dir)).
  - apply (bool_decide_unpack _). vm_compute. exact I.
  - apply (bool_decide_unpack _). vm_compute. exact I.
  - vm_compute. reflexivity.
Defined.

Lemma update_metadata_idempotent_witness :
  let data' :=
    <["jobs.json" :=
        UpdateMetadata.JFile (Some (UpdateMetadata.mkJobsJson ["Creators"]))]>
      (<["Creators" := metadata_job metadata_groups]> metadata_dir) in
  UpdateMetadata.main metadata_dir = Some data'
  ∧ UpdateMetadata.main data' = Some data'.
Proof.
  split; [vm_compute; reflexivity|].
  apply (update_metadata_is_idempotent metadata_dir);
    [|vm_compute; reflexivity].
  intros j Hin.
  assert (j = "Creators") as -> by (vm_compute in Hin; not_listed; done).
  apply (bool_decide_unpack _). vm_compute. exact I.
Defined.

End Examples.
